(** * HSLPicker: the colour conversions and the picker state, verified

    A shallow embedding of [ColorConvert] and of the state-changing part of
    [HSLPicker] (constructor, [setHue], [setColor], [setColorHex],
    [_setIXY], [updateOuter], [updateInner], [normalizePos], [resize] and
    the three pointer handlers), with [getHex] and the geometry of the
    drawing functions.

    Numbers.  The source computes in binary64.  The file has two models
    of its numbers.  In the first a JavaScript number is exact: a finite
    value is a rational ([Fin q]), and the special values [Infinity],
    [-Infinity] and [NaN] follow the IEEE 754 rules for the operations the
    code uses (division by zero, [0 * Infinity], comparisons with [NaN],
    ...); the rounding error of binary64 arithmetic and the sign of zero
    are not in it.  The picker's geometry uses [Math.sqrt], [Math.cos],
    [Math.sin] and [Math.atan2]; that part is over the real numbers.  What
    is proved in this model is a property of the source as far as rounding
    does not matter to it: ranges, sectors, branches taken at exact values,
    fields left alone.  The second model, [Binary64], has the conversions
    and the stored hue on binary64 numbers themselves, rounding included;
    the properties that depend on the rounding (a value that is kept
    exactly, a divisor that is zero, a result that is in range for every
    input) are stated there.  The canvas is not part of the model: the
    drawing functions touch no field, and of what they paint the model
    keeps the geometry
    that they pass to the canvas (the wedges of [drawHueWheel], the rows of
    [drawColorSquare], the circles of [redraw]).  The pixel that [getColor]
    reads back is an argument of its callers [getHex] and [resize].

    The file has the model first ([Num], [ColorConvert], [Math],
    [HSLPicker]), then the vocabulary of the properties, the integer
    forms of the conversions and [Binary64], then the properties. *)

From Stdlib Require Import ZArith QArith Qround Qabs Qreals Reals Psatz Bool List.
From Stdlib Require Import Ascii String.
From Stdlib Require Uint63 ZifyUint63.
From Stdlib Require Floats.
Import ListNotations.

(** ** JavaScript numbers *)

Inductive num : Type :=
| Fin (q : Q)
| Inf (negative : bool)
| NaN.

Declare Scope num_scope.
Delimit Scope num_scope with num.
Bind Scope num_scope with num.

Module Num.

Definition ofZ (z : Z) : num := Fin (inject_Z z).

Definition isNaN (x : num) : bool :=
  match x with NaN => true | _ => false end.

Definition neg (x : num) : num :=
  match x with
  | Fin a => Fin (- a)
  | Inf sg => Inf (negb sg)
  | NaN => NaN
  end.

Definition add (x y : num) : num :=
  match x, y with
  | NaN, _ | _, NaN => NaN
  | Fin a, Fin b => Fin (a + b)
  | Inf sg, Fin _ | Fin _, Inf sg => Inf sg
  | Inf sg, Inf tg => if Bool.eqb sg tg then Inf sg else NaN
  end.

Definition sub (x y : num) : num := add x (neg y).

(** An infinity times a finite value: [NaN] at zero, else the sign rule. *)
Definition scaleInf (sg : bool) (a : Q) : num :=
  match (a ?= 0)%Q with
  | Eq => NaN
  | Gt => Inf sg
  | Lt => Inf (negb sg)
  end.

Definition mul (x y : num) : num :=
  match x, y with
  | NaN, _ | _, NaN => NaN
  | Fin a, Fin b => Fin (a * b)
  | Inf sg, Fin a | Fin a, Inf sg => scaleInf sg a
  | Inf sg, Inf tg => Inf (xorb sg tg)
  end.

Definition div (x y : num) : num :=
  match x, y with
  | NaN, _ | _, NaN => NaN
  | Fin a, Fin b =>
      if Qeq_bool b 0 then
        match (a ?= 0)%Q with
        | Eq => NaN
        | Gt => Inf false
        | Lt => Inf true
        end
      else Fin (a / b)
  | Fin _, Inf _ => Fin 0
  | Inf sg, Fin b =>
      match (b ?= 0)%Q with
      | Lt => Inf (negb sg)
      | _ => Inf sg
      end
  | Inf _, Inf _ => NaN
  end.

(** [Math.abs] *)
Definition abs (x : num) : num :=
  match x with
  | Fin a => Fin (Qabs a)
  | Inf _ => Inf false
  | NaN => NaN
  end.

(** [x < y]; false as soon as one side is [NaN]. *)
Definition ltb (x y : num) : bool :=
  match x, y with
  | Fin a, Fin b => negb (Qle_bool b a)
  | Fin _, Inf sg => negb sg
  | Inf sg, Fin _ => sg
  | Inf sg, Inf tg => sg && negb tg
  | _, _ => false
  end.

(** [x == y] and [x === y] on numbers; [NaN] equals nothing. *)
Definition eqb (x y : num) : bool :=
  match x, y with
  | Fin a, Fin b => Qeq_bool a b
  | Inf sg, Inf tg => Bool.eqb sg tg
  | _, _ => false
  end.

Definition max2 (x y : num) : num :=
  if isNaN x || isNaN y then NaN else if ltb x y then y else x.

Definition min2 (x y : num) : num :=
  if isNaN x || isNaN y then NaN else if ltb y x then y else x.

(** [Math.max(a, b, c)] and [Math.min(a, b, c)] *)
Definition max (a b c : num) : num := max2 (max2 a b) c.
Definition min (a b c : num) : num := min2 (min2 a b) c.

(** [Math.round]: the nearest integer, a tie going up. *)
Definition round (x : num) : num :=
  match x with
  | Fin a => ofZ (Qfloor (a + (1 # 2))%Q)
  | other => other
  end.

(** [Math.floor] *)
Definition floor (x : num) : num :=
  match x with
  | Fin a => ofZ (Qfloor a)
  | other => other
  end.

End Num.

Notation "x + y" := (Num.add x y) : num_scope.
Notation "x - y" := (Num.sub x y) : num_scope.
Notation "x * y" := (Num.mul x y) : num_scope.
Notation "x / y" := (Num.div x y) : num_scope.
Notation "x <? y" := (Num.ltb x y) : num_scope.
Notation "x == y" := (Num.eqb x y) : num_scope.

(** ** The colour records *)

Module Hsl.
Record t : Type := mk { h : num; s : num; l : num }.
End Hsl.

Module Hsb.
Record t : Type := mk { h : num; s : num; b : num }.
End Hsb.

Module Rgb.
Record t : Type := mk { r : num; g : num; b : num }.
End Rgb.

(** What [getColor] returns: three entries of the [Uint8ClampedArray] of a
    pixel, integers from 0 to 255. *)
Module Pixel.
Record t : Type := mk { r : Z; g : Z; b : Z }.

Definition channel (v : Z) : Prop := (0 <= v <= 255)%Z.

Definition wf (rgb : t) : Prop :=
  channel (r rgb) /\ channel (g rgb) /\ channel (b rgb).
End Pixel.

(** ** ColorConvert

    The conversions in exact arithmetic.  [Binary64.RGBtoHSL],
    [Binary64.HSLToHSB] and [Binary64.HSBToHSL] below are the same
    functions on binary64 numbers; the two differ where a rounding error
    decides the result (a value that [Math.round] takes at a tie, a divisor
    that rounds to zero). *)

Module ColorConvert.

Local Open Scope num_scope.

(** A [var] that was never assigned is [undefined]; in arithmetic it is
    [NaN]. *)
Definition undefined : num := NaN.

(** [S] and [H] are assigned together, under [if (cMax == cMin)]; here one
    after the other.  [H] stays [undefined] when the [switch] matches no
    case. *)
Definition RGBtoHSL (R G B : num) : Hsl.t :=
  let r := R / Fin 255 in
  let g := G / Fin 255 in
  let b := B / Fin 255 in
  let cMax := Num.max r g b in
  let cMin := Num.min r g b in
  let dC := cMax - cMin in
  let L := (cMax + cMin) / Fin 2 in
  let achromatic := cMax == cMin in
  let S :=
    if achromatic then Fin 0
    else if L <? Fin (1 # 2)
         then (cMax - cMin) / (cMax + cMin)
         else (cMax - cMin) / (Fin 2 - cMax - cMin) in
  let H :=
    if achromatic then Fin 0
    else if cMax == r then (g - b) / dC
    else if cMax == g then Fin 2 + (b - r) / dC
    else if cMax == b then Fin 4 + (r - g) / dC
    else undefined in
  {| Hsl.h := Num.round (H * Fin 60);
     Hsl.s := Num.round (S * Fin 100);
     Hsl.l := Num.round (L * Fin 100) |}.

Definition HSLToHSB (H S L : num) : Hsb.t :=
  let h := H in
  let b := (Fin 2 * L + S * (Fin 1 - Num.abs (Fin 2 * L - Fin 1))) / Fin 2 in
  if b == Fin 0 then
    {| Hsb.h := Fin 0; Hsb.s := Fin 0; Hsb.b := Fin 0 |}
  else
    let s := (Fin 2 * (b - L)) / b in
    {| Hsb.h := Num.round (h * Fin 60);
       Hsb.s := Num.round (s * Fin 100);
       Hsb.b := Num.round (b * Fin 100) |}.

Definition HSBToHSL (H S B : num) : Hsl.t :=
  let h := H in
  let l := Fin (1 # 2) * B * (Fin 2 - S) in
  let s := (B * S) / (Fin 1 - Num.abs (Fin 2 * l - Fin 1)) in
  if ((S == Fin 0) || Num.isNaN s) && (B == Fin 1) then
    {| Hsl.h := H * Fin 60; Hsl.s := Fin 0; Hsl.l := Fin 100 |}
  else if ((S == Fin 0) || Num.isNaN s) && (B == Fin 0) then
    {| Hsl.h := H * Fin 60; Hsl.s := Fin 0; Hsl.l := Fin 0 |}
  else
    {| Hsl.h := Num.round (h * Fin 60);
       Hsl.s := Num.round (s * Fin 100);
       Hsl.l := Num.round (l * Fin 100) |}.

(** *** Strings: what [HexToRGB] uses

    A string is a sequence of code units; the model keeps the code units
    below 256. *)

(** [str.replace(c, '')] for a one-character pattern: the first occurrence
    goes, wherever it is. *)
Fixpoint replace (hex : string) (c : ascii) : string :=
  match hex with
  | EmptyString => EmptyString
  | String a rest =>
      if Ascii.eqb a c then rest else String a (replace rest c)
  end.

(** [str.substring(from, to)]: both ends are clamped to the length and
    swapped when out of order. *)
Definition substring (str : string) (from to : nat) : string :=
  let lo := Nat.min from to in
  let hi := Nat.max from to in
  String.substring lo (hi - lo) str.

(** White space that [parseInt] skips (tab, line feed, vertical tab, form
    feed, carriage return, space, no-break space). *)
Definition isWhiteSpace (c : ascii) : bool :=
  let n := nat_of_ascii c in
  ((9 <=? n) && (n <=? 13) || (n =? 32) || (n =? 160))%nat.

Fixpoint trimStart (str : string) : string :=
  match str with
  | String c rest => if isWhiteSpace c then trimStart rest else str
  | EmptyString => EmptyString
  end.

(** The value of a digit in a radix up to 36. *)
Definition digitValue (c : ascii) : option Z :=
  let n := Z.of_nat (nat_of_ascii c) in
  if ((48 <=? n) && (n <=? 57))%Z then Some (n - 48)%Z
  else if ((97 <=? n) && (n <=? 122))%Z then Some (n - 87)%Z
  else if ((65 <=? n) && (n <=? 90))%Z then Some (n - 55)%Z
  else None.

(** The longest prefix of digits of the radix, read as an integer;
    [None] when the prefix is empty. *)
Fixpoint digits (radix : Z) (acc : option Z) (str : string) : option Z :=
  match str with
  | EmptyString => acc
  | String c rest =>
      match digitValue c with
      | Some d =>
          if (d <? radix)%Z then
            digits radix
              (Some (match acc with Some a => a * radix + d | None => d end)%Z)
              rest
          else acc
      | None => acc
      end
  end.

Definition stripSign (str : string) : bool * string :=
  match str with
  | String "-" rest => (true, rest)
  | String "+" rest => (false, rest)
  | _ => (false, str)
  end.

Definition stripPrefix (str : string) : string :=
  match str with
  | String "0" (String "x" rest) => rest
  | String "0" (String "X" rest) => rest
  | _ => str
  end.

(** [parseInt(str, radix)] for a radix from 2 to 36 ([NaN] outside). *)
Definition parseInt (str : string) (radix : Z) : num :=
  let '(negative, body) := stripSign (trimStart str) in
  if ((radix <? 2) || (36 <? radix))%Z then NaN
  else
    let body := if (radix =? 16)%Z then stripPrefix body else body in
    match digits radix None body with
    | None => NaN
    | Some n => Num.ofZ (if negative then - n else n)
    end.

Definition HexToRGB (hex : string) : Rgb.t :=
  let hex := replace hex "#" in
  let R := parseInt (substring hex 0 2) 16 in
  let G := parseInt (substring hex 2 4) 16 in
  let B := parseInt (substring hex 4 6) 16 in
  {| Rgb.r := R; Rgb.g := G; Rgb.b := B |}.

(** Modelled from the spec: the conversion from HSL back to RGB, the
    "reverse RGB composition" of the round trip, which [ColorConvert] does
    not have.  It is the standard one: the chroma [C = (1 - |2L - 1|) S],
    the hue brought to [0, 360) and cut in six sectors of 60 degrees,
    [X = C (1 - |H' mod 2 - 1|)], the offset [m = L - C / 2], and each
    channel scaled to 255 and rounded.  [h] is in degrees, [s] and [l] in
    percent, as [RGBtoHSL] returns them. *)
Definition HSLtoRGB (h s l : num) : Rgb.t :=
  let S := s / Fin 100 in
  let L := l / Fin 100 in
  let C := (Fin 1 - Num.abs (Fin 2 * L - Fin 1)) * S in
  let hue := h - Fin 360 * Num.floor (h / Fin 360) in
  let H' := hue / Fin 60 in
  let X :=
    C * (Fin 1 - Num.abs (H' - Fin 2 * Num.floor (H' / Fin 2) - Fin 1)) in
  let m := L - C / Fin 2 in
  let '(r1, g1, b1) :=
    if H' <? Fin 1 then (C, X, Fin 0)
    else if H' <? Fin 2 then (X, C, Fin 0)
    else if H' <? Fin 3 then (Fin 0, C, X)
    else if H' <? Fin 4 then (Fin 0, X, C)
    else if H' <? Fin 5 then (X, Fin 0, C)
    else (C, Fin 0, X) in
  {| Rgb.r := Num.round (Fin 255 * (r1 + m));
     Rgb.g := Num.round (Fin 255 * (g1 + m));
     Rgb.b := Num.round (Fin 255 * (b1 + m)) |}.

(** The round trip of the specification: [RGBtoHSL], then [HSLToHSB] and
    [HSBToHSL] on the rescaled triples, then back to RGB. *)
Definition roundTrip (R G B : num) : Rgb.t :=
  let hsl := RGBtoHSL R G B in
  let hsb :=
    HSLToHSB (Hsl.h hsl / Fin 60) (Hsl.s hsl / Fin 100)
             (Hsl.l hsl / Fin 100) in
  let hsl' :=
    HSBToHSL (Hsb.h hsb / Fin 60) (Hsb.s hsb / Fin 100)
             (Hsb.b hsb / Fin 100) in
  HSLtoRGB (Hsl.h hsl') (Hsl.s hsl') (Hsl.l hsl').

End ColorConvert.

(** ** Math on the reals *)

Module Math.

Local Open Scope R_scope.

(** [Math.round]: the nearest integer, a tie going up. *)
Definition round (x : R) : R := IZR (Int_part (x + / 2)).

Definition min (x y : R) : R := Rmin x y.
Definition max (x y : R) : R := Rmax x y.

(** [Math.atan2(y, x)]: the angle of the point [(x, y)], in (-PI, PI]. *)
Definition atan2 (y x : R) : R :=
  match total_order_T x 0 with
  | inleft (left _) =>
      if Rle_dec 0 y then atan (y / x) + PI else atan (y / x) - PI
  | inleft (right _) =>
      match total_order_T y 0 with
      | inleft (left _) => - (PI / 2)
      | inleft (right _) => 0
      | inright _ => PI / 2
      end
  | inright _ => atan (y / x)
  end.

(** A finite number as a real; [NaN] and the infinities have none. *)
Definition toR (x : num) : option R :=
  match x with
  | Fin q => Some (Q2R q)
  | _ => None
  end.

End Math.

(** ** HSLPicker *)

Module HSLPicker.

Local Open Scope R_scope.

Inductive eventType : Type :=
| mousedown | mouseup | mousemove | touchstart | touchend | touchmove.

(** A pointer event; [pageX], [pageY] stand for the page coordinates that
    [normalizePos] reads, from the event or from its first touch. *)
Record event : Type := mkEvent {
  type : eventType;
  pageX : R;
  pageY : R
}.

(** The fields of a picker.  [offsetLeft] and [offsetTop] are those of the
    canvas [this.can], which the page layout fixes. *)
Record t : Type := mk {
  id : string;
  parentId : string;
  radius : R;
  ringsize : R;
  hue : R;
  color : string;
  squareLength : R;
  outerActive : bool;
  innerActive : bool;
  ox : R;
  oy : R;
  ix : R;
  iy : R;
  offsetLeft : R;
  offsetTop : R
}.

Definition set_hue (this : t) (v : R) : t :=
  mk (id this) (parentId this) (radius this) (ringsize this) v (color this)
     (squareLength this) (outerActive this) (innerActive this)
     (ox this) (oy this) (ix this) (iy this)
     (offsetLeft this) (offsetTop this).

Definition set_oxy (this : t) (x y : R) : t :=
  mk (id this) (parentId this) (radius this) (ringsize this) (hue this)
     (color this) (squareLength this) (outerActive this) (innerActive this)
     x y (ix this) (iy this) (offsetLeft this) (offsetTop this).

Definition set_ixy (this : t) (x y : R) : t :=
  mk (id this) (parentId this) (radius this) (ringsize this) (hue this)
     (color this) (squareLength this) (outerActive this) (innerActive this)
     (ox this) (oy this) x y (offsetLeft this) (offsetTop this).

Definition set_outerActive (this : t) (v : bool) : t :=
  mk (id this) (parentId this) (radius this) (ringsize this) (hue this)
     (color this) (squareLength this) v (innerActive this)
     (ox this) (oy this) (ix this) (iy this)
     (offsetLeft this) (offsetTop this).

Definition set_innerActive (this : t) (v : bool) : t :=
  mk (id this) (parentId this) (radius this) (ringsize this) (hue this)
     (color this) (squareLength this) (outerActive this) v
     (ox this) (oy this) (ix this) (iy this)
     (offsetLeft this) (offsetTop this).

(** [redraw] paints the canvas and touches no field. *)
Definition redraw (this : t) : t := this.

(** [onChange] reads the pixel under [(ix, iy)] and calls the callback; it
    touches no field. *)
Definition onChange (this : t) : t := this.

(** Over the reals, with pi itself.  The hue that the source stores, with
    [Math.PI] and the rounding of binary64, is [Binary64.setHue]. *)
Definition setHue (this : t) (rad : R) : t :=
  let this := set_hue this (rad * (180 / PI)) in
  let this :=
    if Rlt_dec (hue this) 0 then set_hue this (hue this + 360) else this in
  let ringMiddle := radius this - ringsize this / 2 in
  let this :=
    set_oxy this (cos rad * ringMiddle + radius this)
                 (sin rad * ringMiddle + radius this) in
  redraw this.

Definition constructor (id parentId : string) (radius : R) (hue : R)
    (offsetLeft offsetTop : R) : t :=
  let ringsize := radius / 5 in
  let this :=
    mk id parentId radius ringsize hue EmptyString
       (sqrt 2 * (radius - ringsize)) false false
       0 0 radius radius offsetLeft offsetTop in
  setHue this (hue * (PI / 180)).

Definition normalizePos (this : t) (evt : event) : R * R :=
  (pageX evt - offsetLeft this, pageY evt - offsetTop this).

Definition _setIXY (this : t) (x y : R) : t :=
  let half := squareLength this / 2 in
  let ix1 :=
    if Rlt_dec 0 (x - radius this)
    then Math.min x (radius this + half) - 1
    else Math.max x (radius this - half) + 1 in
  let iy1 :=
    if Rlt_dec 0 (y - radius this)
    then Math.min y (radius this + half) - 1
    else Math.max y (radius this - half) + 1 in
  set_ixy this (Math.round ix1) (Math.round iy1).

Definition updateOuter (this : t) (evt : event) : t :=
  let pos := normalizePos this evt in
  let angle := Math.atan2 (snd pos - radius this) (fst pos - radius this) in
  setHue this angle.

Definition updateInner (this : t) (evt : event) : t :=
  let pos := normalizePos this evt in
  redraw (_setIXY this (fst pos) (snd pos)).

(** [setColor]: the colour conversions run on [num]; the picker's fields
    are reals, so a channel that is not finite has no successor state
    here ([None]). *)
Definition setColor (this : t) (r g b : num) : option t :=
  let hsl := ColorConvert.RGBtoHSL r g b in
  let hsv :=
    ColorConvert.HSLToHSB (Hsl.h hsl / Fin 60)%num (Hsl.s hsl / Fin 100)%num
                          (Hsl.l hsl / Fin 100)%num in
  match Math.toR (Hsb.h hsv), Math.toR (Hsb.s hsv), Math.toR (Hsb.b hsv) with
  | Some h, Some s, Some v =>
      let this := setHue this (h * PI / 180) in
      let x := radius this - squareLength this / 2
               + squareLength this * (s / 100) in
      let y := radius this + squareLength this / 2
               - squareLength this * (v / 100) in
      Some (redraw (_setIXY this x y))
  | _, _, _ => None
  end.

Definition setColorHex (this : t) (hex : string) : option t :=
  let rgb := ColorConvert.HexToRGB hex in
  setColor this (Rgb.r rgb) (Rgb.g rgb) (Rgb.b rgb).

(** The colour of stop [j] (of 15) in row [i] (of 100) of the square, as
    [drawColorSquare] computes it from the hue before it builds the CSS
    string ['hsl(h, s%, l%)']. *)
Definition drawColorSquare_stop (hue : num) (i j : Z) : Hsl.t :=
  let stops := 15%Z in
  let s := ((if (j =? stops - 1)%Z then 1 else 0) + j)%Z in
  let l := (100 - i - (if (i =? 99)%Z then 1 else 0))%Z in
  ColorConvert.HSBToHSL (hue / Fin 60)%num
    (Num.ofZ s / Num.ofZ stops)%num (Num.ofZ l / Fin 100)%num.

(** A call that moves the inner selection: [updateInner] with a pointer
    event, or [setColor] with three integer channels. *)
Inductive call : Type :=
| UpdateInner (evt : event)
| SetColor (r g b : Z).

(** The channels of a [setColor] call are colours, from 0 to 255. *)
Definition colour_call (c : call) : bool :=
  match c with
  | UpdateInner _ => true
  | SetColor r g b =>
      ((0 <=? r) && (r <=? 255) && (0 <=? g) && (g <=? 255)
       && (0 <=? b) && (b <=? 255))%Z
  end.

Definition perform (this : t) (c : call) : option t :=
  match c with
  | UpdateInner evt => Some (updateInner this evt)
  | SetColor r g b => setColor this (Num.ofZ r) (Num.ofZ g) (Num.ofZ b)
  end.

Fixpoint perform_all (this : t) (calls : list call) : option t :=
  match calls with
  | [] => Some this
  | c :: rest =>
      match perform this c with
      | Some next => perform_all next rest
      | None => None
      end
  end.

(** *** The pointer handlers *)

(** Distance from center, as [mDown] computes it. *)
Definition distance (this : t) (pos : R * R) : R :=
  sqrt ((radius this - fst pos) ^ 2 + (radius this - snd pos) ^ 2).

Definition mDown (this : t) (evt : event) : t :=
  let pos := normalizePos this evt in
  let dist := distance this pos in
  let this :=
    if Rlt_dec dist (radius this) then
      if Rgt_dec dist (radius this - ringsize this) then
        onChange (updateOuter (set_outerActive this true) evt)
      else this
    else this in
  if Rlt_dec dist (squareLength this / 2) then
    onChange (updateInner (set_innerActive this true) evt)
  else this.

Definition mMove (this : t) (evt : event) : t :=
  if outerActive this then onChange (updateOuter this evt)
  else if innerActive this then onChange (updateInner this evt)
  else this.

Definition mUp (this : t) (evt : event) : t :=
  set_outerActive (set_innerActive this false) false.

(** The listeners: press on [mousedown]/[touchstart], release on
    [mouseup]/[touchend], move on [mousemove]/[touchmove]. *)
Definition dispatch (this : t) (evt : event) : t :=
  match type evt with
  | mousedown | touchstart => mDown this evt
  | mouseup | touchend => mUp this evt
  | mousemove | touchmove => mMove this evt
  end.

Definition run (this : t) (evts : list event) : t :=
  fold_left dispatch evts this.

(** A press starts a gesture and a release ends it: in such a trace no
    press arrives while an earlier one is still held ([pressed]). *)
Fixpoint gestures (pressed : bool) (evts : list event) : bool :=
  match evts with
  | [] => true
  | evt :: rest =>
      match type evt with
      | mousedown | touchstart => negb pressed && gestures true rest
      | mouseup | touchend => gestures false rest
      | mousemove | touchmove => gestures pressed rest
      end
  end.

(** *** The event object

    [normalizePos] above takes the page coordinates as they are read; this
    is the reading.  A mouse event has [pageX] and [pageY].  For a touch
    the code reads [evt.originalEvent.changedTouches[0]] (on [touchstart])
    or [evt.originalEvent.touches[0]] (on [touchmove]).  [originalEvent] is
    no property of the events of the DOM (libraries that wrap events add
    it), so it may be absent; reading a property of [undefined] throws a
    [TypeError], which is [None] here. *)

Record touchPoint : Type := mkTouchPoint {
  touchPageX : R;
  touchPageY : R
}.

Record touchLists : Type := mkTouchLists {
  changedTouches : list touchPoint;
  touches : list touchPoint
}.

(** [domPageX] and [domPageY] are the [pageX] and [pageY] of a mouse
    event; the branches of a touch do not read them. *)
Record domEvent : Type := mkDomEvent {
  domType : eventType;
  domPageX : R;
  domPageY : R;
  originalEvent : option touchLists
}.

(** The [x] and [y] that [normalizePos] reads from the event object. *)
Definition pagePosition (evt : domEvent) : option (R * R) :=
  match domType evt with
  | touchstart =>
      match originalEvent evt with
      | Some original =>
          match changedTouches original with
          | first :: _ => Some (touchPageX first, touchPageY first)
          | [] => None
          end
      | None => None
      end
  | touchmove =>
      match originalEvent evt with
      | Some original =>
          match touches original with
          | first :: _ => Some (touchPageX first, touchPageY first)
          | [] => None
          end
      | None => None
      end
  | _ => Some (domPageX evt, domPageY evt)
  end.

(** The event with the coordinates read. *)
Definition readEvent (evt : domEvent) : option event :=
  match pagePosition evt with
  | Some (x, y) => Some (mkEvent (domType evt) x y)
  | None => None
  end.

(** A listener called with the event object.  [mDown] calls [normalizePos]
    before it assigns any field, and [mMove] calls it, through
    [updateOuter] or [updateInner], only while a flag is up and before any
    field is assigned; [mUp] never calls it.  [None]: the listener throws,
    and no field has changed. *)
Definition listen (this : t) (evt : domEvent) : option t :=
  match domType evt with
  | mousedown | touchstart =>
      match readEvent evt with
      | Some read => Some (mDown this read)
      | None => None
      end
  | mouseup | touchend =>
      Some (mUp this (mkEvent (domType evt) (domPageX evt) (domPageY evt)))
  | mousemove | touchmove =>
      if outerActive this || innerActive this then
        match readEvent evt with
        | Some read => Some (mMove this read)
        | None => None
        end
      else Some this
  end.

(** The events of a list, one after the other; an exception in a listener
    ends that listener and nothing else. *)
Definition listen_all (this : t) (evts : list domEvent) : t :=
  fold_left
    (fun this evt =>
       match listen this evt with
       | Some next => next
       | None => this
       end)
    evts this.

(** *** Reading the colour back

    [getColor] reads the pixel under [(ix, iy)] from the canvas, which is
    not modelled: the pixel is an argument of [getHex] and of [resize]. *)

(** The digit [d] (below 36) as [Number.prototype.toString] writes it:
    ['0'] to ['9'], then ['a'] to ['z']. *)
Definition digitChar (d : Z) : ascii :=
  ascii_of_nat (Z.to_nat (if (d <? 10)%Z then d + 48 else d + 87)%Z).

(** The digits of a non-negative integer [n], the most significant first,
    in front of [acc]; [fuel] bounds their number. *)
Fixpoint toDigits (fuel : nat) (n radix : Z) (acc : string) : string :=
  match fuel with
  | O => acc
  | S fuel' =>
      let acc := String (digitChar (n mod radix)) acc in
      if (n <? radix)%Z then acc else toDigits fuel' (n / radix)%Z radix acc
  end.

(** [n.toString(radix)] for an integer [n] and a radix from 2 to 36.  An
    integer [m] has at most [log2 m + 1] digits. *)
Definition toString (n radix : Z) : string :=
  let magnitude (m : Z) :=
    toDigits (S (Z.to_nat (Z.log2 m))) m radix EmptyString in
  if (n <? 0)%Z then String "-" (magnitude (- n)%Z) else magnitude n.

(** The [toHex] of [getHex]. *)
Definition toHex (val : Z) : string :=
  let hex := toString val 16 in
  if (String.length hex =? 1)%nat then ("0" ++ hex)%string else hex.

(** [getHex], of the pixel [rgb] that [getColor] returns. *)
Definition getHex (rgb : Pixel.t) : string :=
  ((("#" ++ toHex (Pixel.r rgb)) ++ toHex (Pixel.g rgb))
   ++ toHex (Pixel.b rgb))%string.

(** [resize], of the pixel [rgb] that [this.getColor()] returns and of the
    offsets of the new canvas. *)
Definition resize (this : t) (radius : R) (rgb : Pixel.t)
    (offsetLeft offsetTop : R) : option t :=
  let newWheel :=
    constructor (id this) (parentId this) radius (hue this)
                offsetLeft offsetTop in
  setColor newWheel (Num.ofZ (Pixel.r rgb)) (Num.ofZ (Pixel.g rgb))
           (Num.ofZ (Pixel.b rgb)).

(** *** What the drawing functions pass to the canvas *)

(** The circles of [redraw], each [drawCircle(x, y, radius)]: the mark of
    the inner selection and the indicator on the ring. *)
Definition redraw_circles (this : t) : list (R * R * R) :=
  [(ix this, iy this, 3); (ox this, oy this, ringsize this / 2)].

(** Wedge [i] of [drawHueWheel]: the start and the end angle of its arc,
    in radians.  It is filled with ['hsl(i, 100%, 50%)'], and the loop
    paints the wedges in the order of [i], from 0 to 359. *)
Definition drawHueWheel_wedge (i : Z) : R * R :=
  ((IZR i - 4) * (PI / 180), IZR i * (PI / 180)).

(** The rectangle of row [i] of [drawColorSquare], as [fillRect] gets it:
    [(x, y, width, height)]. *)
Definition drawColorSquare_row (this : t) (i : Z) : R * R * R * R :=
  let startX := Math.round (radius this - squareLength this / 2) in
  let startY :=
    Math.round (radius this - squareLength this / 2
                + IZR i * (squareLength this / 100)) in
  (startX, startY, Math.round (squareLength this),
   Math.round (squareLength this / 100)
   + IZR (if (i <? 96)%Z then 4 else 100 - i)).

End HSLPicker.

(** ** The vocabulary of the properties *)

(** Everything but [hue], [ox] and [oy] is the same in both states. *)
Definition frame_hue_oxy (before after : HSLPicker.t) : Prop :=
  HSLPicker.id after = HSLPicker.id before
  /\ HSLPicker.parentId after = HSLPicker.parentId before
  /\ HSLPicker.radius after = HSLPicker.radius before
  /\ HSLPicker.ringsize after = HSLPicker.ringsize before
  /\ HSLPicker.color after = HSLPicker.color before
  /\ HSLPicker.squareLength after = HSLPicker.squareLength before
  /\ HSLPicker.outerActive after = HSLPicker.outerActive before
  /\ HSLPicker.innerActive after = HSLPicker.innerActive before
  /\ HSLPicker.ix after = HSLPicker.ix before
  /\ HSLPicker.iy after = HSLPicker.iy before
  /\ HSLPicker.offsetLeft after = HSLPicker.offsetLeft before
  /\ HSLPicker.offsetTop after = HSLPicker.offsetTop before.

(** Everything but [ix] and [iy] is the same in both states. *)
Definition frame_ixy (before after : HSLPicker.t) : Prop :=
  HSLPicker.id after = HSLPicker.id before
  /\ HSLPicker.parentId after = HSLPicker.parentId before
  /\ HSLPicker.radius after = HSLPicker.radius before
  /\ HSLPicker.ringsize after = HSLPicker.ringsize before
  /\ HSLPicker.hue after = HSLPicker.hue before
  /\ HSLPicker.color after = HSLPicker.color before
  /\ HSLPicker.squareLength after = HSLPicker.squareLength before
  /\ HSLPicker.outerActive after = HSLPicker.outerActive before
  /\ HSLPicker.innerActive after = HSLPicker.innerActive before
  /\ HSLPicker.ox after = HSLPicker.ox before
  /\ HSLPicker.oy after = HSLPicker.oy before
  /\ HSLPicker.offsetLeft after = HSLPicker.offsetLeft before
  /\ HSLPicker.offsetTop after = HSLPicker.offsetTop before.

(** The degrees that [setHue] stores. *)
Definition degrees (rad : R) : R :=
  if Rlt_dec (rad * (180 / PI)) 0
  then (rad * (180 / PI) + 360)%R
  else (rad * (180 / PI))%R.

(** The square is the one inscribed in the inner disk of the ring. *)
Definition inscribed (this : HSLPicker.t) : Prop :=
  HSLPicker.squareLength this
  = (sqrt 2 * (HSLPicker.radius this - HSLPicker.ringsize this))%R.

(** [(ix, iy)] is within the square, on each axis. *)
Definition inner_in_square (this : HSLPicker.t) : Prop :=
  (HSLPicker.radius this - HSLPicker.squareLength this / 2
   <= HSLPicker.ix this
   <= HSLPicker.radius this + HSLPicker.squareLength this / 2
   /\ HSLPicker.radius this - HSLPicker.squareLength this / 2
      <= HSLPicker.iy this
      <= HSLPicker.radius this + HSLPicker.squareLength this / 2)%R.

(** A channel divided by 255. *)
Definition unit (z : Z) : Q := (inject_Z z / 255)%Q.

(** The value of a hexadecimal digit, of either case. *)
Definition hexValue (c : ascii) : option Z :=
  match ColorConvert.digitValue c with
  | Some d => if (d <? 16)%Z then Some d else None
  | None => None
  end.

(** Both drag flags are down. *)
Definition at_rest (this : HSLPicker.t) : Prop :=
  HSLPicker.outerActive this = false /\ HSLPicker.innerActive this = false.

(** The indicator of the ring is on the middle circle of the ring, at the
    angle of the hue. *)
Definition indicator_at_hue (this : HSLPicker.t) : Prop :=
  let ringMiddle :=
    (HSLPicker.radius this - HSLPicker.ringsize this / 2)%R in
  (HSLPicker.ox this
   = cos (HSLPicker.hue this * (PI / 180)) * ringMiddle
     + HSLPicker.radius this
   /\ HSLPicker.oy this
      = sin (HSLPicker.hue this * (PI / 180)) * ringMiddle
        + HSLPicker.radius this)%R.

(** A press, and a move, by the type of the event. *)
Definition is_press (evt : HSLPicker.event) : bool :=
  match HSLPicker.type evt with
  | HSLPicker.mousedown | HSLPicker.touchstart => true
  | _ => false
  end.

Definition is_move (evt : HSLPicker.event) : bool :=
  match HSLPicker.type evt with
  | HSLPicker.mousemove | HSLPicker.touchmove => true
  | _ => false
  end.

(** The same number, written the same way. *)
Definition num_same (x y : num) : bool :=
  match x, y with
  | Fin a, Fin b => ((Qnum a =? Qnum b)%Z && (Qden a =? Qden b)%positive)%bool
  | Inf sg, Inf tg => Bool.eqb sg tg
  | NaN, NaN => true
  | _, _ => false
  end.

(** The integers from 0 to [n - 1]. *)
Definition below (n : nat) : list Z := map Z.of_nat (seq 0 n).

(** Everything but the hue and the two selections ([hue], [ox], [oy], [ix]
    and [iy]) is the same in both states. *)
Definition frame_selection (before after : HSLPicker.t) : Prop :=
  HSLPicker.id after = HSLPicker.id before
  /\ HSLPicker.parentId after = HSLPicker.parentId before
  /\ HSLPicker.radius after = HSLPicker.radius before
  /\ HSLPicker.ringsize after = HSLPicker.ringsize before
  /\ HSLPicker.color after = HSLPicker.color before
  /\ HSLPicker.squareLength after = HSLPicker.squareLength before
  /\ HSLPicker.outerActive after = HSLPicker.outerActive before
  /\ HSLPicker.innerActive after = HSLPicker.innerActive before
  /\ HSLPicker.offsetLeft after = HSLPicker.offsetLeft before
  /\ HSLPicker.offsetTop after = HSLPicker.offsetTop before.

(** Wedge [i] of the hue wheel covers the angle [theta]. *)
Definition wedge_covers (i : Z) (theta : R) : Prop :=
  (fst (HSLPicker.drawHueWheel_wedge i) <= theta
   <= snd (HSLPicker.drawHueWheel_wedge i))%R.

(** ** The conversions on integer channels *)

(** What [RGBtoHSL] returns for integer channels, in integer arithmetic:
    the hue, the saturation and the lightness, each rounded. *)
Definition RGBtoHSL_Z (r g b : Z) : Z * Z * Z :=
  let M := Z.max (Z.max r g) b in
  let m := Z.min (Z.min r g) b in
  let d := (M - m)%Z in
  let l := ((20 * (M + m) + 51) / 102)%Z in
  if (M =? m)%Z then (0, 0, l)%Z
  else
    let D := if (M + m <? 255)%Z then (M + m)%Z else (510 - M - m)%Z in
    let s := ((200 * d + D) / (2 * D))%Z in
    let h :=
      if (M =? r)%Z then ((120 * (g - b) + d) / (2 * d))%Z
      else if (M =? g)%Z then ((120 * (2 * d + (b - r)) + d) / (2 * d))%Z
      else ((120 * (4 * d + (r - g)) + d) / (2 * d))%Z in
    (h, s, l).

(** [HSLToHSB(h / 60, s / 100, l / 100)] for integers [h], [s], [l]. *)
Definition HSLToHSB_Z (h s l : Z) : Z * Z * Z :=
  let N := (100 * l + s * (50 - Z.abs (l - 50)))%Z in
  if (N =? 0)%Z then (0, 0, 0)%Z
  else (h, (400 * (N - 100 * l) + N) / (2 * N), (2 * N + 100) / 200)%Z.

(** [HSBToHSL(h / 60, s / 100, b / 100)] for integers [h], [s], [b]. *)
Definition HSBToHSL_Z (h s b : Z) : Z * Z * Z :=
  let P := (b * (200 - s))%Z in
  let Dn := (10000 - Z.abs (P - 10000))%Z in
  if (Dn =? 0)%Z then
    if (b =? 100)%Z then (h, 0, 100)%Z else (h, 0, 0)%Z
  else (h, (200 * (b * s) + Dn) / (2 * Dn), (2 * P + 200) / 400)%Z.

(** [HSLtoRGB(h, s, l)] for integers [h], [s], [l]. *)
Definition HSLtoRGB_Z (h s l : Z) : Z * Z * Z :=
  let Cn := (s * (50 - Z.abs (l - 50)))%Z in
  let hm := (h mod 360)%Z in
  let t := (60 - Z.abs (hm mod 120 - 60))%Z in
  let hi := ((510 * (100 * l + Cn) + 10000) / 20000)%Z in
  let lo := ((510 * (100 * l - Cn) + 10000) / 20000)%Z in
  let mid :=
    ((510 * (Cn * t + 30 * (100 * l - Cn)) + 300000) / 600000)%Z in
  if (hm <? 60)%Z then (hi, mid, lo)
  else if (hm <? 120)%Z then (mid, hi, lo)
  else if (hm <? 180)%Z then (lo, hi, mid)
  else if (hm <? 240)%Z then (lo, mid, hi)
  else if (hm <? 300)%Z then (mid, lo, hi)
  else (hi, lo, mid).

Definition roundTrip_Z (r g b : Z) : Z * Z * Z :=
  let '(h1, s1, l1) := RGBtoHSL_Z r g b in
  let '(h2, s2, b2) := HSLToHSB_Z h1 s1 l1 in
  let '(h3, s3, l3) := HSBToHSL_Z h2 s2 b2 in
  HSLtoRGB_Z h3 s3 l3.

(** ** The round trip on machine integers

    The same integer computation on 63-bit machine integers, which evaluate
    fast enough to run the round trip on all 256^3 colours.  A hue is kept
    as [hue + 360], which is never negative. *)

Module Channels63.

Import Uint63.
Local Open Scope uint63_scope.

Definition max63 (a b : int) : int := if a <? b then b else a.
Definition min63 (a b : int) : int := if b <? a then b else a.

Definition hue63 (r g b M d : int) : int :=
  if M =? r then (120 * g + 721 * d - 120 * b) / (2 * d)
  else if M =? g then (120 * (2 * d + b - r) + d) / (2 * d) + 360
  else (120 * (4 * d + r - g) + d) / (2 * d) + 360.

Definition RGBtoHSL_63 (r g b : int) : int * int * int :=
  let M := max63 (max63 r g) b in
  let m := min63 (min63 r g) b in
  let d := M - m in
  let l := (20 * (M + m) + 51) / 102 in
  if M =? m then (360, 0, l)
  else
    let D := if M + m <? 255 then M + m else 510 - M - m in
    (hue63 r g b M d, (200 * d + D) / (2 * D), l).

(** [50 - |l - 50|] for [l] from 0 to 100. *)
Definition fold63 (l : int) : int := if l <? 50 then l else 100 - l.

Definition HSLToHSB_63 (hs s l : int) : int * int * int :=
  let w := s * fold63 l in
  let N := 100 * l + w in
  if N =? 0 then (360, 0, 0)
  else (hs, (400 * w + N) / (2 * N), (2 * N + 100) / 200).

Definition HSBToHSL_63 (hs s b : int) : int * int * int :=
  let P := b * (200 - s) in
  let Dn := if P <? 10000 then P else 20000 - P in
  if Dn =? 0 then (if b =? 100 then (hs, 0, 100) else (hs, 0, 0))
  else (hs, (200 * (b * s) + Dn) / (2 * Dn), (2 * P + 200) / 400).

Definition HSLtoRGB_63 (hs s l : int) : int * int * int :=
  let Cn := s * fold63 l in
  let hm := hs mod 360 in
  let u := hm mod 120 in
  let t := if u <? 60 then u else 120 - u in
  let hi := (510 * (100 * l + Cn) + 10000) / 20000 in
  let lo := (510 * (100 * l - Cn) + 10000) / 20000 in
  let mid := (510 * (Cn * t + 30 * (100 * l - Cn)) + 300000) / 600000 in
  if hm <? 60 then (hi, mid, lo)
  else if hm <? 120 then (mid, hi, lo)
  else if hm <? 180 then (lo, hi, mid)
  else if hm <? 240 then (lo, mid, hi)
  else if hm <? 300 then (mid, lo, hi)
  else (hi, lo, mid).

Definition roundTrip_63 (r g b : int) : int * int * int :=
  let '(h1, s1, l1) := RGBtoHSL_63 r g b in
  let '(h2, s2, b2) := HSLToHSB_63 h1 s1 l1 in
  let '(h3, s3, l3) := HSBToHSL_63 h2 s2 b2 in
  HSLtoRGB_63 h3 s3 l3.

(** [|x - y| <= k] *)
Definition near63 (k x y : int) : bool :=
  if x <=? y then y - x <=? k else x - y <=? k.

(** The round trip of [(r, g, b)] is within [k] of it on each channel. *)
Definition within63 (k r g b : int) : bool :=
  let '(r', g', b') := roundTrip_63 r g b in
  near63 k r r' && near63 k g g' && near63 k b b'.

(** [f] holds of [i], [i + 1], ..., [i + n - 1]. *)
Fixpoint all_from (n : nat) (f : int -> bool) (i : int) : bool :=
  match n with
  | O => true
  | S n' => if f i then all_from n' f (i + 1) else false
  end.

(** [f] holds of every channel value, 0 to 255. *)
Definition all_channels (f : int -> bool) : bool := all_from 256 f 0.

(** A value far from wrapping around: below 2^62. *)
Definition small (z : Z) : Prop := (0 <= z < 4611686018427387904)%Z.

End Channels63.

(** ** The numbers as the source has them: binary64

    [ColorConvert] and [HSLPicker] above compute in exact arithmetic.  The
    source computes in binary64, where every operation rounds to the
    nearest representable number (ties to even).  This module has the
    conversions and the hue of the picker once more, on primitive floats,
    which are binary64 numbers with that arithmetic: [*], [/], [+], [-]
    are those of JavaScript, [=?] is its [==] on numbers, [<?] its [<],
    [abs] its [Math.abs], [is_nan] its [isNaN].  [Math.cos], [Math.sin]
    and [Math.atan2] have no counterpart on primitive floats, so of the
    picker only the stored hue is here. *)

Module Binary64.

Import PrimFloat SpecFloat FloatOps.
Local Open Scope float_scope.

(** The number of an integer (below 2^62 in size, so without rounding
    below 2^53). *)
Definition ofZ (z : Z) : float :=
  if (z <? 0)%Z then - of_uint63 (Uint63.of_Z (- z))
  else of_uint63 (Uint63.of_Z z).

(** [Math.round]: the integer closest to [x], the larger one of two equally
    close; an integer, an infinity and [NaN] are returned as they are, and
    a result of zero has the sign of [x].  A finite [x] is [q * 2^e] for
    the integers [q] and [e] of its representation, and the closest integer
    is the floor of [(q + 2^(-e-1)) / 2^(-e)]. *)
Definition round (x : float) : float :=
  match Prim2SF x with
  | S754_finite negative m e =>
      if (0 <=? e)%Z then x
      else
        let q := if negative then Zneg m else Zpos m in
        let n := Z.shiftr (q + Z.shiftl 1 (- e - 1)) (- e) in
        if (n =? 0)%Z then (if negative then -0 else 0) else ofZ n
  | _ => x
  end.

(** [Math.max] and [Math.min] of two numbers: [NaN] if either is, and
    [-0] smaller than [+0]. *)
Definition max2 (x y : float) : float :=
  if is_nan x || is_nan y then nan
  else if x <? y then y
  else if y <? x then x
  else if get_sign x then y else x.

Definition min2 (x y : float) : float :=
  if is_nan x || is_nan y then nan
  else if y <? x then y
  else if x <? y then x
  else if get_sign x then x else y.

Definition max (a b c : float) : float := max2 (max2 a b) c.
Definition min (a b c : float) : float := min2 (min2 a b) c.

(** [Math.PI], the binary64 number closest to pi. *)
Definition PI : float := 0x1.921fb54442d18p+1.

Module Hsl.
Record t : Type := mk { h : float; s : float; l : float }.
End Hsl.

Module Hsb.
Record t : Type := mk { h : float; s : float; b : float }.
End Hsb.

(** [ColorConvert.RGBtoHSL].  When no [case] of the [switch] matches, [H]
    stays [undefined] and [H * 60] is [NaN]. *)
Definition RGBtoHSL (R G B : float) : Hsl.t :=
  let r := R / 255 in
  let g := G / 255 in
  let b := B / 255 in
  let cMax := max r g b in
  let cMin := min r g b in
  let dC := cMax - cMin in
  let L := (cMax + cMin) / 2 in
  let achromatic := cMax =? cMin in
  let S :=
    if achromatic then 0
    else if L <? 0.5
         then (cMax - cMin) / (cMax + cMin)
         else (cMax - cMin) / (2 - cMax - cMin) in
  let H :=
    if achromatic then 0
    else if cMax =? r then (g - b) / dC
    else if cMax =? g then 2 + (b - r) / dC
    else if cMax =? b then 4 + (r - g) / dC
    else nan in
  {| Hsl.h := round (H * 60);
     Hsl.s := round (S * 100);
     Hsl.l := round (L * 100) |}.

(** [ColorConvert.HSLToHSB]. *)
Definition HSLToHSB (H S L : float) : Hsb.t :=
  let h := H in
  let b := (2 * L + S * (1 - abs (2 * L - 1))) / 2 in
  if b =? 0 then {| Hsb.h := 0; Hsb.s := 0; Hsb.b := 0 |}
  else
    let s := (2 * (b - L)) / b in
    {| Hsb.h := round (h * 60);
       Hsb.s := round (s * 100);
       Hsb.b := round (b * 100) |}.

(** [ColorConvert.HSBToHSL]. *)
Definition HSBToHSL (H S B : float) : Hsl.t :=
  let h := H in
  let l := 0.5 * B * (2 - S) in
  let s := (B * S) / (1 - abs (2 * l - 1)) in
  if ((S =? 0) || is_nan s) && (B =? 1) then
    {| Hsl.h := H * 60; Hsl.s := 0; Hsl.l := 100 |}
  else if ((S =? 0) || is_nan s) && (B =? 0) then
    {| Hsl.h := H * 60; Hsl.s := 0; Hsl.l := 0 |}
  else
    {| Hsl.h := round (h * 60);
       Hsl.s := round (s * 100);
       Hsl.l := round (l * 100) |}.

(** The [hue] field after [setHue(hue)]: the argument in degrees, plus 360
    when that is negative. *)
Definition setHue (hue : float) : float :=
  let this_hue := hue * (180 / PI) in
  if this_hue <? 0 then this_hue + 360 else this_hue.

(** The [hue] field of a new picker: the constructor ends with
    [this.setHue(hue * (Math.PI / 180))]. *)
Definition constructor (hue : float) : float :=
  setHue (hue * (PI / 180)).

(** The [hue] field after [setColor], from the hue [h] of
    [HSLToHSB]: [this.setHue(hsv.h * (Math.PI) / 180)]. *)
Definition setColor_setHue (h : float) : float :=
  setHue (h * PI / 180).

(** The colour of stop [j] in row [i] of [drawColorSquare], for the hue
    stored in the picker. *)
Definition drawColorSquare_stop (hue : float) (i j : Z) : Hsl.t :=
  let stops := 15%Z in
  let s := ((if (j =? stops - 1)%Z then 1 else 0) + j)%Z in
  let l := (100 - i - (if (i =? 99)%Z then 1 else 0))%Z in
  HSBToHSL (hue / 60) (ofZ s / ofZ stops) (ofZ l / 100).

(** A number in [0, 1], as [0 <= x && x <= 1] decides it. *)
Definition unit (x : float) : bool := (0 <=? x) && (x <=? 1).

(** A whole number in [0, 100]. *)
Definition percentage (x : float) : bool :=
  (0 <=? x) && (x <=? 100) && (round x =? x).

(** Two numbers within 2^-44 of each other; that is the distance between
    neighbouring binary64 numbers from 256 to 512. *)
Definition near (x y : float) : bool := abs (x - y) <=? 0x1p-44.

(** A hue in [0, 360). *)
Definition wrapped (x : float) : bool := (0 <=? x) && (x <? 360).

End Binary64.

(** * Examples *)

Example RGBtoHSL_red :
  ColorConvert.RGBtoHSL (Fin 255) (Fin 0) (Fin 0)
  = {| Hsl.h := Num.ofZ 0; Hsl.s := Num.ofZ 100; Hsl.l := Num.ofZ 50 |}.
Proof. reflexivity. Qed.

Example RGBtoHSL_magenta :
  ColorConvert.RGBtoHSL (Fin 255) (Fin 0) (Fin 255)
  = {| Hsl.h := Num.ofZ (-60); Hsl.s := Num.ofZ 100; Hsl.l := Num.ofZ 50 |}.
Proof. reflexivity. Qed.

Example HexToRGB_ff00ff :
  ColorConvert.HexToRGB "#ff00ff"
  = {| Rgb.r := Num.ofZ 255; Rgb.g := Num.ofZ 0; Rgb.b := Num.ofZ 255 |}.
Proof. reflexivity. Qed.

Example HexToRGB_0x :
  ColorConvert.HexToRGB "0x-1 A"
  = {| Rgb.r := NaN; Rgb.g := Num.ofZ (-1); Rgb.b := Num.ofZ 10 |}.
Proof. reflexivity. Qed.

(** [ColorConvert] rounds a tie upwards where the source, a rounding error
    below the tie, rounds downwards. *)
Example RGBtoHSL_tie :
  ColorConvert.RGBtoHSL (Fin 0) (Fin 24) (Fin 1)
  = {| Hsl.h := Num.ofZ 123; Hsl.s := Num.ofZ 100; Hsl.l := Num.ofZ 5 |}
  /\ Binary64.RGBtoHSL (Binary64.ofZ 0) (Binary64.ofZ 24) (Binary64.ofZ 1)
     = {| Binary64.Hsl.h := Binary64.ofZ 122;
          Binary64.Hsl.s := Binary64.ofZ 100;
          Binary64.Hsl.l := Binary64.ofZ 5 |}.
Proof. split; vm_compute; reflexivity. Qed.

Example Binary64_RGBtoHSL_magenta :
  Binary64.RGBtoHSL (Binary64.ofZ 255) (Binary64.ofZ 0) (Binary64.ofZ 255)
  = {| Binary64.Hsl.h := Binary64.ofZ (-60);
       Binary64.Hsl.s := Binary64.ofZ 100;
       Binary64.Hsl.l := Binary64.ofZ 50 |}.
Proof. vm_compute. reflexivity. Qed.

(** [Math.round] of 2.5, -2.5, 122.5 and 7. *)
Example Binary64_round :
  map (fun z =>
         Binary64.round (PrimFloat.div (Binary64.ofZ z) (Binary64.ofZ 2)))
    [5; -5; 245; 14]%Z
  = map Binary64.ofZ [3; -2; 123; 7]%Z.
Proof. vm_compute. reflexivity. Qed.

(** * Properties *)

(** ** Degenerate colours *)

(** C6. For every hue the degenerate cases are exact:
    [HSBToHSL(h, 0, 1) = {h*60, 0, 100}], [HSBToHSL(h, 0, 0) = {h*60, 0, 0}],
    and for every hue and every (finite) saturation
    [HSLToHSB(h, s, 0) = {0, 0, 0}]. *)
Theorem degenerate_cases (H : num) (S : Q) :
  ColorConvert.HSBToHSL H (Fin 0) (Fin 1)
    = {| Hsl.h := (H * Fin 60)%num; Hsl.s := Fin 0; Hsl.l := Fin 100 |}
  /\ ColorConvert.HSBToHSL H (Fin 0) (Fin 0)
    = {| Hsl.h := (H * Fin 60)%num; Hsl.s := Fin 0; Hsl.l := Fin 0 |}
  /\ ColorConvert.HSLToHSB H (Fin S) (Fin 0)
    = {| Hsb.h := Fin 0; Hsb.s := Fin 0; Hsb.b := Fin 0 |}.
Proof.
  split; [reflexivity | split; [reflexivity |]].
  unfold ColorConvert.HSLToHSB.
  replace (_ == Fin 0)%num with true; [reflexivity |].
  symmetry. cbn.
  apply Qeq_eq_bool. unfold Qdiv. 
  setoid_replace ((2 * 0 + S * (1 - Qabs (2 * 0 + - (1)))))%Q with 0%Q.
  - reflexivity.
  - change (Qabs (2 * 0 + - (1))) with 1%Q. ring.
Qed.

(** ** The hue *)

Section Hue.

Import HSLPicker.
Local Open Scope R_scope.

Lemma setHue_frame_hue_oxy (this : t) (rad : R) :
  frame_hue_oxy this (setHue this rad).
Proof.
  unfold setHue, redraw, frame_hue_oxy; cbn.
  destruct (Rlt_dec _ 0); cbn; repeat split; reflexivity.
Qed.

Lemma hue_setHue (this : t) (rad : R) :
  hue (setHue this rad) = degrees rad.
Proof.
  unfold setHue, redraw, degrees; cbn.
  destruct (Rlt_dec _ 0); reflexivity.
Qed.

Lemma atan_nonpos (x : R) : x <= 0 -> atan x <= 0.
Proof.
  intros [Hlt | ->].
  - left. rewrite <- atan_0. now apply atan_increasing.
  - rewrite atan_0. lra.
Qed.

Lemma atan_pos (x : R) : 0 < x -> 0 < atan x.
Proof. intros Hx. rewrite <- atan_0. now apply atan_increasing. Qed.

Lemma atan2_bound (y x : R) : - PI < Math.atan2 y x <= PI.
Proof.
  pose proof PI_RGT_0 as Hpi.
  unfold Math.atan2.
  destruct (total_order_T x 0) as [[Hx | Hx] | Hx].
  - destruct (Rle_dec 0 y) as [Hy | Hy].
    + assert (Hq : y / x <= 0).
      { unfold Rdiv. apply Rinv_lt_0_compat in Hx. nra. }
      pose proof (atan_nonpos _ Hq). pose proof (atan_bound (y / x)). lra.
    + assert (Hq : 0 < y / x).
      { unfold Rdiv. apply Rinv_lt_0_compat in Hx. nra. }
      pose proof (atan_pos _ Hq). pose proof (atan_bound (y / x)). lra.
  - destruct (total_order_T y 0) as [[Hy | Hy] | Hy]; lra.
  - pose proof (atan_bound (y / x)). lra.
Qed.

End Hue.

(** C10. [setHue], and so [updateOuter], changes only [hue], [ox] and [oy]:
    every other field, [ix] and [iy] among them, is what it was. *)
Theorem setHue_updateOuter_frame
    (this : HSLPicker.t) (rad : R) (evt : HSLPicker.event) :
  frame_hue_oxy this (HSLPicker.setHue this rad)
  /\ frame_hue_oxy this (HSLPicker.updateOuter this evt).
Proof.
  split; [| unfold HSLPicker.updateOuter]; apply setHue_frame_hue_oxy.
Qed.

(** *** The hue in binary64 *)

Section Binary64Hue.

Import PrimFloat.
Local Open Scope float_scope.

(** C3. [setHue] does not keep the stored hue in [0, 360).  With 8 radians
    it stores 458.36623610465858: a value of 360 or more is stored as it
    is.  With the negative angle -2^-60, which lies in [-2 pi, 0), it
    stores 360 itself: the angle in degrees is negative, and 360 added to
    it rounds to 360.  With [2 * Math.PI] it stores 360 as well. *)
Theorem setHue_beyond_360 :
  Binary64.setHue 8 = 0x1.ca5dc1a63c1f8p+8
  /\ Binary64.wrapped (Binary64.setHue 8) = false
  /\ (- (2 * Binary64.PI) <=? - 0x1p-60) && (- 0x1p-60 <? 0) = true
  /\ Binary64.setHue (- 0x1p-60) = 360
  /\ Binary64.wrapped (Binary64.setHue (- 0x1p-60)) = false
  /\ Binary64.setHue (2 * Binary64.PI) = 360.
Proof. vm_compute. repeat split. Qed.

End Binary64Hue.

(** ** The drag flags *)

Section Drag.

Import HSLPicker.
Local Open Scope R_scope.

Lemma _setIXY_frame_ixy (this : t) (x y : R) :
  frame_ixy this (_setIXY this x y).
Proof. unfold _setIXY, frame_ixy; cbn. repeat split; reflexivity. Qed.

Lemma sqrt2_sqr : sqrt 2 * sqrt 2 = 2.
Proof. apply sqrt_def. lra. Qed.

Lemma sqrt2_pos : 0 < sqrt 2.
Proof. apply sqrt_lt_R0. lra. Qed.

Lemma distance_nonneg (this : t) (pos : R * R) : 0 <= distance this pos.
Proof. apply sqrt_pos. Qed.

(** No distance is beyond the inner edge of the ring and inside the square's
    inscribed circle at once. *)
Lemma ring_square_disjoint (this : t) (pos : R * R) :
  inscribed this ->
  ~ (distance this pos > radius this - ringsize this
     /\ distance this pos < squareLength this / 2).
Proof.
  intros Hsq [Hring Hsquare]. rewrite Hsq in Hsquare.
  pose proof (distance_nonneg this pos) as Hd.
  pose proof sqrt2_sqr as H2. pose proof sqrt2_pos as Hp.
  assert (Hlt : sqrt 2 < 2) by nra.
  nra.
Qed.

Lemma setHue_outerActive (this : t) (rad : R) :
  outerActive (setHue this rad) = outerActive this.
Proof. apply setHue_frame_hue_oxy. Qed.

Lemma setHue_innerActive (this : t) (rad : R) :
  innerActive (setHue this rad) = innerActive this.
Proof. apply setHue_frame_hue_oxy. Qed.

Lemma setHue_radius (this : t) (rad : R) :
  radius (setHue this rad) = radius this.
Proof. apply setHue_frame_hue_oxy. Qed.

Lemma setHue_ringsize (this : t) (rad : R) :
  ringsize (setHue this rad) = ringsize this.
Proof. apply setHue_frame_hue_oxy. Qed.

Lemma setHue_squareLength (this : t) (rad : R) :
  squareLength (setHue this rad) = squareLength this.
Proof. apply setHue_frame_hue_oxy. Qed.

Lemma setHue_offsetLeft (this : t) (rad : R) :
  offsetLeft (setHue this rad) = offsetLeft this.
Proof. apply setHue_frame_hue_oxy. Qed.

Lemma setHue_offsetTop (this : t) (rad : R) :
  offsetTop (setHue this rad) = offsetTop this.
Proof. apply setHue_frame_hue_oxy. Qed.

Lemma setHue_ix (this : t) (rad : R) : ix (setHue this rad) = ix this.
Proof. apply setHue_frame_hue_oxy. Qed.

Lemma setHue_iy (this : t) (rad : R) : iy (setHue this rad) = iy this.
Proof. apply setHue_frame_hue_oxy. Qed.

Lemma mDown_outerActive (this : t) (evt : event) :
  outerActive (mDown this evt)
  = if Rlt_dec (distance this (normalizePos this evt)) (radius this)
    then if Rgt_dec (distance this (normalizePos this evt))
                    (radius this - ringsize this)
         then true else outerActive this
    else outerActive this.
Proof.
  unfold mDown, onChange, updateInner, updateOuter, redraw.
  destruct (Rlt_dec (distance this (normalizePos this evt)) (radius this));
    [destruct (Rgt_dec (distance this (normalizePos this evt))
                       (radius this - ringsize this)) |];
    match goal with
    | |- context [Rlt_dec ?a ?b] => destruct (Rlt_dec a b)
    end;
    cbn [outerActive set_innerActive _setIXY set_ixy];
    rewrite ?setHue_outerActive; reflexivity.
Qed.

Lemma mDown_innerActive (this : t) (evt : event) :
  innerActive (mDown this evt)
  = if Rlt_dec (distance this (normalizePos this evt)) (squareLength this / 2)
    then true else innerActive this.
Proof.
  unfold mDown, onChange, updateInner, updateOuter, redraw.
  destruct (Rlt_dec (distance this (normalizePos this evt)) (radius this));
    [destruct (Rgt_dec (distance this (normalizePos this evt))
                       (radius this - ringsize this)) |];
    rewrite ?setHue_squareLength; cbn [squareLength set_outerActive];
    destruct (Rlt_dec (distance this (normalizePos this evt))
                      (squareLength this / 2));
    cbn [innerActive set_innerActive _setIXY set_ixy];
    rewrite ?setHue_innerActive; reflexivity.
Qed.

Lemma mMove_flags (this : t) (evt : event) :
  outerActive (mMove this evt) = outerActive this
  /\ innerActive (mMove this evt) = innerActive this.
Proof.
  unfold mMove, onChange, updateOuter, updateInner, redraw.
  destruct (outerActive this) eqn:Ho; [| destruct (innerActive this) eqn:Hi];
    cbn [outerActive innerActive _setIXY set_ixy];
    rewrite ?setHue_outerActive, ?setHue_innerActive; auto.
Qed.

Lemma mUp_flags (this : t) (evt : event) :
  outerActive (mUp this evt) = false /\ innerActive (mUp this evt) = false.
Proof. split; reflexivity. Qed.

(** The handlers leave the geometry alone. *)
Lemma dispatch_geometry (this : t) (evt : event) :
  radius (dispatch this evt) = radius this
  /\ ringsize (dispatch this evt) = ringsize this
  /\ squareLength (dispatch this evt) = squareLength this
  /\ offsetLeft (dispatch this evt) = offsetLeft this
  /\ offsetTop (dispatch this evt) = offsetTop this.
Proof.
  unfold dispatch, mDown, mMove, mUp, onChange, updateOuter, updateInner,
    redraw.
  destruct (type evt);
    repeat match goal with
           | |- context [Rlt_dec ?a ?b] => destruct (Rlt_dec a b)
           | |- context [Rgt_dec ?a ?b] => destruct (Rgt_dec a b)
           | |- context [if outerActive ?q then _ else _] =>
               destruct (outerActive q)
           | |- context [if innerActive ?q then _ else _] =>
               destruct (innerActive q)
           end;
    cbn [radius ringsize squareLength offsetLeft offsetTop
         set_innerActive set_outerActive _setIXY set_ixy];
    rewrite ?setHue_radius, ?setHue_ringsize, ?setHue_squareLength,
      ?setHue_offsetLeft, ?setHue_offsetTop;
    cbn [radius ringsize squareLength offsetLeft offsetTop
         set_innerActive set_outerActive];
    auto 6.
Qed.

Lemma dispatch_inscribed (this : t) (evt : event) :
  inscribed this -> inscribed (dispatch this evt).
Proof.
  unfold inscribed. intros Hsq.
  destruct (dispatch_geometry this evt) as (-> & -> & -> & _). exact Hsq.
Qed.

Lemma run_inscribed (evts : list event) (this : t) :
  inscribed this -> inscribed (run this evts).
Proof.
  revert this. induction evts as [| evt rest IH]; intros this Hsq.
  - exact Hsq.
  - apply IH, dispatch_inscribed, Hsq.
Qed.

Lemma constructor_inscribed (i p : string) (r h oL oT : R) :
  inscribed (constructor i p r h oL oT).
Proof.
  unfold inscribed, constructor.
  rewrite setHue_squareLength, setHue_radius, setHue_ringsize. reflexivity.
Qed.

Lemma constructor_flags (i p : string) (r h oL oT : R) :
  outerActive (constructor i p r h oL oT) = false
  /\ innerActive (constructor i p r h oL oT) = false.
Proof.
  unfold constructor.
  rewrite setHue_outerActive, setHue_innerActive. split; reflexivity.
Qed.

(** One press from rest raises at most one flag. *)
Lemma mDown_from_rest (this : t) (evt : event) :
  inscribed this ->
  outerActive this = false -> innerActive this = false ->
  ~ (outerActive (mDown this evt) = true
     /\ innerActive (mDown this evt) = true).
Proof.
  intros Hsq Ho Hi [Ho' Hi'].
  rewrite mDown_outerActive in Ho'. rewrite mDown_innerActive in Hi'.
  apply (ring_square_disjoint this (normalizePos this evt) Hsq).
  destruct (Rlt_dec _ (radius this)); [| congruence].
  destruct (Rgt_dec _ (radius this - ringsize this)); [| congruence].
  destruct (Rlt_dec _ (squareLength this / 2)); [| congruence].
  split; assumption.
Qed.

(** The invariant of a trace of gestures: at rest both flags are down, and
    during a gesture at most one is up. *)
Lemma run_gestures (evts : list event) (this : t) (pressed : bool) :
  inscribed this ->
  (pressed = false -> outerActive this = false /\ innerActive this = false) ->
  ~ (outerActive this = true /\ innerActive this = true) ->
  gestures pressed evts = true ->
  ~ (outerActive (run this evts) = true /\ innerActive (run this evts) = true).
Proof.
  revert this pressed.
  induction evts as [| evt rest IH]; intros this pressed Hsq Hrest Hone Hg.
  - exact Hone.
  - cbn [run fold_left]. change (fold_left dispatch rest ?q) with (run q rest).
    cbn [gestures] in Hg.
    pose proof (dispatch_inscribed this evt Hsq) as Hsq'.
    unfold dispatch in *.
    destruct (type evt).
    1, 4:
      apply andb_prop in Hg; destruct Hg as [Hp Hg];
      apply negb_true_iff in Hp; destruct (Hrest Hp) as [Ho Hi];
      apply (IH _ true); auto using mDown_from_rest; discriminate.
    1, 3:
      apply (IH _ false); auto;
      intros [Ho _]; pose proof (mUp_flags this evt) as [Ho' _]; congruence.
    all:
      destruct (mMove_flags this evt) as [Ho Hi];
      apply (IH _ pressed); auto; rewrite Ho, Hi; assumption.
Qed.

End Drag.

(** C7, as the code has it. From construction, along any trace of press, move
    and release events in which no press arrives while an earlier one is
    still held, at most one of [outerActive] and [innerActive] is up; and in
    every reachable state no position is at once farther from the centre
    than [radius - ringsize] and nearer than [squareLength / 2]. *)
Theorem drag_flags_exclusive
    (id parentId : string) (radius hue offsetLeft offsetTop : R)
    (evts : list HSLPicker.event) (pos : R * R) :
  HSLPicker.gestures false evts = true ->
  let this :=
    HSLPicker.run
      (HSLPicker.constructor id parentId radius hue offsetLeft offsetTop)
      evts in
  ~ (HSLPicker.outerActive this = true /\ HSLPicker.innerActive this = true)
  /\ ~ (HSLPicker.distance this pos
          > HSLPicker.radius this - HSLPicker.ringsize this
        /\ HSLPicker.distance this pos < HSLPicker.squareLength this / 2)%R.
Proof.
  intros Hg this. split.
  - apply (run_gestures evts _ false); auto using constructor_inscribed.
    + intros _. apply constructor_flags.
    + intros [Ho _].
      pose proof (constructor_flags id parentId radius hue offsetLeft offsetTop)
        as [Ho' _].
      congruence.
  - apply ring_square_disjoint, run_inscribed, constructor_inscribed.
Qed.

Lemma drag_flags_exclusive_witness :
  let evts :=
    [HSLPicker.mkEvent HSLPicker.mousedown 390 200;
     HSLPicker.mkEvent HSLPicker.mousemove 200 390;
     HSLPicker.mkEvent HSLPicker.mouseup 0 0;
     HSLPicker.mkEvent HSLPicker.touchstart 200 200] in
  HSLPicker.gestures false evts = true
  /\ let this :=
       HSLPicker.run (HSLPicker.constructor "picker" "parent" 200 0 0 0) evts in
     ~ (HSLPicker.outerActive this = true /\ HSLPicker.innerActive this = true)
     /\ ~ (HSLPicker.distance this (0, 0)%R
             > HSLPicker.radius this - HSLPicker.ringsize this
           /\ HSLPicker.distance this (0, 0)%R
              < HSLPicker.squareLength this / 2)%R.
Proof.
  intros evts. split.
  - reflexivity.
  - apply (drag_flags_exclusive "picker" "parent" 200 0 0 0 evts (0, 0)%R).
    reflexivity.
Defined.

(** C7 fails as stated: a press on the ring followed, with no release in
    between, by a press on the square leaves both flags up. *)
Lemma drag_flags_exclusive_counterexample :
  let this :=
    HSLPicker.run (HSLPicker.constructor "picker" "parent" 200 0 0 0)
      [HSLPicker.mkEvent HSLPicker.mousedown 390 200;
       HSLPicker.mkEvent HSLPicker.mousedown 200 200] in
  HSLPicker.outerActive this = true /\ HSLPicker.innerActive this = true.
Proof.
  cbn zeta. unfold HSLPicker.run. cbn [fold_left].
  set (p0 := HSLPicker.constructor "picker" "parent" 200 0 0 0).
  set (e1 := HSLPicker.mkEvent HSLPicker.mousedown 390 200).
  set (e2 := HSLPicker.mkEvent HSLPicker.mousedown 200 200).
  assert (Hr0 : HSLPicker.radius p0 = 200%R)
    by (unfold p0, HSLPicker.constructor; now rewrite setHue_radius).
  assert (Hs0 : HSLPicker.ringsize p0 = (200 / 5)%R)
    by (unfold p0, HSLPicker.constructor; now rewrite setHue_ringsize).
  assert (Hl0 : HSLPicker.offsetLeft p0 = 0%R)
    by (unfold p0, HSLPicker.constructor; apply setHue_frame_hue_oxy).
  assert (Ht0 : HSLPicker.offsetTop p0 = 0%R)
    by (unfold p0, HSLPicker.constructor; apply setHue_frame_hue_oxy).
  pose proof (constructor_inscribed "picker" "parent" 200 0 0 0) as Hq0.
  fold p0 in Hq0.
  set (p1 := HSLPicker.dispatch p0 e1).
  destruct (dispatch_geometry p0 e1) as (Hr1 & Hs1 & Hq1 & Hl1 & Ht1).
  fold p1 in Hr1, Hs1, Hq1, Hl1, Ht1.
  assert (Hd1 : HSLPicker.distance p0 (HSLPicker.normalizePos p0 e1) = 190%R).
  { unfold HSLPicker.distance, HSLPicker.normalizePos. cbn [fst snd e1
      HSLPicker.pageX HSLPicker.pageY].
    rewrite Hr0, Hl0, Ht0.
    replace ((200 - (390 - 0)) ^ 2 + (200 - (200 - 0)) ^ 2)%R
      with (190 * 190)%R by lra.
    apply sqrt_square. lra. }
  assert (Ho1 : HSLPicker.outerActive p1 = true).
  { unfold p1, HSLPicker.dispatch. cbn [HSLPicker.type e1].
    rewrite mDown_outerActive, Hd1, Hr0, Hs0.
    destruct (Rlt_dec 190 200); [| lra].
    destruct (Rgt_dec 190 (200 - 200 / 5)); [reflexivity | lra]. }
  assert (Hd2 : HSLPicker.distance p1 (HSLPicker.normalizePos p1 e2) = 0%R).
  { unfold HSLPicker.distance, HSLPicker.normalizePos. cbn [fst snd e2
      HSLPicker.pageX HSLPicker.pageY].
    rewrite Hr1, Hr0, Hl1, Ht1, Hl0, Ht0.
    replace ((200 - (200 - 0)) ^ 2 + (200 - (200 - 0)) ^ 2)%R
      with 0%R by lra.
    apply sqrt_0. }
  unfold HSLPicker.dispatch. cbn [HSLPicker.type e2].
  rewrite mDown_outerActive, mDown_innerActive, Hd2, Hr1, Hs1, Hq1, Hr0, Hs0.
  rewrite Hq0, Hr0, Hs0.
  pose proof sqrt2_pos.
  destruct (Rlt_dec 0 200); [| lra].
  destruct (Rgt_dec 0 (200 - 200 / 5)); [lra |].
  destruct (Rlt_dec 0 (sqrt 2 * (200 - 200 / 5) / 2)); [| lra].
  split; [exact Ho1 | reflexivity].
Qed.

(** ** Hex strings *)

Lemma substring_beyond (n m : nat) (str : string) :
  (String.length str <= n)%nat -> String.substring n m str = EmptyString.
Proof.
  revert str. induction n as [| n IH]; intros [| c rest] Hlen; cbn in *;
    try reflexivity; try lia.
  - destruct m; reflexivity.
  - apply IH. lia.
Qed.

(** C5, as the code has it. When the text left after removing the first
    ['#'] has at most 4 characters, the [b] field of [HexToRGB] is [NaN]. *)
Theorem HexToRGB_short_is_NaN (hex : string) :
  (String.length (ColorConvert.replace hex "#") <= 4)%nat ->
  Rgb.b (ColorConvert.HexToRGB hex) = NaN.
Proof.
  intros Hlen. unfold ColorConvert.HexToRGB, ColorConvert.substring.
  cbn [Rgb.b Nat.min Nat.max Nat.sub].
  rewrite (substring_beyond 4 2 _ Hlen). reflexivity.
Qed.

Lemma HexToRGB_short_is_NaN_witness :
  (String.length (ColorConvert.replace "#12ab" "#") <= 4)%nat
  /\ Rgb.b (ColorConvert.HexToRGB "#12ab") = NaN.
Proof.
  split; [cbn; lia | apply (HexToRGB_short_is_NaN "#12ab"); cbn; lia].
Defined.

(** C5 fails as stated: five hexadecimal digits are fewer than six, and
    every field of the result is a number. *)
Lemma HexToRGB_five_digits_counterexample :
  let rgb := ColorConvert.HexToRGB "#12345" in
  rgb = {| Rgb.r := Num.ofZ 18; Rgb.g := Num.ofZ 52; Rgb.b := Num.ofZ 5 |}
  /\ Num.isNaN (Rgb.r rgb) = false
  /\ Num.isNaN (Rgb.g rgb) = false
  /\ Num.isNaN (Rgb.b rgb) = false.
Proof. repeat split; reflexivity. Qed.

(** ** Arithmetic on finite numbers *)

Section FiniteNumbers.

Local Open Scope Q_scope.

Lemma ofZ_inj (a b : Z) : Num.ofZ a = Num.ofZ b -> a = b.
Proof. intros E. injection E. auto. Qed.

Lemma div_Fin (a b : Q) : ~ b == 0 -> (Fin a / Fin b)%num = Fin (a / b).
Proof.
  intros Hb. unfold Num.div.
  destruct (Qeq_bool b 0) eqn:E; [| reflexivity].
  apply Qeq_bool_eq in E. contradiction.
Qed.

Lemma eqb_Fin_true (a b : Q) : (Fin a == Fin b)%num = true <-> a == b.
Proof. apply Qeq_bool_iff. Qed.

Lemma eqb_Fin_false (a b : Q) : (Fin a == Fin b)%num = false <-> ~ a == b.
Proof.
  cbn. split.
  - apply Qeq_bool_neq.
  - intros Hne. destruct (Qeq_bool a b) eqn:E; [| reflexivity].
    apply Qeq_bool_eq in E. contradiction.
Qed.

Lemma ltb_Fin_true (a b : Q) : (Fin a <? Fin b)%num = true <-> a < b.
Proof.
  cbn. rewrite negb_true_iff. split.
  - intros E. apply Qnot_le_lt. intros Hle.
    apply Qle_bool_iff in Hle. congruence.
  - intros Hlt. destruct (Qle_bool b a) eqn:E; [| reflexivity].
    apply Qle_bool_iff in E. lra.
Qed.

Lemma ltb_Fin_false (a b : Q) : (Fin a <? Fin b)%num = false <-> b <= a.
Proof.
  cbn. rewrite negb_false_iff. apply Qle_bool_iff.
Qed.

Lemma Qfloor_half (z : Z) : Qfloor (inject_Z z + (1 # 2)) = z.
Proof.
  assert (Hlo : (z <= Qfloor (inject_Z z + (1 # 2)))%Z).
  { rewrite <- (Qfloor_Z z) at 1. apply Qfloor_resp_le. lra. }
  assert (Hhi : (Qfloor (inject_Z z + (1 # 2)) < z + 1)%Z).
  { apply Z.nle_gt. intros Hge.
    pose proof (Qfloor_le (inject_Z z + (1 # 2))) as Hfl.
    assert (inject_Z (z + 1) <= inject_Z (Qfloor (inject_Z z + (1 # 2))))
      by (rewrite <- Zle_Qle; exact Hge).
    rewrite inject_Z_plus in *. change (inject_Z 1) with 1 in *. lra. }
  lia.
Qed.

(** Rounding keeps a value between two integers between them. *)
Lemma round_Fin_range (q : Q) (lo hi : Z) :
  inject_Z lo <= q -> q <= inject_Z hi ->
  exists z : Z, Num.round (Fin q) = Num.ofZ z /\ (lo <= z <= hi)%Z.
Proof.
  intros Hlo Hhi. exists (Qfloor (q + (1 # 2))). split; [reflexivity |].
  split.
  - rewrite <- (Qfloor_Z lo). apply Qfloor_resp_le. lra.
  - rewrite <- (Qfloor_half hi). apply Qfloor_resp_le. lra.
Qed.

(** The quotient by a positive number, through its defining product. *)
Lemma Qdiv_spec (a b : Q) : ~ b == 0 -> (a / b) * b == a.
Proof. intros Hb. field. exact Hb. Qed.

Lemma Qabs_spec (x : Q) : 0 <= Qabs x /\ (Qabs x == x \/ Qabs x == - x).
Proof.
  split; [apply Qabs_nonneg |].
  destruct (Qlt_le_dec x 0) as [Hneg | Hpos].
  - right. apply Qabs_neg. lra.
  - left. apply Qabs_pos. exact Hpos.
Qed.

End FiniteNumbers.

(** ** Ranges of the HSL/HSB conversions *)

Section Ranges.

Local Open Scope Q_scope.

Lemma HSLToHSB_range (H : num) (S L : Q) :
  0 <= S <= 1 -> 0 <= L <= 1 ->
  exists s b : Z,
    Hsb.s (ColorConvert.HSLToHSB H (Fin S) (Fin L)) = Num.ofZ s
    /\ Hsb.b (ColorConvert.HSLToHSB H (Fin S) (Fin L)) = Num.ofZ b
    /\ (0 <= s <= 100)%Z /\ (0 <= b <= 100)%Z.
Proof.
  intros HS HL. unfold ColorConvert.HSLToHSB.
  cbn [Num.mul Num.add Num.sub Num.neg Num.abs].
  rewrite div_Fin by (intros E; discriminate E).
  destruct (Qabs_spec (2 * L + - (1))) as [HA0 HA].
  set (A := Qabs (2 * L + - (1))) in *.
  set (bq := (2 * L + S * (1 + - A)) / 2).
  assert (Hbq : bq * 2 == 2 * L + S * (1 + - A))
    by (apply Qdiv_spec; intros E; discriminate E).
  assert (HSA : 0 <= S * (1 + - A) <= 1 + - A) by (destruct HA; nra).
  destruct (Fin bq == Fin 0)%num eqn:Eb.
  - exists 0%Z, 0%Z. cbn. repeat split; lia.
  - apply eqb_Fin_false in Eb.
    cbn [Num.mul Num.add Num.sub Num.neg Hsb.s Hsb.b].
    rewrite div_Fin by exact Eb.
    set (sq := 2 * (bq + - L) / bq).
    assert (Hsq : sq * bq == 2 * (bq + - L)) by (apply Qdiv_spec; exact Eb).
    cbn [Num.mul Hsb.s Hsb.b].
    assert (Hb01 : 0 < bq <= 1) by (destruct HA; split; lra).
    assert (Hs01 : 0 <= sq <= 1) by (destruct HA; split; nra).
    destruct (round_Fin_range (sq * 100) 0 100) as (s & Es & Hs);
      [unfold inject_Z; lra | unfold inject_Z; lra |].
    destruct (round_Fin_range (bq * 100) 0 100) as (b & Ebq & Hb);
      [unfold inject_Z; lra | unfold inject_Z; lra |].
    exists s, b. auto.
Qed.

(** The three ways out of [HSBToHSL] for a saturation and a brightness in
    [0, 1]: the divisor [1 - |2l - 1|] is zero at white and at black only,
    and both are returned by the branches that test for them. *)
Lemma HSBToHSL_branches (H : num) (S B : Q) :
  0 <= S <= 1 -> 0 <= B <= 1 ->
  let den := 1 + - Qabs (2 * ((1 # 2) * B * (2 + - S)) + - (1)) in
  (den == 0 /\ B == 1
   /\ ColorConvert.HSBToHSL H (Fin S) (Fin B)
      = {| Hsl.h := (H * Fin 60)%num; Hsl.s := Fin 0; Hsl.l := Fin 100 |})
  \/ (den == 0 /\ B == 0
      /\ ColorConvert.HSBToHSL H (Fin S) (Fin B)
         = {| Hsl.h := (H * Fin 60)%num; Hsl.s := Fin 0; Hsl.l := Fin 0 |})
  \/ (~ den == 0
      /\ ColorConvert.HSBToHSL H (Fin S) (Fin B)
         = {| Hsl.h := Num.round (H * Fin 60);
              Hsl.s := Num.round (Fin (B * S / den * 100));
              Hsl.l := Num.round (Fin ((1 # 2) * B * (2 + - S) * 100)) |}
      /\ 0 <= B * S / den <= 1
      /\ 0 <= (1 # 2) * B * (2 + - S) <= 1).
Proof.
  intros HS HB den. unfold ColorConvert.HSBToHSL.
  cbn [Num.mul Num.add Num.sub Num.neg Num.abs].
  fold den.
  set (lq := (1 # 2) * B * (2 + - S)) in *.
  destruct (Qabs_spec (2 * lq + - (1))) as [HA0 HA].
  set (A := Qabs (2 * lq + - (1))) in *.
  assert (Hl01 : 0 <= lq <= 1) by (unfold lq; split; nra).
  destruct (Qeq_dec den 0) as [Hden | Hden].
  - assert (HA1 : A == 1) by (unfold den in Hden; lra).
    assert (HBS : B * S == 0 /\ (B == 1 \/ B == 0)).
    { unfold lq in HA. destruct HA as [HA | HA].
      - assert (HS0 : S == 0) by nra.
        assert (HB1 : B == 1) by nra.
        split; [nra | left; exact HB1].
      - assert (HB0 : B == 0) by nra.
        split; [nra | right; exact HB0]. }
    destruct HBS as [HBS HB01].
    assert (Es : (Fin (B * S) / Fin den)%num = NaN).
    { unfold Num.div. rewrite (Qeq_eq_bool _ _ Hden).
      apply Qeq_alt in HBS. rewrite HBS. reflexivity. }
    rewrite Es. cbn [Num.isNaN]. rewrite !orb_true_r. cbn [andb].
    destruct HB01 as [HB1 | HB0].
    + left. rewrite (proj2 (eqb_Fin_true B 1) HB1). auto.
    + right. left.
      assert (E1 : (Fin B == Fin 1)%num = false)
        by (apply eqb_Fin_false; lra).
      rewrite E1, (proj2 (eqb_Fin_true B 0) HB0). auto.
  - right. right. split; [exact Hden |].
    rewrite div_Fin by exact Hden.
    cbn [Num.isNaN]. rewrite !orb_false_r.
    assert (E1 : ((Fin S == Fin 0) && (Fin B == Fin 1))%num = false).
    { apply andb_false_iff.
      destruct (Fin S == Fin 0)%num eqn:ES; [| auto].
      right. apply eqb_Fin_false. intros HB1.
      apply eqb_Fin_true in ES. apply Hden. unfold den, lq in *.
      destruct HA as [HA | HA]; nra. }
    assert (E0 : ((Fin S == Fin 0) && (Fin B == Fin 0))%num = false).
    { apply andb_false_iff. right. apply eqb_Fin_false. intros HB0.
      apply Hden. unfold den, lq in *. destruct HA as [HA | HA]; nra. }
    rewrite E1, E0.
    set (sq := B * S / den).
    assert (Hsq : sq * den == B * S) by (apply Qdiv_spec; exact Hden).
    assert (Hden0 : 0 < den).
    { unfold den in *. destruct HA as [HA | HA]; lra. }
    assert (Hs01 : 0 <= sq <= 1).
    { unfold den, lq in *. destruct HA as [HA | HA]; split; nra. }
    cbn [Num.mul]. auto.
Qed.

Lemma HSBToHSL_cases (H : num) (S B : Q) :
  0 <= S <= 1 -> 0 <= B <= 1 ->
  let den := 1 + - Qabs (2 * ((1 # 2) * B * (2 + - S)) + - (1)) in
  (den == 0 /\ B == 1
   /\ ColorConvert.HSBToHSL H (Fin S) (Fin B)
      = {| Hsl.h := (H * Fin 60)%num; Hsl.s := Fin 0; Hsl.l := Fin 100 |})
  \/ (den == 0 /\ B == 0
      /\ ColorConvert.HSBToHSL H (Fin S) (Fin B)
         = {| Hsl.h := (H * Fin 60)%num; Hsl.s := Fin 0; Hsl.l := Fin 0 |})
  \/ (~ den == 0
      /\ exists s l : Z,
          ColorConvert.HSBToHSL H (Fin S) (Fin B)
          = {| Hsl.h := Num.round (H * Fin 60);
               Hsl.s := Num.ofZ s; Hsl.l := Num.ofZ l |}
          /\ (0 <= s <= 100)%Z /\ (0 <= l <= 100)%Z).
Proof.
  intros HS HB den.
  destruct (HSBToHSL_branches H S B HS HB)
    as [Hwhite | [Hblack | (Hden & E & Hs01 & Hl01)]]; auto.
  right. right. split; [exact Hden |].
  fold den in E, Hs01.
  destruct (round_Fin_range (B * S / den * 100) 0 100) as (s & Es & Hs);
    [unfold inject_Z; lra | unfold inject_Z; lra |].
  destruct (round_Fin_range ((1 # 2) * B * (2 + - S) * 100) 0 100)
    as (l & El & Hl);
    [unfold inject_Z; lra | unfold inject_Z; lra |].
  exists s, l. rewrite E, Es, El. auto.
Qed.

End Ranges.


(** ** The conversions in binary64 *)

(** What holds of every number below a bound holds of each. *)
Lemma below_all (n : nat) (P : Z -> bool) (i : Z) :
  forallb P (below n) = true -> (0 <= i < Z.of_nat n)%Z -> P i = true.
Proof.
  intros Hall Hi. rewrite forallb_forall in Hall. apply Hall.
  unfold below. apply in_map_iff. exists (Z.to_nat i). split; [lia |].
  apply in_seq. lia.
Qed.

Section Binary64Conversions.

Import PrimFloat Binary64.
Local Open Scope float_scope.

(** The saturation and the brightness (lightness) that the conversions
    return do not depend on the hue. *)
Lemma Binary64_HSLToHSB_s_b (H H' S L : float) :
  Hsb.s (HSLToHSB H S L) = Hsb.s (HSLToHSB H' S L)
  /\ Hsb.b (HSLToHSB H S L) = Hsb.b (HSLToHSB H' S L).
Proof.
  unfold HSLToHSB.
  destruct (_ =? 0); split; reflexivity.
Qed.

Lemma Binary64_HSBToHSL_s_l (H H' S B : float) :
  Hsl.s (HSBToHSL H S B) = Hsl.s (HSBToHSL H' S B)
  /\ Hsl.l (HSBToHSL H S B) = Hsl.l (HSBToHSL H' S B).
Proof.
  unfold HSBToHSL.
  destruct (_ && (B =? 1)); [split; reflexivity |].
  destruct (_ && (B =? 0)); split; reflexivity.
Qed.

(** The hue that the conversions return. *)
Lemma Binary64_HSLToHSB_h (H S L : float) :
  Hsb.h (HSLToHSB H S L)
  = if (2 * L + S * (1 - abs (2 * L - 1))) / 2 =? 0 then 0
    else round (H * 60).
Proof. unfold HSLToHSB. destruct (_ =? 0); reflexivity. Qed.

Lemma Binary64_HSBToHSL_h (H S B : float) :
  Hsl.h (HSBToHSL H S B) = H * 60
  \/ Hsl.h (HSBToHSL H S B) = round (H * 60).
Proof.
  unfold HSBToHSL.
  destruct (_ && (B =? 1)); [left; reflexivity |].
  destruct (_ && (B =? 0)); [left | right]; reflexivity.
Qed.

(** Every pair of whole percentages, and every stop of the square, one by
    one. *)
Lemma percentages_of_percentages :
  forallb (fun s => forallb (fun x =>
      let S := ofZ s / 100 in
      let X := ofZ x / 100 in
      percentage (Hsb.s (HSLToHSB 0 S X))
      && percentage (Hsb.b (HSLToHSB 0 S X))
      && percentage (Hsl.s (HSBToHSL 0 S X))
      && percentage (Hsl.l (HSBToHSL 0 S X)))
    (below 101)) (below 101) = true.
Proof. vm_compute. reflexivity. Qed.

Lemma percentages_of_stops :
  forallb (fun i => forallb (fun j =>
      percentage (Hsl.s (drawColorSquare_stop 0 i j))
      && percentage (Hsl.l (drawColorSquare_stop 0 i j)))
    (below 15)) (below 100) = true.
Proof. vm_compute. reflexivity. Qed.

(** C8. [HSBToHSL] returns [NaN] for a saturation and a brightness in
    [0, 1]: at S = 0 and B = 2^-60 the lightness is 2^-60, the divisor
    [1 - |2l - 1|] rounds to zero and the quotient is 0/0; the guard sees
    the [NaN], but B is neither 1 nor 0, neither guarding branch returns,
    and the final [return] rounds the [NaN]. *)
Theorem HSBToHSL_returns_NaN :
  let S := 0 in
  let B := 0x1p-60 in
  let l := 0.5 * B * (2 - S) in
  let s := (B * S) / (1 - abs (2 * l - 1)) in
  unit S = true /\ unit B = true
  /\ (1 - abs (2 * l - 1) =? 0) = true
  /\ is_nan s = true
  /\ (B =? 1) = false /\ (B =? 0) = false
  /\ HSBToHSL 0 S B = {| Hsl.h := 0; Hsl.s := nan; Hsl.l := 0 |}
  /\ is_nan (Hsl.s (HSBToHSL 0 S B)) = true.
Proof. vm_compute. repeat split. Qed.

(** C9, as the code has it. For a saturation and a lightness (brightness)
    that are whole percentages, [s / 100] and [x / 100] with integers [s]
    and [x] from 0 to 100, and for every hue, [HSLToHSB] returns whole
    numbers [s] and [b] in [0, 100] and [HSBToHSL] returns whole numbers
    [s] and [l] in [0, 100]; and so does [HSBToHSL] for every stop of the
    gradients of the square, whatever the hue of the picker. *)
Theorem conversions_keep_percentages (H : float) (s x i j : Z) :
  (0 <= s <= 100)%Z -> (0 <= x <= 100)%Z ->
  (0 <= i < 100)%Z -> (0 <= j < 15)%Z ->
  let S := ofZ s / 100 in
  let X := ofZ x / 100 in
  percentage (Hsb.s (HSLToHSB H S X)) = true
  /\ percentage (Hsb.b (HSLToHSB H S X)) = true
  /\ percentage (Hsl.s (HSBToHSL H S X)) = true
  /\ percentage (Hsl.l (HSBToHSL H S X)) = true
  /\ percentage (Hsl.s (drawColorSquare_stop H i j)) = true
  /\ percentage (Hsl.l (drawColorSquare_stop H i j)) = true.
Proof.
  intros Hs Hx Hi Hj S X.
  pose proof (below_all 101 _ s percentages_of_percentages ltac:(lia))
    as Hrow.
  cbv beta in Hrow.
  pose proof (below_all 101 _ x Hrow ltac:(lia)) as Hgrid.
  cbv beta zeta in Hgrid. fold S X in Hgrid.
  apply andb_prop in Hgrid as [Hgrid Hl].
  apply andb_prop in Hgrid as [Hgrid Hs'].
  apply andb_prop in Hgrid as [Hs'' Hb].
  destruct (Binary64_HSLToHSB_s_b H 0 S X) as [-> ->].
  destruct (Binary64_HSBToHSL_s_l H 0 S X) as [-> ->].
  pose proof (below_all 100 _ i percentages_of_stops ltac:(lia)) as Hrow'.
  cbv beta in Hrow'.
  pose proof (below_all 15 _ j Hrow' ltac:(lia)) as Hstop.
  cbv beta in Hstop.
  apply andb_prop in Hstop as [Hss Hsl].
  unfold drawColorSquare_stop in *.
  destruct (Binary64_HSBToHSL_s_l (H / 60) (0 / 60)
              (ofZ ((if (j =? 15 - 1)%Z then 1 else 0) + j) / ofZ 15)
              (ofZ (100 - i - (if (i =? 99)%Z then 1 else 0)) / 100))
    as [-> ->].
  repeat split; assumption.
Qed.

Lemma conversions_keep_percentages_witness :
  (0 <= 33 <= 100)%Z /\ (0 <= 75 <= 100)%Z
  /\ (0 <= 99 < 100)%Z /\ (0 <= 14 < 15)%Z
  /\ percentage (Hsb.s (HSLToHSB 2 (ofZ 33 / 100) (ofZ 75 / 100))) = true
  /\ percentage (Hsl.l (drawColorSquare_stop 120 99 14)) = true.
Proof.
  repeat (split; [lia |]).
  pose proof (conversions_keep_percentages 2 33 75 99 14
                ltac:(lia) ltac:(lia) ltac:(lia) ltac:(lia)) as H.
  cbv zeta in H.
  split; [apply H |].
  apply (conversions_keep_percentages 120 33 75 99 14); lia.
Defined.

(** C9 fails as stated: for the saturation 1 and the lightness 5 * 2^-57,
    both in [0, 1], [HSLToHSB] returns the saturation 123; and for the
    saturation 0.5 and the brightness 2^-60 [HSBToHSL] returns the
    saturation [Infinity]. *)
Lemma conversions_keep_percentages_counterexample :
  unit 1 = true /\ unit (5 * 0x1p-57) = true
  /\ Hsb.s (HSLToHSB 0 1 (5 * 0x1p-57)) = 123
  /\ percentage (Hsb.s (HSLToHSB 0 1 (5 * 0x1p-57))) = false
  /\ unit 0.5 = true /\ unit 0x1p-60 = true
  /\ Hsl.s (HSBToHSL 0 0.5 0x1p-60) = infinity
  /\ percentage (Hsl.s (HSBToHSL 0 0.5 0x1p-60)) = false.
Proof. vm_compute. repeat split. Qed.

End Binary64Conversions.

(** ** RGBtoHSL on colour channels *)

Section Channels.

Local Open Scope Q_scope.

Lemma Qfloor_round (q : Q) (n d : Z) :
  (0 < d)%Z -> q == inject_Z n / inject_Z d ->
  Qfloor (q + (1 # 2)) = ((2 * n + d) / (2 * d))%Z.
Proof.
  intros Hd Hq. rewrite Zdiv_Qdiv. apply Qfloor_comp.
  rewrite Hq, !inject_Z_plus, !inject_Z_mult.
  assert (Hd' : ~ inject_Z d == 0).
  { change 0 with (inject_Z 0). rewrite inject_Z_injective. lia. }
  change (inject_Z 2) with 2. field. exact Hd'.
Qed.

Lemma inject_Z_nonzero (z : Z) : (z <> 0)%Z -> ~ inject_Z z == 0.
Proof.
  intros Hz. change 0 with (inject_Z 0). rewrite inject_Z_injective. exact Hz.
Qed.

Lemma unit_lt (a b : Z) : unit a < unit b <-> (a < b)%Z.
Proof.
  unfold unit. rewrite Zlt_Qlt. split; intros Hlt.
  - apply Qmult_lt_r with (z := / 255); [reflexivity | exact Hlt].
  - apply Qmult_lt_r; [reflexivity | exact Hlt].
Qed.

Lemma unit_eq (a b : Z) : unit a == unit b <-> a = b.
Proof.
  unfold unit. rewrite <- inject_Z_injective. split; intros Heq.
  - apply Qmult_inj_r with (z := / 255); [intros E; discriminate E | exact Heq].
  - rewrite Heq. reflexivity.
Qed.

Lemma max2_unit (a b : Z) :
  Num.max2 (Fin (unit a)) (Fin (unit b)) = Fin (unit (Z.max a b)).
Proof.
  unfold Num.max2. cbn [Num.isNaN orb].
  destruct (Fin (unit a) <? Fin (unit b))%num eqn:E.
  - apply ltb_Fin_true in E. apply -> unit_lt in E.
    rewrite Z.max_r by lia. reflexivity.
  - apply ltb_Fin_false in E.
    assert (~ (a < b)%Z) by (rewrite <- unit_lt; lra).
    rewrite Z.max_l by lia. reflexivity.
Qed.

Lemma min2_unit (a b : Z) :
  Num.min2 (Fin (unit a)) (Fin (unit b)) = Fin (unit (Z.min a b)).
Proof.
  unfold Num.min2. cbn [Num.isNaN orb].
  destruct (Fin (unit b) <? Fin (unit a))%num eqn:E.
  - apply ltb_Fin_true in E. apply -> unit_lt in E.
    rewrite Z.min_r by lia. reflexivity.
  - apply ltb_Fin_false in E.
    assert (~ (b < a)%Z) by (rewrite <- unit_lt; lra).
    rewrite Z.min_l by lia. reflexivity.
Qed.

Lemma eqb_unit (a b : Z) :
  (Fin (unit a) == Fin (unit b))%num = (a =? b)%Z.
Proof.
  destruct (Z.eqb_spec a b) as [-> | Hne].
  - apply eqb_Fin_true. reflexivity.
  - apply eqb_Fin_false. rewrite unit_eq. exact Hne.
Qed.

End Channels.

Section ChannelsToHSL.

Local Open Scope Q_scope.

Lemma round_Fin_div (q : Q) (n d k e : Z) :
  (0 < d)%Z -> q == inject_Z n / inject_Z d ->
  (k = 2 * n + d)%Z -> (e = 2 * d)%Z ->
  Num.round (Fin q) = Num.ofZ (k / e).
Proof.
  intros Hd Hq -> ->. unfold Num.round, Num.ofZ.
  now rewrite (Qfloor_round q n d Hd Hq).
Qed.

Lemma RGBtoHSL_ofZ (r g b : Z) :
  (0 <= r <= 255)%Z -> (0 <= g <= 255)%Z -> (0 <= b <= 255)%Z ->
  ColorConvert.RGBtoHSL (Num.ofZ r) (Num.ofZ g) (Num.ofZ b)
  = let '(h, s, l) := RGBtoHSL_Z r g b in
    {| Hsl.h := Num.ofZ h; Hsl.s := Num.ofZ s; Hsl.l := Num.ofZ l |}.
Proof.
  intros Hr Hg Hb.
  unfold ColorConvert.RGBtoHSL, RGBtoHSL_Z.
  change (Num.ofZ r / Fin 255)%num with (Fin (unit r)).
  change (Num.ofZ g / Fin 255)%num with (Fin (unit g)).
  change (Num.ofZ b / Fin 255)%num with (Fin (unit b)).
  unfold Num.max, Num.min. rewrite !max2_unit, !min2_unit.
  set (M := Z.max (Z.max r g) b). set (m := Z.min (Z.min r g) b).
  assert (HM : (m <= M /\ 0 <= m /\ M <= 255)%Z) by lia.
  rewrite !eqb_unit.
  cbn [Num.add Num.sub Num.neg].
  rewrite (div_Fin _ 2) by (intros E; discriminate E).
  cbn [Num.mul].
  assert (El : Num.round (Fin ((unit M + unit m) / 2 * 100))
               = Num.ofZ ((20 * (M + m) + 51) / 102)).
  { apply (round_Fin_div _ (10 * (M + m)) 51); try lia.
    unfold unit. rewrite inject_Z_mult, inject_Z_plus.
    change (inject_Z 10) with 10. change (inject_Z 51) with 51. field. }
  rewrite El.
  destruct (Z.eqb_spec M m) as [HMm | HMm].
  - reflexivity.
  - assert (Hd : (0 < M - m)%Z) by lia.
    assert (Hdq : ~ unit M + - unit m == 0).
    { intros E. apply HMm, unit_eq. lra. }
    (* the saturation *)
    assert (Es :
      Num.round
        ((if (Fin ((unit M + unit m) / 2) <? Fin (1 # 2))%num
          then (Fin (unit M + - unit m) / Fin (unit M + unit m))%num
          else (Fin (unit M + - unit m)
                / Fin (2 + - unit M + - unit m))%num) * Fin 100)%num
      = Num.ofZ ((200 * (M - m)
                  + (if (M + m <? 255)%Z then M + m else 510 - M - m))
                 / (2 * (if (M + m <? 255)%Z then M + m else 510 - M - m)))).
    { assert (HuM : unit M == inject_Z M / 255) by reflexivity.
      assert (Hum : unit m == inject_Z m / 255) by reflexivity.
      assert (HuM' : unit M * 255 == inject_Z M) by (unfold unit; field).
      assert (Hum' : unit m * 255 == inject_Z m) by (unfold unit; field).
      destruct (Z.ltb_spec (M + m) 255) as [Hlt | Hge].
      - assert (E : (Fin ((unit M + unit m) / 2) <? Fin (1 # 2))%num = true).
        { apply ltb_Fin_true.
          assert (inject_Z (M + m) < inject_Z 255) by (rewrite <- Zlt_Qlt; lia).
          rewrite inject_Z_plus in *. change (inject_Z 255) with 255 in *.
          apply Qlt_shift_div_r; [reflexivity | lra]. }
        rewrite E.
        assert (Hpos : 0 < inject_Z (M + m))
          by (change 0 with (inject_Z 0); rewrite <- Zlt_Qlt; lia).
        rewrite inject_Z_plus in Hpos.
        rewrite div_Fin by lra. cbn [Num.mul].
        apply (round_Fin_div _ (100 * (M - m)) (M + m)); try lia.
        unfold Zminus.
        rewrite HuM, Hum, inject_Z_mult, !inject_Z_plus, inject_Z_opp.
        change (inject_Z 100) with 100. field; repeat split; lra.
      - assert (E : (Fin ((unit M + unit m) / 2) <? Fin (1 # 2))%num = false).
        { apply ltb_Fin_false.
          assert (inject_Z 255 <= inject_Z (M + m)) by (rewrite <- Zle_Qle; lia).
          rewrite inject_Z_plus in *. change (inject_Z 255) with 255 in *.
          apply Qle_shift_div_l; [reflexivity | lra]. }
        rewrite E.
        assert (Hpos : 0 < inject_Z (510 - M - m))
          by (change 0 with (inject_Z 0); rewrite <- Zlt_Qlt; lia).
        unfold Zminus in Hpos.
        rewrite !inject_Z_plus, !inject_Z_opp in Hpos.
        change (inject_Z 510) with 510 in Hpos.
        rewrite div_Fin by lra. cbn [Num.mul].
        apply (round_Fin_div _ (100 * (M - m)) (510 - M - m)); try lia.
        unfold Zminus.
        rewrite HuM, Hum, inject_Z_mult, !inject_Z_plus, !inject_Z_opp.
        change (inject_Z 100) with 100. change (inject_Z 510) with 510.
        field; repeat split; lra. }
    rewrite Es.
    (* the hue *)
    assert (Hu : forall z, unit z == inject_Z z / 255) by reflexivity.
    assert (Hdz : 0 < inject_Z M + - inject_Z m).
    { assert (inject_Z m < inject_Z M) by (rewrite <- Zlt_Qlt; lia). lra. }
    destruct (Z.eqb_spec M r) as [HMr | HMr].
    + rewrite div_Fin by exact Hdq. cbn [Num.mul].
      f_equal.
      apply (round_Fin_div _ (60 * (g - b)) (M - m)); try lia.
      unfold Zminus.
      rewrite !Hu, inject_Z_mult, !inject_Z_plus, !inject_Z_opp.
      change (inject_Z 60) with 60. field; repeat split; lra.
    + destruct (Z.eqb_spec M g) as [HMg | HMg].
      * rewrite div_Fin by exact Hdq. cbn [Num.mul Num.add].
        f_equal.
        apply (round_Fin_div _ (60 * (2 * (M - m) + (b - r))) (M - m));
          try lia.
        unfold Zminus.
        rewrite !Hu, !inject_Z_mult, !inject_Z_plus, !inject_Z_mult,
          !inject_Z_plus, !inject_Z_opp.
        change (inject_Z 60) with 60. change (inject_Z 2) with 2.
        field; repeat split; lra.
      * assert (E : (M =? b)%Z = true) by (apply Z.eqb_eq; lia).
        rewrite E.
        rewrite div_Fin by exact Hdq. cbn [Num.mul Num.add].
        f_equal.
        apply (round_Fin_div _ (60 * (4 * (M - m) + (r - g))) (M - m));
          try lia.
        unfold Zminus.
        rewrite !Hu, !inject_Z_mult, !inject_Z_plus, !inject_Z_mult,
          !inject_Z_plus, !inject_Z_opp.
        change (inject_Z 60) with 60. change (inject_Z 4) with 4.
        field; repeat split; lra.
Qed.

End ChannelsToHSL.

Lemma RGBtoHSL_Z_range (r g b : Z) :
  (0 <= r <= 255)%Z -> (0 <= g <= 255)%Z -> (0 <= b <= 255)%Z ->
  let '(h, s, l) := RGBtoHSL_Z r g b in
  (-60 <= h <= 300 /\ 0 <= s <= 100 /\ 0 <= l <= 100)%Z.
Proof.
  intros Hr Hg Hb. unfold RGBtoHSL_Z.
  set (M := Z.max (Z.max r g) b). set (m := Z.min (Z.min r g) b).
  assert (HM : (m <= M /\ 0 <= m /\ M <= 255 /\ m <= r <= M /\ m <= g <= M
                /\ m <= b <= M)%Z) by lia.
  assert (Hl : (0 <= (20 * (M + m) + 51) / 102 <= 100)%Z).
  { split.
    - apply Z.div_le_lower_bound; lia.
    - apply Z.lt_succ_r, Z.div_lt_upper_bound; lia. }
  destruct (Z.eqb_spec M m) as [HMm | HMm]; [lia |].
  set (D := if (M + m <? 255)%Z then (M + m)%Z else (510 - M - m)%Z).
  assert (HD : (0 < D /\ M - m <= D)%Z)
    by (unfold D; destruct (Z.ltb_spec (M + m) 255); lia).
  assert (Hs : (0 <= (200 * (M - m) + D) / (2 * D) <= 100)%Z).
  { split.
    - apply Z.div_le_lower_bound; lia.
    - apply Z.lt_succ_r, Z.div_lt_upper_bound; lia. }
  split; [| auto].
  destruct (Z.eqb_spec M r); [| destruct (Z.eqb_spec M g)]; split;
    first [ apply Z.div_le_lower_bound; lia
          | apply Z.lt_succ_r, Z.div_lt_upper_bound; lia ].
Qed.

(** C1, as the code has it. For integer channels in [0, 255], [RGBtoHSL]
    returns integers: [h] in [-60, 300], [s] in [0, 100] and [l] in
    [0, 100]. *)
Theorem RGBtoHSL_range (r g b : Z) :
  (0 <= r <= 255)%Z -> (0 <= g <= 255)%Z -> (0 <= b <= 255)%Z ->
  exists h s l : Z,
    ColorConvert.RGBtoHSL (Num.ofZ r) (Num.ofZ g) (Num.ofZ b)
    = {| Hsl.h := Num.ofZ h; Hsl.s := Num.ofZ s; Hsl.l := Num.ofZ l |}
    /\ (-60 <= h <= 300)%Z /\ (0 <= s <= 100)%Z /\ (0 <= l <= 100)%Z.
Proof.
  intros Hr Hg Hb.
  pose proof (RGBtoHSL_ofZ r g b Hr Hg Hb) as E.
  pose proof (RGBtoHSL_Z_range r g b Hr Hg Hb) as Hrange.
  destruct (RGBtoHSL_Z r g b) as [[h s] l].
  exists h, s, l. auto.
Qed.

Lemma RGBtoHSL_range_witness :
  (0 <= 12 <= 255)%Z /\ (0 <= 200 <= 255)%Z /\ (0 <= 255 <= 255)%Z
  /\ exists h s l : Z,
       ColorConvert.RGBtoHSL (Num.ofZ 12) (Num.ofZ 200) (Num.ofZ 255)
       = {| Hsl.h := Num.ofZ h; Hsl.s := Num.ofZ s; Hsl.l := Num.ofZ l |}
       /\ (-60 <= h <= 300)%Z /\ (0 <= s <= 100)%Z /\ (0 <= l <= 100)%Z.
Proof.
  split; [lia |]. split; [lia |]. split; [lia |].
  apply (RGBtoHSL_range 12 200 255); lia.
Defined.

(** C1 fails as stated: magenta has hue -60, which is no integer of
    [0, 360]. *)
Lemma RGBtoHSL_range_counterexample :
  Hsl.h (ColorConvert.RGBtoHSL (Num.ofZ 255) (Num.ofZ 0) (Num.ofZ 255))
  = Num.ofZ (-60)
  /\ ~ exists h : Z,
        Hsl.h (ColorConvert.RGBtoHSL (Num.ofZ 255) (Num.ofZ 0) (Num.ofZ 255))
        = Num.ofZ h
        /\ (0 <= h <= 360)%Z.
Proof.
  split; [reflexivity |].
  intros (h & E & Hh).
  change (Num.ofZ (-60) = Num.ofZ h) in E. apply ofZ_inj in E. lia.
Qed.

(** ** The inner selection *)

Section Inner.

Import HSLPicker.
Local Open Scope R_scope.

Lemma round_bounds (x : R) : x - / 2 < Math.round x <= x + / 2.
Proof.
  unfold Math.round. destruct (base_Int_part (x + / 2)) as [Hle Hgt]. lra.
Qed.

(** One axis of [_setIXY]: the clamp, the inset and the rounding. *)
Lemma clamp_bounds (r half x : R) :
  3 / 2 <= half ->
  r - half
  <= Math.round (if Rlt_dec 0 (x - r)
                 then Math.min x (r + half) - 1
                 else Math.max x (r - half) + 1)
  <= r + half.
Proof.
  intros Hhalf. unfold Math.min, Math.max.
  destruct (Rlt_dec 0 (x - r)) as [Hgt | Hle].
  - pose proof (round_bounds (Rmin x (r + half) - 1)) as Hrnd.
    pose proof (Rmin_r x (r + half)).
    assert (r < Rmin x (r + half)) by (apply Rmin_glb_lt; lra).
    lra.
  - pose proof (round_bounds (Rmax x (r - half) + 1)) as Hrnd.
    pose proof (Rmax_r x (r - half)).
    assert (Rmax x (r - half) <= r) by (apply Rmax_lub; lra).
    lra.
Qed.

Lemma _setIXY_in_square (this : t) (x y : R) :
  3 <= squareLength this -> inner_in_square (_setIXY this x y).
Proof.
  intros Hsq. unfold inner_in_square, _setIXY.
  cbn [ix iy radius squareLength set_ixy].
  split; apply clamp_bounds; lra.
Qed.

Lemma updateInner_in_square (this : t) (evt : event) :
  3 <= squareLength this -> inner_in_square (updateInner this evt).
Proof. intros Hsq. apply _setIXY_in_square, Hsq. Qed.

Lemma setColor_in_square (this next : t) (r g b : num) :
  3 <= squareLength this -> setColor this r g b = Some next ->
  inner_in_square next.
Proof.
  intros Hsq. unfold setColor.
  destruct (Math.toR _) as [h |]; [| discriminate].
  destruct (Math.toR _) as [s |]; [| discriminate].
  destruct (Math.toR _) as [v |]; [| discriminate].
  intros [= <-]. apply _setIXY_in_square.
  rewrite setHue_squareLength. exact Hsq.
Qed.

Lemma HSLToHSB_h_finite (H S L : Q) :
  exists z : Z,
    Hsb.h (ColorConvert.HSLToHSB (Fin H) (Fin S) (Fin L)) = Num.ofZ z.
Proof.
  unfold ColorConvert.HSLToHSB.
  destruct (_ == Fin 0)%num.
  - exists 0%Z. reflexivity.
  - cbn [Hsb.h Num.mul Num.round]. eexists. reflexivity.
Qed.

(** For colour channels [setColor] has a successor state. *)
Lemma setColor_colour (this : t) (r g b : Z) :
  (0 <= r <= 255)%Z -> (0 <= g <= 255)%Z -> (0 <= b <= 255)%Z ->
  exists next,
    setColor this (Num.ofZ r) (Num.ofZ g) (Num.ofZ b) = Some next.
Proof.
  intros Hr Hg Hb. unfold setColor.
  pose proof (RGBtoHSL_ofZ r g b Hr Hg Hb) as E.
  pose proof (RGBtoHSL_Z_range r g b Hr Hg Hb) as Hrange.
  destruct (RGBtoHSL_Z r g b) as [[h s] l].
  destruct Hrange as (Hh & Hs & Hl).
  rewrite E. cbn [Hsl.h Hsl.s Hsl.l]. unfold Num.ofZ.
  rewrite !div_Fin by (intros E'; discriminate E').
  assert (HS : (0 <= inject_Z s / 100 <= 1)%Q).
  { destruct Hs as [Hs0 Hs1]. rewrite Zle_Qle in Hs0, Hs1.
    change (inject_Z 0) with 0%Q in Hs0.
    change (inject_Z 100) with 100%Q in Hs1.
    split; [apply Qle_shift_div_l | apply Qle_shift_div_r]; lra. }
  assert (HL : (0 <= inject_Z l / 100 <= 1)%Q).
  { destruct Hl as [Hl0 Hl1]. rewrite Zle_Qle in Hl0, Hl1.
    change (inject_Z 0) with 0%Q in Hl0.
    change (inject_Z 100) with 100%Q in Hl1.
    split; [apply Qle_shift_div_l | apply Qle_shift_div_r]; lra. }
  destruct (HSLToHSB_range (Fin (inject_Z h / 60)) _ _ HS HL)
    as (s' & b' & -> & -> & _).
  destruct (HSLToHSB_h_finite (inject_Z h / 60) (inject_Z s / 100)
              (inject_Z l / 100)) as (h' & ->).
  cbn [Math.toR Num.ofZ]. eexists. reflexivity.
Qed.

Lemma setColor_squareLength (this next : t) (r g b : num) :
  setColor this r g b = Some next ->
  squareLength next = squareLength this /\ radius next = radius this.
Proof.
  unfold setColor.
  destruct (Math.toR _) as [h |]; [| discriminate].
  destruct (Math.toR _) as [s |]; [| discriminate].
  destruct (Math.toR _) as [v |]; [| discriminate].
  intros [= <-]. unfold redraw, _setIXY.
  cbn [squareLength radius set_ixy].
  rewrite setHue_squareLength, setHue_radius. auto.
Qed.

Lemma perform_all_in_square (calls : list call) (this : t) :
  3 <= squareLength this -> inner_in_square this ->
  forallb colour_call calls = true ->
  exists final, perform_all this calls = Some final /\ inner_in_square final.
Proof.
  revert this. induction calls as [| c rest IH]; intros this Hsq Hin Hok.
  - exists this. auto.
  - cbn [forallb] in Hok. apply andb_prop in Hok. destruct Hok as [Hc Hrest].
    cbn [perform_all]. destruct c as [evt | r g b]; cbn [perform].
    + apply IH; auto using updateInner_in_square.
    + cbn [colour_call] in Hc.
      repeat (apply andb_prop in Hc; destruct Hc as [Hc ?]).
      destruct (setColor_colour this r g b) as [next Enext]; try lia.
      rewrite Enext.
      destruct (setColor_squareLength _ _ _ _ _ Enext) as [Esq _].
      apply IH; [rewrite Esq; exact Hsq | | exact Hrest].
      eapply setColor_in_square; eauto.
Qed.

Lemma constructor_in_square (i p : string) (r h oL oT : R) :
  0 <= squareLength (constructor i p r h oL oT) ->
  inner_in_square (constructor i p r h oL oT).
Proof.
  unfold inner_in_square, constructor.
  rewrite setHue_squareLength, setHue_radius, setHue_ix, setHue_iy.
  cbn [squareLength radius ix iy]. intros Hsq. lra.
Qed.

End Inner.

(** C4, as the code has it. For a picker whose square is at least 3 pixels
    wide (every radius from 3 up), after construction and after any sequence
    of [updateInner] calls at arbitrary pointer positions and [setColor]
    calls with colour channels, [ix] and [iy] lie within
    [radius - squareLength/2, radius + squareLength/2]. *)
Theorem inner_selection_in_square
    (id parentId : string) (radius hue offsetLeft offsetTop : R)
    (calls : list HSLPicker.call) :
  let this :=
    HSLPicker.constructor id parentId radius hue offsetLeft offsetTop in
  (3 <= HSLPicker.squareLength this)%R ->
  forallb HSLPicker.colour_call calls = true ->
  inner_in_square this
  /\ exists final,
      HSLPicker.perform_all this calls = Some final
      /\ inner_in_square final.
Proof.
  intros this Hsq Hok.
  assert (Hin : inner_in_square this)
    by (apply constructor_in_square; fold this; lra).
  split; [exact Hin |].
  apply perform_all_in_square; assumption.
Qed.

Lemma square_of_radius_3 (i p : string) (r h oL oT : R) :
  (3 <= r -> 3 <= HSLPicker.squareLength (HSLPicker.constructor i p r h oL oT))%R.
Proof.
  intros Hr. unfold HSLPicker.constructor. rewrite setHue_squareLength.
  cbn [HSLPicker.squareLength].
  pose proof sqrt2_sqr. pose proof sqrt2_pos.
  assert (5 / 4 <= sqrt 2)%R by nra.
  nra.
Qed.

Lemma inner_selection_in_square_witness :
  let calls :=
    [HSLPicker.UpdateInner (HSLPicker.mkEvent HSLPicker.mousemove 9000 (-50));
     HSLPicker.SetColor 255 0 255;
     HSLPicker.UpdateInner (HSLPicker.mkEvent HSLPicker.touchmove 201 199)] in
  let this := HSLPicker.constructor "picker" "parent" 200 0 0 0 in
  (3 <= HSLPicker.squareLength this)%R
  /\ forallb HSLPicker.colour_call calls = true
  /\ inner_in_square this
  /\ exists final,
      HSLPicker.perform_all this calls = Some final
      /\ inner_in_square final.
Proof.
  intros calls this.
  assert (Hsq : (3 <= HSLPicker.squareLength this)%R)
    by (apply square_of_radius_3; lra).
  split; [exact Hsq |]. split; [reflexivity |].
  apply (inner_selection_in_square "picker" "parent" 200 0 0 0 calls);
    [exact Hsq | reflexivity].
Defined.

(** C4 fails as stated: with radius 1 the square is narrower than the
    1-pixel inset, and a pointer at (5/4, 1) moves [ix] to 0, left of the
    square. *)
Lemma inner_selection_in_square_counterexample :
  let this :=
    HSLPicker.updateInner (HSLPicker.constructor "picker" "parent" 1 0 0 0)
      (HSLPicker.mkEvent HSLPicker.mousemove (5 / 4) 1) in
  (0 < HSLPicker.radius this)%R /\ ~ inner_in_square this.
Proof.
  cbn zeta. unfold HSLPicker.updateInner, HSLPicker.redraw,
    HSLPicker.normalizePos, HSLPicker._setIXY, inner_in_square,
    HSLPicker.constructor.
  cbn [fst snd HSLPicker.pageX HSLPicker.pageY HSLPicker.ix HSLPicker.iy
       HSLPicker.radius HSLPicker.squareLength HSLPicker.set_ixy].
  rewrite !setHue_radius, !setHue_squareLength, !setHue_offsetLeft,
    !setHue_offsetTop.
  cbn [HSLPicker.radius HSLPicker.squareLength HSLPicker.offsetLeft
       HSLPicker.offsetTop].
  pose proof sqrt2_sqr as H2. pose proof sqrt2_pos as Hp.
  assert (Hs : (1 <= sqrt 2 < 2)%R) by nra.
  split; [lra |].
  destruct (Rlt_dec 0 (5 / 4 - 0 - 1)) as [_ | Hn]; [| lra].
  unfold Math.min. rewrite Rmin_left by lra.
  assert (E : Math.round (5 / 4 - 0 - 1) = 0%R).
  { unfold Math.round. rewrite <- (Int_part_spec _ 0); [reflexivity | lra]. }
  rewrite E. intros [[Hlo _] _]. lra.
Qed.

(** ** The round trip, in integers *)

Section RoundTripIntegers.

Local Open Scope Q_scope.

Lemma Qabs_div_Z (q : Q) (a d : Z) :
  (0 < d)%Z -> q == inject_Z a / inject_Z d ->
  Qabs q == inject_Z (Z.abs a) / inject_Z d.
Proof.
  intros Hd Hq. rewrite Hq. unfold Qdiv.
  rewrite Qabs_Qmult, Qabs_Qinv.
  change (Qabs (inject_Z a)) with (inject_Z (Z.abs a)).
  change (Qabs (inject_Z d)) with (inject_Z (Z.abs d)).
  rewrite (Z.abs_eq d) by lia. reflexivity.
Qed.

Lemma round_Fin_Z (q : Q) (z : Z) :
  q == inject_Z z -> Num.round (Fin q) = Num.ofZ z.
Proof.
  intros Hq. unfold Num.round. f_equal.
  rewrite <- (Qfloor_half z). apply Qfloor_comp. rewrite Hq. reflexivity.
Qed.

Lemma percent_unit (z : Z) :
  (0 <= z <= 100)%Z -> 0 <= inject_Z z / 100 <= 1.
Proof.
  intros [H0 H1]. rewrite Zle_Qle in H0, H1.
  change (inject_Z 0) with 0 in H0. change (inject_Z 100) with 100 in H1.
  split; [apply Qle_shift_div_l | apply Qle_shift_div_r]; lra.
Qed.

Lemma HSLToHSB_ofZ (h s l : Z) :
  (0 <= s <= 100)%Z -> (0 <= l <= 100)%Z ->
  ColorConvert.HSLToHSB (Num.ofZ h / Fin 60)%num (Num.ofZ s / Fin 100)%num
                        (Num.ofZ l / Fin 100)%num
  = let '(h', s', b') := HSLToHSB_Z h s l in
    {| Hsb.h := Num.ofZ h'; Hsb.s := Num.ofZ s'; Hsb.b := Num.ofZ b' |}.
Proof.
  intros Hs Hl.
  change (Num.ofZ h / Fin 60)%num with (Fin (inject_Z h / 60)).
  change (Num.ofZ s / Fin 100)%num with (Fin (inject_Z s / 100)).
  change (Num.ofZ l / Fin 100)%num with (Fin (inject_Z l / 100)).
  unfold ColorConvert.HSLToHSB, HSLToHSB_Z.
  cbn [Num.mul Num.add Num.sub Num.neg Num.abs].
  rewrite div_Fin by (intros E; discriminate E).
  set (N := (100 * l + s * (50 - Z.abs (l - 50)))%Z).
  assert (HN : (0 <= N)%Z) by (unfold N; nia).
  assert (HA : Qabs (2 * (inject_Z l / 100) + - (1))
               == inject_Z (Z.abs (l - 50)) / inject_Z 50).
  { apply Qabs_div_Z; [lia |]. unfold Zminus.
    rewrite inject_Z_plus, inject_Z_opp.
    change (inject_Z 50) with 50. field. }
  set (bq := (2 * (inject_Z l / 100)
              + inject_Z s / 100
                * (1 + - Qabs (2 * (inject_Z l / 100) + - (1)))) / 2).
  assert (Hbq : bq == inject_Z N / 10000).
  { unfold bq, N. rewrite HA. unfold Zminus.
    rewrite !inject_Z_plus, !inject_Z_mult, !inject_Z_plus, !inject_Z_opp.
    change (inject_Z 100) with 100. change (inject_Z 50) with 50. field. }
  destruct (Z.eqb_spec N 0) as [HN0 | HN0].
  - assert (E : (Fin bq == Fin 0)%num = true).
    { apply eqb_Fin_true. rewrite Hbq, HN0. reflexivity. }
    rewrite E. reflexivity.
  - assert (HNq : 0 < inject_Z N)
      by (change 0 with (inject_Z 0); rewrite <- Zlt_Qlt; lia).
    assert (Hb0 : ~ bq == 0).
    { rewrite Hbq. intros E.
      assert (inject_Z N == 0) by (rewrite <- (Qdiv_spec (inject_Z N) 10000);
        [rewrite E; reflexivity | intros E'; discriminate E']).
      lra. }
    assert (E : (Fin bq == Fin 0)%num = false) by (apply eqb_Fin_false, Hb0).
    rewrite E. cbn [Num.mul Num.add Num.sub Num.neg].
    rewrite div_Fin by exact Hb0. cbn [Num.mul].
    f_equal.
    + apply round_Fin_Z. field.
    + apply (round_Fin_div _ (200 * (N - 100 * l)) N); try lia.
      rewrite Hbq. unfold Zminus.
      rewrite !inject_Z_mult, !inject_Z_plus, !inject_Z_opp, !inject_Z_mult.
      change (inject_Z 200) with 200. change (inject_Z 100) with 100.
      field. lra.
    + apply (round_Fin_div _ N 100); try lia.
      rewrite Hbq. change (inject_Z 100) with 100. field.
Qed.

Lemma HSBToHSL_ofZ (h s b : Z) :
  (0 <= s <= 100)%Z -> (0 <= b <= 100)%Z ->
  let '(h', s', l') := HSBToHSL_Z h s b in
  exists hq : Q,
    hq == inject_Z h'
    /\ ColorConvert.HSBToHSL (Num.ofZ h / Fin 60)%num
         (Num.ofZ s / Fin 100)%num (Num.ofZ b / Fin 100)%num
       = {| Hsl.h := Fin hq; Hsl.s := Num.ofZ s'; Hsl.l := Num.ofZ l' |}.
Proof.
  intros Hs Hb.
  change (Num.ofZ h / Fin 60)%num with (Fin (inject_Z h / 60)).
  change (Num.ofZ s / Fin 100)%num with (Fin (inject_Z s / 100)).
  change (Num.ofZ b / Fin 100)%num with (Fin (inject_Z b / 100)).
  unfold HSBToHSL_Z.
  set (P := (b * (200 - s))%Z).
  set (Dn := (10000 - Z.abs (P - 10000))%Z).
  assert (HP : (0 <= P <= 20000)%Z) by (unfold P; nia).
  assert (HDn : (0 <= Dn)%Z) by (unfold Dn; lia).
  pose proof (HSBToHSL_branches (Fin (inject_Z h / 60)) _ _
                (percent_unit s Hs) (percent_unit b Hb)) as Hcases.
  cbv zeta in Hcases.
  set (lq := (1 # 2) * (inject_Z b / 100) * (2 + - (inject_Z s / 100))) in *.
  assert (Hlq : lq == inject_Z P / 20000).
  { unfold lq, P, Zminus.
    rewrite inject_Z_mult, inject_Z_plus, inject_Z_opp.
    change (inject_Z 200) with 200. field. }
  assert (HA : Qabs (2 * lq + - (1))
               == inject_Z (Z.abs (P - 10000)) / inject_Z 10000).
  { apply Qabs_div_Z; [lia |]. rewrite Hlq. unfold Zminus.
    rewrite inject_Z_plus, inject_Z_opp.
    change (inject_Z 10000) with 10000. field. }
  set (den := 1 + - Qabs (2 * lq + - (1))) in *.
  assert (Hden : den == inject_Z Dn / 10000).
  { unfold den, Dn. rewrite HA.
    set (a := Z.abs (P - 10000)). unfold Zminus.
    rewrite inject_Z_plus, inject_Z_opp.
    change (inject_Z 10000) with 10000. field. }
  assert (Hzero : den == 0 <-> Dn = 0%Z).
  { rewrite Hden. split.
    - intros E.
      assert (E' : inject_Z Dn == 0)
        by (rewrite <- (Qdiv_spec (inject_Z Dn) 10000);
            [rewrite E; reflexivity | intros E'; discriminate E']).
      exact (proj1 (inject_Z_injective Dn 0) E').
    - intros ->. reflexivity. }
  cbn [Num.mul] in Hcases.
  destruct Hcases as [(Hd0 & HB & E) | [(Hd0 & HB & E) | (Hd0 & E & _)]].
  - apply Hzero in Hd0. rewrite (proj2 (Z.eqb_eq Dn 0) Hd0).
    assert (Hb100 : b = 100%Z).
    { apply inject_Z_injective. change (inject_Z 100) with 100.
      rewrite <- (Qdiv_spec (inject_Z b) 100), HB;
        [reflexivity | intros E'; discriminate E']. }
    rewrite (proj2 (Z.eqb_eq b 100) Hb100).
    eexists. split; [| exact E]. field.
  - apply Hzero in Hd0. rewrite (proj2 (Z.eqb_eq Dn 0) Hd0).
    assert (Hb0 : b = 0%Z).
    { apply inject_Z_injective. change (inject_Z 0) with 0.
      rewrite <- (Qdiv_spec (inject_Z b) 100), HB;
        [reflexivity | intros E'; discriminate E']. }
    assert (Eb : (b =? 100)%Z = false) by (apply Z.eqb_neq; lia).
    rewrite Eb.
    eexists. split; [| exact E]. field.
  - assert (HDn0 : Dn <> 0%Z) by (intros E'; apply Hd0, Hzero, E').
    rewrite (proj2 (Z.eqb_neq Dn 0) HDn0).
    exists (inject_Z h). split; [reflexivity |].
    rewrite E. f_equal.
    + apply round_Fin_Z. field.
    + apply (round_Fin_div _ (100 * (b * s)) Dn); try lia.
      rewrite Hden, !inject_Z_mult.
      change (inject_Z 100) with 100.
      assert (~ inject_Z Dn == 0) by (apply inject_Z_nonzero, HDn0).
      field. auto.
    + apply (round_Fin_div _ P 200); try lia.
      fold lq. rewrite Hlq. change (inject_Z 200) with 200. field.
Qed.

Ltac sector :=
  cbv beta iota zeta; cbn [Num.mul Num.add];
  match goal with
  | Ehi : _ = Num.ofZ _, Emid : _ = Num.ofZ _, Elo : _ = Num.ofZ _ |- _ =>
      rewrite Ehi, Emid, Elo; reflexivity
  end.

Lemma Qfloor_div_Z (q : Q) (a d : Z) :
  q == inject_Z a / inject_Z d -> Qfloor q = (a / d)%Z.
Proof. intros Hq. rewrite Zdiv_Qdiv. apply Qfloor_comp, Hq. Qed.

Lemma HSLtoRGB_ofZ (hq : Q) (h s l : Z) :
  hq == inject_Z h -> (0 <= s <= 100)%Z -> (0 <= l <= 100)%Z ->
  ColorConvert.HSLtoRGB (Fin hq) (Num.ofZ s) (Num.ofZ l)
  = let '(r, g, b) := HSLtoRGB_Z h s l in
    {| Rgb.r := Num.ofZ r; Rgb.g := Num.ofZ g; Rgb.b := Num.ofZ b |}.
Proof.
  intros Hhq Hs Hl.
  unfold ColorConvert.HSLtoRGB, HSLtoRGB_Z.
  change (Num.ofZ s / Fin 100)%num with (Fin (inject_Z s / 100)).
  change (Num.ofZ l / Fin 100)%num with (Fin (inject_Z l / 100)).
  rewrite (div_Fin hq 360) by (intros E; discriminate E).
  cbn [Num.floor].
  rewrite (Qfloor_div_Z (hq / 360) h 360) by (rewrite Hhq; reflexivity).
  cbn [Num.mul Num.add Num.sub Num.neg Num.abs Num.ofZ].
  set (hm := (h mod 360)%Z).
  set (hueq := hq + - (360 * inject_Z (h / 360))).
  assert (Hhue : hueq == inject_Z hm).
  { unfold hueq, hm. rewrite Z.mod_eq by lia. unfold Zminus.
    rewrite Hhq, inject_Z_plus, inject_Z_opp, inject_Z_mult. reflexivity. }
  assert (Hhm : (0 <= hm < 360)%Z) by (unfold hm; apply Z.mod_pos_bound; lia).
  rewrite (div_Fin hueq 60) by (intros E; discriminate E).
  rewrite (div_Fin (hueq / 60) 2) by (intros E; discriminate E).
  cbn [Num.floor].
  rewrite (Qfloor_div_Z (hueq / 60 / 2) hm 120)
    by (rewrite Hhue; change (inject_Z 120) with 120; field).
  cbn [Num.mul Num.add Num.sub Num.neg Num.abs Num.ofZ].
  (* the chroma *)
  set (Cn := (s * (50 - Z.abs (l - 50)))%Z).
  set (Cq := (1 + - Qabs (2 * (inject_Z l / 100) + - (1)))
             * (inject_Z s / 100)).
  assert (HC : Cq == inject_Z Cn / 5000).
  { unfold Cq, Cn.
    rewrite (Qabs_div_Z (2 * (inject_Z l / 100) + - (1)) (l - 50) 50);
      [| lia
       | unfold Zminus; rewrite inject_Z_plus, inject_Z_opp;
         change (inject_Z 50) with 50; field ].
    set (a := Z.abs (l - 50)). unfold Zminus.
    rewrite inject_Z_mult, inject_Z_plus, inject_Z_opp.
    change (inject_Z 50) with 50. field. }
  (* the second largest component *)
  set (t := (60 - Z.abs (hm mod 120 - 60))%Z).
  set (Xq := Cq * (1 + - Qabs (hueq / 60 + - (2 * inject_Z (hm / 120))
                               + - (1)))).
  assert (HX : Xq == inject_Z (Cn * t) / 300000).
  { unfold Xq, t.
    rewrite (Qabs_div_Z _ (hm mod 120 - 60) 60);
      [| lia
       | rewrite Hhue, (Z.mod_eq hm 120) by lia; unfold Zminus;
         rewrite !inject_Z_plus, !inject_Z_opp, inject_Z_mult;
         change (inject_Z 60) with 60; change (inject_Z 120) with 120;
         field ].
    set (a := Z.abs (hm mod 120 - 60)). rewrite HC. unfold Zminus.
    rewrite inject_Z_mult, inject_Z_plus, inject_Z_opp.
    change (inject_Z 60) with 60. field. }
  rewrite (div_Fin Cq 2) by (intros E; discriminate E).
  cbn [Num.add Num.neg].
  set (mq := inject_Z l / 100 + - (Cq / 2)).
  (* the three values a channel can take *)
  assert (Ehi : Num.round (Fin (255 * (Cq + mq)))
                = Num.ofZ ((510 * (100 * l + Cn) + 10000) / 20000)).
  { apply (round_Fin_div _ (255 * (100 * l + Cn)) 10000); try lia.
    unfold mq. rewrite HC, !inject_Z_mult, inject_Z_plus, inject_Z_mult.
    change (inject_Z 255) with 255. change (inject_Z 100) with 100.
    change (inject_Z 10000) with 10000. field. }
  assert (Elo : Num.round (Fin (255 * (0 + mq)))
                = Num.ofZ ((510 * (100 * l - Cn) + 10000) / 20000)).
  { apply (round_Fin_div _ (255 * (100 * l - Cn)) 10000); try lia.
    unfold mq, Zminus.
    rewrite HC, !inject_Z_mult, inject_Z_plus, inject_Z_mult, inject_Z_opp.
    change (inject_Z 255) with 255. change (inject_Z 100) with 100.
    change (inject_Z 10000) with 10000. field. }
  assert (Emid : Num.round (Fin (255 * (Xq + mq)))
                 = Num.ofZ ((510 * (Cn * t + 30 * (100 * l - Cn)) + 300000)
                            / 600000)).
  { apply (round_Fin_div _ (255 * (Cn * t + 30 * (100 * l - Cn))) 300000);
      try lia.
    unfold mq, Zminus.
    rewrite HX, HC, !inject_Z_mult, !inject_Z_plus, !inject_Z_mult,
      inject_Z_plus, inject_Z_opp, inject_Z_mult.
    change (inject_Z 255) with 255. change (inject_Z 100) with 100.
    change (inject_Z 30) with 30. change (inject_Z 300000) with 300000.
    field. }
  (* the sector *)
  assert (Hlt : forall k : Z,
             (Fin (hueq / 60) <? Fin (inject_Z k))%num = (hm <? 60 * k)%Z).
  { intros k. destruct (Z.ltb_spec hm (60 * k)) as [Hk | Hk].
    - apply ltb_Fin_true. apply Qlt_shift_div_r; [reflexivity |].
      rewrite Hhue. change 60 with (inject_Z 60).
      rewrite <- inject_Z_mult, <- Zlt_Qlt. lia.
    - apply ltb_Fin_false. apply Qle_shift_div_l; [reflexivity |].
      rewrite Hhue. change 60 with (inject_Z 60).
      rewrite <- inject_Z_mult, <- Zle_Qle. lia. }
  change (Fin 1) with (Fin (inject_Z 1)) at 1.
  change (Fin 2) with (Fin (inject_Z 2)) at 1.
  change (Fin 3) with (Fin (inject_Z 3)).
  change (Fin 4) with (Fin (inject_Z 4)).
  change (Fin 5) with (Fin (inject_Z 5)).
  rewrite !Hlt.
  change (60 * 1)%Z with 60%Z. change (60 * 2)%Z with 120%Z.
  change (60 * 3)%Z with 180%Z. change (60 * 4)%Z with 240%Z.
  change (60 * 5)%Z with 300%Z.
  destruct (hm <? 60)%Z; [sector |].
  destruct (hm <? 120)%Z; [sector |].
  destruct (hm <? 180)%Z; [sector |].
  destruct (hm <? 240)%Z; [sector |].
  destruct (hm <? 300)%Z; sector.
Qed.

Lemma HSLToHSB_Z_range (h s l : Z) :
  (0 <= s <= 100)%Z -> (0 <= l <= 100)%Z ->
  let '(_, s', b') := HSLToHSB_Z h s l in
  (0 <= s' <= 100 /\ 0 <= b' <= 100)%Z.
Proof.
  intros Hs Hl.
  pose proof (HSLToHSB_ofZ h s l Hs Hl) as E.
  destruct (HSLToHSB_range (Fin (inject_Z h / 60)) _ _
              (percent_unit s Hs) (percent_unit l Hl))
    as (s0 & b0 & Es & Eb & Hs0 & Hb0).
  change (Fin (inject_Z s / 100)) with (Num.ofZ s / Fin 100)%num in Es, Eb.
  change (Fin (inject_Z l / 100)) with (Num.ofZ l / Fin 100)%num in Es, Eb.
  change (Fin (inject_Z h / 60)) with (Num.ofZ h / Fin 60)%num in Es, Eb.
  rewrite E in Es, Eb.
  destruct (HSLToHSB_Z h s l) as [[h' s'] b'].
  cbn [Hsb.s Hsb.b] in Es, Eb.
  apply ofZ_inj in Es, Eb. subst. auto.
Qed.

Lemma HSBToHSL_Z_range (h s b : Z) :
  (0 <= s <= 100)%Z -> (0 <= b <= 100)%Z ->
  let '(_, s', l') := HSBToHSL_Z h s b in
  (0 <= s' <= 100 /\ 0 <= l' <= 100)%Z.
Proof.
  intros Hs Hb.
  pose proof (HSBToHSL_ofZ h s b Hs Hb) as E.
  pose proof (HSBToHSL_cases (Fin (inject_Z h / 60)) _ _
                (percent_unit s Hs) (percent_unit b Hb)) as Hcases.
  cbv zeta in Hcases.
  change (Fin (inject_Z s / 100)) with (Num.ofZ s / Fin 100)%num in Hcases.
  change (Fin (inject_Z b / 100)) with (Num.ofZ b / Fin 100)%num in Hcases.
  change (Fin (inject_Z h / 60)) with (Num.ofZ h / Fin 60)%num in Hcases.
  destruct (HSBToHSL_Z h s b) as [[h' s'] l'].
  destruct E as (hq & _ & E). rewrite E in Hcases.
  destruct Hcases as [(_ & _ & [= _ Es El]) | [(_ & _ & [= _ Es El])
                      | (_ & s0 & l0 & [= _ Es El] & Hs0 & Hl0)]].
  - lia.
  - lia.
  - lia.
Qed.

(** The round trip of the model computes what [roundTrip_Z] computes. *)
Lemma roundTrip_ofZ (r g b : Z) :
  (0 <= r <= 255)%Z -> (0 <= g <= 255)%Z -> (0 <= b <= 255)%Z ->
  ColorConvert.roundTrip (Num.ofZ r) (Num.ofZ g) (Num.ofZ b)
  = let '(r', g', b') := roundTrip_Z r g b in
    {| Rgb.r := Num.ofZ r'; Rgb.g := Num.ofZ g'; Rgb.b := Num.ofZ b' |}.
Proof.
  intros Hr Hg Hb. unfold ColorConvert.roundTrip, roundTrip_Z.
  rewrite (RGBtoHSL_ofZ r g b Hr Hg Hb).
  pose proof (RGBtoHSL_Z_range r g b Hr Hg Hb) as H1.
  destruct (RGBtoHSL_Z r g b) as [[h1 s1] l1].
  destruct H1 as (_ & Hs1 & Hl1). cbn [Hsl.h Hsl.s Hsl.l].
  rewrite (HSLToHSB_ofZ h1 s1 l1 Hs1 Hl1).
  pose proof (HSLToHSB_Z_range h1 s1 l1 Hs1 Hl1) as H2.
  destruct (HSLToHSB_Z h1 s1 l1) as [[h2 s2] b2].
  destruct H2 as (Hs2 & Hb2). cbn [Hsb.h Hsb.s Hsb.b].
  pose proof (HSBToHSL_ofZ h2 s2 b2 Hs2 Hb2) as E3.
  pose proof (HSBToHSL_Z_range h2 s2 b2 Hs2 Hb2) as H3.
  destruct (HSBToHSL_Z h2 s2 b2) as [[h3 s3] l3].
  destruct E3 as (hq & Hhq & E3). destruct H3 as (Hs3 & Hl3).
  rewrite E3. cbn [Hsl.h Hsl.s Hsl.l].
  apply HSLtoRGB_ofZ; assumption.
Qed.

End RoundTripIntegers.

(** ** The round trip on machine integers agrees with the integers *)

Section MachineIntegers.

Import Uint63 ZifyUint63 Channels63.
Local Open Scope uint63_scope.

Lemma add63_spec (a b : int) (x y z : Z) :
  to_Z a = x -> to_Z b = y -> small (x + y) -> (x + y)%Z = z -> to_Z (a + b) = z.
Proof.
  intros <- <- Hs <-. rewrite add_spec. apply Z.mod_small.
  unfold small in Hs. change wB with 9223372036854775808%Z. lia.
Qed.

Lemma sub63_spec (a b : int) (x y z : Z) :
  to_Z a = x -> to_Z b = y -> (0 <= y <= x)%Z -> (x - y)%Z = z ->
  to_Z (a - b) = z.
Proof.
  intros <- <- Hs <-. rewrite sub_spec. apply Z.mod_small.
  pose proof (to_Z_bounded a). change wB with 9223372036854775808%Z in *. lia.
Qed.

Lemma mul63_spec (a b : int) (x y z : Z) :
  to_Z a = x -> to_Z b = y -> small (x * y) -> (x * y)%Z = z -> to_Z (a * b) = z.
Proof.
  intros <- <- Hs <-. rewrite mul_spec. apply Z.mod_small.
  unfold small in Hs. change wB with 9223372036854775808%Z. lia.
Qed.

Lemma div63_spec (a b : int) (x y z : Z) :
  to_Z a = x -> to_Z b = y -> (x / y)%Z = z -> to_Z (a / b) = z.
Proof. intros <- <- <-. apply div_spec. Qed.

Lemma mod63_spec (a b : int) (x y z : Z) :
  to_Z a = x -> to_Z b = y -> (x mod y)%Z = z -> to_Z (a mod b) = z.
Proof. intros <- <- <-. apply mod_spec. Qed.

Lemma eqb63_spec (a b : int) (x y : Z) :
  to_Z a = x -> to_Z b = y -> (a =? b) = (x =? y)%Z.
Proof. intros <- <-. apply eqb_eq. Qed.

Lemma ltb63_spec (a b : int) (x y : Z) :
  to_Z a = x -> to_Z b = y -> (a <? b) = (x <? y)%Z.
Proof. intros <- <-. apply ltb_lt. Qed.

Lemma leb63_spec (a b : int) (x y : Z) :
  to_Z a = x -> to_Z b = y -> (a <=? b) = (x <=? y)%Z.
Proof. intros <- <-. apply leb_le. Qed.

(** [to_Z e = ?z] for an expression [e] built from sums, differences,
    products, quotients and remainders of known values: the side conditions
    (no wrap-around) are left as goals on integers. *)
Ltac to_Z_of :=
  lazymatch goal with
  | |- to_Z (?a + ?b) = _ =>
      eapply add63_spec; [to_Z_of | to_Z_of | | reflexivity]
  | |- to_Z (?a - ?b) = _ =>
      eapply sub63_spec; [to_Z_of | to_Z_of | | reflexivity]
  | |- to_Z (?a * ?b) = _ =>
      eapply mul63_spec; [to_Z_of | to_Z_of | | reflexivity]
  | |- to_Z (?a / ?b) = _ =>
      eapply div63_spec; [to_Z_of | to_Z_of | reflexivity]
  | |- to_Z (?a mod ?b) = _ =>
      eapply mod63_spec; [to_Z_of | to_Z_of | reflexivity]
  | |- to_Z ?a = _ => first [eassumption | reflexivity]
  end.

Ltac to_Z_eq := etransitivity; [to_Z_of; unfold small | ].

Lemma max63_spec (a b : int) (x y : Z) :
  to_Z a = x -> to_Z b = y -> to_Z (max63 a b) = Z.max x y.
Proof.
  intros Ha Hb. unfold max63. rewrite (ltb63_spec a b x y Ha Hb).
  destruct (Z.ltb_spec x y); [rewrite Z.max_r | rewrite Z.max_l]; lia.
Qed.

Lemma min63_spec (a b : int) (x y : Z) :
  to_Z a = x -> to_Z b = y -> to_Z (min63 a b) = Z.min x y.
Proof.
  intros Ha Hb. unfold min63. rewrite (ltb63_spec b a y x Hb Ha).
  destruct (Z.ltb_spec y x); [rewrite Z.min_r | rewrite Z.min_l]; lia.
Qed.

Lemma fold63_spec (l : int) (lz : Z) :
  to_Z l = lz -> (0 <= lz <= 100)%Z ->
  to_Z (fold63 l) = (50 - Z.abs (lz - 50))%Z.
Proof.
  intros Hl Hlz. unfold fold63.
  rewrite (ltb63_spec l 50 lz 50 Hl eq_refl).
  destruct (Z.ltb_spec lz 50).
  - lia.
  - to_Z_eq; lia.
Qed.

Lemma RGBtoHSL_63_spec (r g b : int) (rz gz bz : Z) :
  to_Z r = rz -> to_Z g = gz -> to_Z b = bz ->
  (0 <= rz <= 255)%Z -> (0 <= gz <= 255)%Z -> (0 <= bz <= 255)%Z ->
  let '(hs, s, l) := RGBtoHSL_63 r g b in
  let '(hz, sz, lz) := RGBtoHSL_Z rz gz bz in
  (to_Z hs = hz + 360 /\ to_Z s = sz /\ to_Z l = lz)%Z.
Proof.
  intros Er Eg Eb Hr Hg Hb. unfold RGBtoHSL_63, RGBtoHSL_Z, hue63.
  pose proof (max63_spec _ _ _ _ (max63_spec _ _ _ _ Er Eg) Eb) as EM.
  pose proof (min63_spec _ _ _ _ (min63_spec _ _ _ _ Er Eg) Eb) as Em.
  set (M := max63 (max63 r g) b) in *. set (m := min63 (min63 r g) b) in *.
  set (MZ := Z.max (Z.max rz gz) bz) in *.
  set (mZ := Z.min (Z.min rz gz) bz) in *.
  assert (HM : (mZ <= MZ /\ 0 <= mZ /\ MZ <= 255 /\ mZ <= rz <= MZ
                /\ mZ <= gz <= MZ /\ mZ <= bz <= MZ)%Z) by lia.
  clearbody M m MZ mZ.
  assert (Ed : to_Z (M - m) = (MZ - mZ)%Z) by (to_Z_eq; lia).
  set (d := M - m) in *. clearbody d.
  assert (El : to_Z ((20 * (M + m) + 51) / 102)
               = ((20 * (MZ + mZ) + 51) / 102)%Z) by (to_Z_eq; lia).
  rewrite (eqb63_spec M m MZ mZ EM Em).
  destruct (Z.eqb_spec MZ mZ) as [E' | E'].
  - repeat split; try reflexivity. exact El.
  - set (D := if M + m <? 255 then M + m else 510 - M - m).
    set (DZ := if (MZ + mZ <? 255)%Z then (MZ + mZ)%Z else (510 - MZ - mZ)%Z).
    assert (ES : to_Z (M + m) = (MZ + mZ)%Z) by (to_Z_eq; lia).
    assert (ED : to_Z D = DZ).
    { unfold D, DZ. rewrite (ltb63_spec (M + m) 255 _ 255 ES eq_refl).
      destruct (Z.ltb_spec (MZ + mZ) 255); [exact ES | to_Z_eq; lia]. }
    assert (HD : (0 < DZ <= 510)%Z)
      by (unfold DZ; destruct (Z.ltb_spec (MZ + mZ) 255); lia).
    clearbody D DZ.
    split; [| split; [| exact El]].
    + rewrite (eqb63_spec M r MZ rz EM Er), (eqb63_spec M g MZ gz EM Eg).
      destruct (Z.eqb_spec MZ rz); [| destruct (Z.eqb_spec MZ gz)].
      * to_Z_eq; try lia.
        rewrite <- (Z.div_add _ 360) by lia. f_equal; lia.
      * to_Z_eq; try lia.
        split; [apply Z.add_nonneg_nonneg; [apply Z.div_pos |]; lia |].
        enough ((120 * (2 * (MZ - mZ) + bz - rz) + (MZ - mZ))
                / (2 * (MZ - mZ)) < 1000)%Z by lia.
        apply Z.div_lt_upper_bound; lia.
        f_equal. f_equal; lia.
      * to_Z_eq; try lia.
        split; [apply Z.add_nonneg_nonneg; [apply Z.div_pos |]; lia |].
        enough ((120 * (4 * (MZ - mZ) + rz - gz) + (MZ - mZ))
                / (2 * (MZ - mZ)) < 1000)%Z by lia.
        apply Z.div_lt_upper_bound; lia.
        f_equal. f_equal; lia.
    + to_Z_eq; try lia.
Qed.

Lemma HSLToHSB_63_spec (hs s l : int) (hz sz lz : Z) :
  to_Z hs = (hz + 360)%Z -> to_Z s = sz -> to_Z l = lz ->
  (0 <= sz <= 100)%Z -> (0 <= lz <= 100)%Z ->
  let '(hs', s', b') := HSLToHSB_63 hs s l in
  let '(hz', sz', bz') := HSLToHSB_Z hz sz lz in
  (to_Z hs' = hz' + 360 /\ to_Z s' = sz' /\ to_Z b' = bz')%Z.
Proof.
  intros Eh Es El Hs Hl. unfold HSLToHSB_63, HSLToHSB_Z.
  pose proof (fold63_spec l lz El Hl) as Ef.
  set (f := fold63 l) in *. set (fz := (50 - Z.abs (lz - 50))%Z) in *.
  assert (Hf : (0 <= fz <= 50)%Z) by lia.
  clearbody f fz.
  assert (Ew : to_Z (s * f) = (sz * fz)%Z) by (to_Z_eq; nia).
  set (w := s * f) in *. clearbody w.
  assert (Hw : (0 <= sz * fz <= 5000)%Z) by nia.
  set (wz := (sz * fz)%Z) in *. clearbody wz.
  assert (EN : to_Z (100 * l + w) = (100 * lz + wz)%Z) by (to_Z_eq; lia).
  set (N := 100 * l + w) in *. clearbody N.
  set (Nz := (100 * lz + wz)%Z) in *.
  assert (HN : (0 <= Nz <= 15000)%Z) by lia.
  rewrite (eqb63_spec N 0 Nz 0 EN eq_refl).
  destruct (Z.eqb_spec Nz 0) as [E0 | E0].
  - repeat split; reflexivity.
  - split; [exact Eh |]. split.
    + to_Z_eq; try lia. f_equal; lia.
    + to_Z_eq; try lia.
Qed.

Lemma HSBToHSL_63_spec (hs s b : int) (hz sz bz : Z) :
  to_Z hs = (hz + 360)%Z -> to_Z s = sz -> to_Z b = bz ->
  (0 <= sz <= 100)%Z -> (0 <= bz <= 100)%Z ->
  let '(hs', s', l') := HSBToHSL_63 hs s b in
  let '(hz', sz', lz') := HSBToHSL_Z hz sz bz in
  (to_Z hs' = hz' + 360 /\ to_Z s' = sz' /\ to_Z l' = lz')%Z.
Proof.
  intros Eh Es Eb Hs Hb. unfold HSBToHSL_63, HSBToHSL_Z.
  assert (EP : to_Z (b * (200 - s)) = (bz * (200 - sz))%Z) by (to_Z_eq; nia).
  set (P := b * (200 - s)) in *. clearbody P.
  assert (HP : (0 <= bz * (200 - sz) <= 20000)%Z) by nia.
  set (Pz := (bz * (200 - sz))%Z) in *. clearbody Pz.
  assert (ED : to_Z (if P <? 10000 then P else 20000 - P)
               = (10000 - Z.abs (Pz - 10000))%Z).
  { rewrite (ltb63_spec P 10000 Pz 10000 EP eq_refl).
    destruct (Z.ltb_spec Pz 10000); [lia | to_Z_eq; lia]. }
  set (Dn := if P <? 10000 then P else 20000 - P) in *. clearbody Dn.
  set (Dz := (10000 - Z.abs (Pz - 10000))%Z) in *.
  assert (HD : (0 <= Dz <= 10000)%Z) by lia.
  clearbody Dz.
  rewrite (eqb63_spec Dn 0 Dz 0 ED eq_refl).
  rewrite (eqb63_spec b 100 bz 100 Eb eq_refl).
  destruct (Z.eqb_spec Dz 0) as [E0 | E0].
  - destruct (Z.eqb_spec bz 100); repeat split; auto.
  - assert (Ebs : to_Z (b * s) = (bz * sz)%Z) by (to_Z_eq; nia).
    assert (Hbs : (0 <= bz * sz <= 10000)%Z) by nia.
    set (q := b * s) in *. set (qz := (bz * sz)%Z) in *. clearbody q qz.
    split; [exact Eh |]. split.
    + to_Z_eq; try lia.
    + to_Z_eq; try lia.
Qed.

Lemma HSLtoRGB_63_spec (hs s l : int) (hz sz lz : Z) :
  to_Z hs = (hz + 360)%Z -> to_Z s = sz -> to_Z l = lz ->
  (0 <= sz <= 100)%Z -> (0 <= lz <= 100)%Z ->
  let '(r, g, b) := HSLtoRGB_63 hs s l in
  let '(rz, gz, bz) := HSLtoRGB_Z hz sz lz in
  (to_Z r = rz /\ to_Z g = gz /\ to_Z b = bz)%Z.
Proof.
  intros Eh Es El Hs Hl. unfold HSLtoRGB_63, HSLtoRGB_Z.
  pose proof (fold63_spec l lz El Hl) as Ef.
  set (f := fold63 l) in *. set (fz := (50 - Z.abs (lz - 50))%Z) in *.
  assert (Hf : (0 <= fz <= 50 /\ fz <= lz)%Z) by lia.
  clearbody f fz.
  assert (EC : to_Z (s * f) = (sz * fz)%Z) by (to_Z_eq; nia).
  assert (HC : (0 <= sz * fz <= 5000 /\ sz * fz <= 100 * lz)%Z) by nia.
  set (Cn := s * f) in *. set (Cz := (sz * fz)%Z) in *. clearbody Cn Cz.
  assert (Ehm : to_Z (hs mod 360) = (hz mod 360)%Z).
  { to_Z_eq. exact (Z_mod_plus_full hz 1 360). }
  set (hm := hs mod 360) in *. set (hmz := (hz mod 360)%Z) in *.
  assert (Hhm : (0 <= hmz < 360)%Z) by (apply Z.mod_pos_bound; lia).
  clearbody hm hmz.
  assert (Eu : to_Z (hm mod 120) = (hmz mod 120)%Z) by (to_Z_eq; reflexivity).
  set (u := hm mod 120) in *. set (uz := (hmz mod 120)%Z) in *.
  assert (Hu : (0 <= uz < 120)%Z) by (apply Z.mod_pos_bound; lia).
  clearbody u uz.
  assert (Et : to_Z (if u <? 60 then u else 120 - u)
               = (60 - Z.abs (uz - 60))%Z).
  { rewrite (ltb63_spec u 60 uz 60 Eu eq_refl).
    destruct (Z.ltb_spec uz 60); [lia | to_Z_eq; lia]. }
  set (t := if u <? 60 then u else 120 - u) in *.
  set (tz := (60 - Z.abs (uz - 60))%Z) in *.
  assert (Ht : (0 <= tz <= 60)%Z) by lia.
  clearbody t tz.
  assert (ECt : to_Z (Cn * t) = (Cz * tz)%Z) by (to_Z_eq; nia).
  assert (HCt : (0 <= Cz * tz <= 300000)%Z) by nia.
  set (Ct := Cn * t) in *. set (Ctz := (Cz * tz)%Z) in *. clearbody Ct Ctz.
  assert (Ehi : to_Z ((510 * (100 * l + Cn) + 10000) / 20000)
                = ((510 * (100 * lz + Cz) + 10000) / 20000)%Z)
    by (to_Z_eq; lia).
  assert (Elo : to_Z ((510 * (100 * l - Cn) + 10000) / 20000)
                = ((510 * (100 * lz - Cz) + 10000) / 20000)%Z)
    by (to_Z_eq; lia).
  assert (Emid : to_Z ((510 * (Ct + 30 * (100 * l - Cn)) + 300000) / 600000)
                 = ((510 * (Ctz + 30 * (100 * lz - Cz)) + 300000) / 600000)%Z)
    by (to_Z_eq; lia).
  rewrite (ltb63_spec hm 60 hmz 60 Ehm eq_refl),
    (ltb63_spec hm 120 hmz 120 Ehm eq_refl),
    (ltb63_spec hm 180 hmz 180 Ehm eq_refl),
    (ltb63_spec hm 240 hmz 240 Ehm eq_refl),
    (ltb63_spec hm 300 hmz 300 Ehm eq_refl).
  destruct (hmz <? 60)%Z; [auto |].
  destruct (hmz <? 120)%Z; [auto |].
  destruct (hmz <? 180)%Z; [auto |].
  destruct (hmz <? 240)%Z; [auto |].
  destruct (hmz <? 300)%Z; auto.
Qed.

Lemma roundTrip_63_spec (r g b : int) (rz gz bz : Z) :
  to_Z r = rz -> to_Z g = gz -> to_Z b = bz ->
  (0 <= rz <= 255)%Z -> (0 <= gz <= 255)%Z -> (0 <= bz <= 255)%Z ->
  let '(r', g', b') := roundTrip_63 r g b in
  let '(rz', gz', bz') := roundTrip_Z rz gz bz in
  (to_Z r' = rz' /\ to_Z g' = gz' /\ to_Z b' = bz')%Z.
Proof.
  intros Er Eg Eb Hr Hg Hb. unfold roundTrip_63, roundTrip_Z.
  pose proof (RGBtoHSL_63_spec r g b rz gz bz Er Eg Eb Hr Hg Hb) as H1.
  pose proof (RGBtoHSL_Z_range rz gz bz Hr Hg Hb) as R1.
  destruct (RGBtoHSL_63 r g b) as [[h1 s1] l1].
  destruct (RGBtoHSL_Z rz gz bz) as [[h1z s1z] l1z].
  destruct H1 as (Eh1 & Es1 & El1). destruct R1 as (_ & Hs1 & Hl1).
  pose proof (HSLToHSB_63_spec h1 s1 l1 h1z s1z l1z Eh1 Es1 El1 Hs1 Hl1) as H2.
  pose proof (HSLToHSB_Z_range h1z s1z l1z Hs1 Hl1) as R2.
  destruct (HSLToHSB_63 h1 s1 l1) as [[h2 s2] b2].
  destruct (HSLToHSB_Z h1z s1z l1z) as [[h2z s2z] b2z].
  destruct H2 as (Eh2 & Es2 & Eb2). destruct R2 as (Hs2 & Hb2).
  pose proof (HSBToHSL_63_spec h2 s2 b2 h2z s2z b2z Eh2 Es2 Eb2 Hs2 Hb2) as H3.
  pose proof (HSBToHSL_Z_range h2z s2z b2z Hs2 Hb2) as R3.
  destruct (HSBToHSL_63 h2 s2 b2) as [[h3 s3] l3].
  destruct (HSBToHSL_Z h2z s2z b2z) as [[h3z s3z] l3z].
  destruct H3 as (Eh3 & Es3 & El3). destruct R3 as (Hs3 & Hl3).
  exact (HSLtoRGB_63_spec h3 s3 l3 h3z s3z l3z Eh3 Es3 El3 Hs3 Hl3).
Qed.

Lemma near63_spec (k x y : int) (kz xz yz : Z) :
  to_Z k = kz -> to_Z x = xz -> to_Z y = yz ->
  near63 k x y = true -> (Z.abs (yz - xz) <= kz)%Z.
Proof.
  intros Ek Ex Ey. unfold near63.
  rewrite (leb63_spec x y xz yz Ex Ey).
  pose proof (to_Z_bounded x) as Bx. pose proof (to_Z_bounded y) as By.
  rewrite Ex in Bx. rewrite Ey in By.
  destruct (Z.leb_spec xz yz) as [Hle | Hgt].
  - assert (E : to_Z (y - x) = (yz - xz)%Z) by (to_Z_eq; lia).
    rewrite (leb63_spec (y - x) k _ kz E Ek). intros H%Z.leb_le. lia.
  - assert (E : to_Z (x - y) = (xz - yz)%Z) by (to_Z_eq; lia).
    rewrite (leb63_spec (x - y) k _ kz E Ek). intros H%Z.leb_le. lia.
Qed.

Lemma within63_spec (k r g b : int) (kz rz gz bz : Z) :
  to_Z k = kz -> to_Z r = rz -> to_Z g = gz -> to_Z b = bz ->
  (0 <= rz <= 255)%Z -> (0 <= gz <= 255)%Z -> (0 <= bz <= 255)%Z ->
  within63 k r g b = true ->
  let '(rz', gz', bz') := roundTrip_Z rz gz bz in
  (Z.abs (rz' - rz) <= kz /\ Z.abs (gz' - gz) <= kz
   /\ Z.abs (bz' - bz) <= kz)%Z.
Proof.
  intros Ek Er Eg Eb Hr Hg Hb. unfold within63.
  pose proof (roundTrip_63_spec r g b rz gz bz Er Eg Eb Hr Hg Hb) as Hrt.
  destruct (roundTrip_63 r g b) as [[r' g'] b'].
  destruct (roundTrip_Z rz gz bz) as [[rz' gz'] bz'].
  destruct Hrt as (Er' & Eg' & Eb').
  intros H. apply andb_prop in H. destruct H as [H Hb'].
  apply andb_prop in H. destruct H as [Hr' Hg'].
  repeat split.
  - exact (near63_spec k r r' kz rz rz' Ek Er Er' Hr').
  - exact (near63_spec k g g' kz gz gz' Ek Eg Eg' Hg').
  - exact (near63_spec k b b' kz bz bz' Ek Eb Eb' Hb').
Qed.

Lemma all_from_spec (n : nat) (f : int -> bool) (i : int) (z : Z) :
  all_from n f i = true ->
  (to_Z i + Z.of_nat n < 4611686018427387904)%Z ->
  (to_Z i <= z < to_Z i + Z.of_nat n)%Z ->
  f (of_Z z) = true.
Proof.
  revert i. induction n as [| n IH]; intros i Hall Hsmall Hz; [lia |].
  cbn [all_from] in Hall. destruct (f i) eqn:Hfi; [| discriminate].
  pose proof (to_Z_bounded i) as Bi.
  assert (Ei : to_Z (i + 1) = (to_Z i + 1)%Z) by (to_Z_eq; lia).
  destruct (Z.eq_dec z (to_Z i)) as [-> | Hne].
  - rewrite of_to_Z. exact Hfi.
  - apply (IH (i + 1)); [exact Hall | lia | lia].
Qed.

Lemma all_channels_spec (f : int -> bool) (z : Z) :
  all_channels f = true -> (0 <= z <= 255)%Z -> f (of_Z z) = true.
Proof.
  intros Hall Hz. apply (all_from_spec 256 f 0 z Hall).
  - change (to_Z 0) with 0%Z. lia.
  - change (to_Z 0) with 0%Z. lia.
Qed.

Lemma to_Z_of_Z (z : Z) : (0 <= z <= 255)%Z -> to_Z (of_Z z) = z.
Proof.
  intros Hz. rewrite of_Z_spec. apply Z.mod_small.
  change wB with 9223372036854775808%Z. lia.
Qed.

Lemma all_within_8 :
  all_channels
    (fun r => all_channels (fun g => all_channels (fun b => within63 8 r g b)))
  = true.
Proof. vm_compute. reflexivity. Qed.

Lemma roundTrip_Z_within_8 (r g b : Z) :
  (0 <= r <= 255)%Z -> (0 <= g <= 255)%Z -> (0 <= b <= 255)%Z ->
  let '(r', g', b') := roundTrip_Z r g b in
  (Z.abs (r' - r) <= 8 /\ Z.abs (g' - g) <= 8 /\ Z.abs (b' - b) <= 8)%Z.
Proof.
  intros Hr Hg Hb.
  apply (within63_spec 8 (of_Z r) (of_Z g) (of_Z b) 8 r g b eq_refl
           (to_Z_of_Z r Hr) (to_Z_of_Z g Hg) (to_Z_of_Z b Hb) Hr Hg Hb).
  apply (all_channels_spec (fun b' => within63 8 (of_Z r) (of_Z g) b') b);
    [| exact Hb].
  apply (all_channels_spec
           (fun g' => all_channels (fun b' => within63 8 (of_Z r) g' b')) g);
    [| exact Hg].
  apply (all_channels_spec
           (fun r' => all_channels
                        (fun g' => all_channels (fun b' => within63 8 r' g' b')))
           r); [| exact Hr].
  exact all_within_8.
Qed.

End MachineIntegers.

(** ** The round trip *)

(** C2, as the code has it. For every integer triple in [0, 255]^3 the round
    trip [RGBtoHSL], [HSLToHSB], [HSBToHSL] and back to RGB returns integer
    channels within 8 of the triple on each channel. *)
Theorem round_trip_within_8 (r g b : Z) :
  (0 <= r <= 255)%Z -> (0 <= g <= 255)%Z -> (0 <= b <= 255)%Z ->
  exists r' g' b' : Z,
    ColorConvert.roundTrip (Num.ofZ r) (Num.ofZ g) (Num.ofZ b)
    = {| Rgb.r := Num.ofZ r'; Rgb.g := Num.ofZ g'; Rgb.b := Num.ofZ b' |}
    /\ (Z.abs (r' - r) <= 8)%Z /\ (Z.abs (g' - g) <= 8)%Z
    /\ (Z.abs (b' - b) <= 8)%Z.
Proof.
  intros Hr Hg Hb.
  pose proof (roundTrip_ofZ r g b Hr Hg Hb) as E.
  pose proof (roundTrip_Z_within_8 r g b Hr Hg Hb) as Hnear.
  destruct (roundTrip_Z r g b) as [[r' g'] b'].
  exists r', g', b'. auto.
Qed.

Lemma round_trip_within_8_witness :
  (0 <= 4 <= 255)%Z /\ (0 <= 19 <= 255)%Z /\ (0 <= 254 <= 255)%Z
  /\ exists r' g' b' : Z,
       ColorConvert.roundTrip (Num.ofZ 4) (Num.ofZ 19) (Num.ofZ 254)
       = {| Rgb.r := Num.ofZ r'; Rgb.g := Num.ofZ g'; Rgb.b := Num.ofZ b' |}
       /\ (Z.abs (r' - 4) <= 8)%Z /\ (Z.abs (g' - 19) <= 8)%Z
       /\ (Z.abs (b' - 254) <= 8)%Z.
Proof.
  split; [lia |]. split; [lia |]. split; [lia |].
  apply (round_trip_within_8 4 19 254); lia.
Defined.

(** The bound is reached: the green channel of (4, 19, 254) comes back as
    27. *)
Example round_trip_off_by_8 :
  ColorConvert.roundTrip (Num.ofZ 4) (Num.ofZ 19) (Num.ofZ 254)
  = {| Rgb.r := Num.ofZ 10; Rgb.g := Num.ofZ 27; Rgb.b := Num.ofZ 255 |}.
Proof. vm_compute. reflexivity. Qed.

(** C2 fails as stated: (0, 0, 2) has lightness 0.39 percent, which rounds
    to 0, and comes back as black, 2 away on the blue channel. *)
Lemma round_trip_counterexample :
  ~ exists r' g' b' : Z,
      ColorConvert.roundTrip (Num.ofZ 0) (Num.ofZ 0) (Num.ofZ 2)
      = {| Rgb.r := Num.ofZ r'; Rgb.g := Num.ofZ g'; Rgb.b := Num.ofZ b' |}
      /\ (Z.abs (r' - 0) <= 1)%Z /\ (Z.abs (g' - 0) <= 1)%Z
      /\ (Z.abs (b' - 2) <= 1)%Z.
Proof.
  intros (r' & g' & b' & E & _ & _ & Hb).
  assert (Eb : Rgb.b (ColorConvert.roundTrip (Num.ofZ 0) (Num.ofZ 0)
                        (Num.ofZ 2)) = Num.ofZ 0)
    by (vm_compute; reflexivity).
  rewrite E in Eb. cbn [Rgb.b] in Eb. apply ofZ_inj in Eb. lia.
Qed.

(** * Further properties *)

(** ** Writing and reading hexadecimal *)

Section Hexadecimal.

Import ColorConvert HSLPicker.
Local Open Scope Z_scope.

Lemma small_cases (d : Z) (P : Z -> Prop) :
  0 <= d < 16 ->
  P 0 -> P 1 -> P 2 -> P 3 -> P 4 -> P 5 -> P 6 -> P 7 -> P 8 -> P 9 ->
  P 10 -> P 11 -> P 12 -> P 13 -> P 14 -> P 15 -> P d.
Proof.
  intros Hd. intros.
  assert (E : d = 0 \/ d = 1 \/ d = 2 \/ d = 3 \/ d = 4 \/ d = 5 \/ d = 6
              \/ d = 7 \/ d = 8 \/ d = 9 \/ d = 10 \/ d = 11 \/ d = 12
              \/ d = 13 \/ d = 14 \/ d = 15) by lia.
  repeat (destruct E as [-> | E]; [assumption |]). subst d. assumption.
Qed.

Lemma digitValue_digitChar (d : Z) :
  0 <= d < 16 -> digitValue (digitChar d) = Some d.
Proof. intros Hd. apply (small_cases d); [exact Hd | reflexivity ..]. Qed.

(** A digit that [toString] writes starts a number: no white space, no
    sign. *)
Lemma digitChar_plain (d : Z) (rest : string) :
  0 <= d < 16 ->
  stripSign (trimStart (String (digitChar d) rest))
  = (false, String (digitChar d) rest).
Proof. intros Hd. apply (small_cases d); [exact Hd | reflexivity ..]. Qed.

Lemma digitChar_no_prefix (d : Z) (rest : string) :
  0 < d < 16 ->
  stripPrefix (String (digitChar d) rest) = String (digitChar d) rest.
Proof.
  intros Hd.
  assert (H0 : 0 <= d < 16) by lia. revert Hd.
  apply (small_cases d); [exact H0 | try reflexivity ..]. lia.
Qed.

Lemma digits_step (a d : Z) (c : ascii) (rest : string) (acc : option Z) :
  digitValue c = Some d -> 0 <= d < 16 ->
  digits 16 acc (String c rest)
  = digits 16 (Some (match acc with Some a => a * 16 + d | None => d end))
      rest.
Proof.
  intros E Hd. cbn [digits]. rewrite E.
  destruct (d <? 16) eqn:Hlt; [reflexivity | lia].
Qed.

Lemma toDigits_S (fuel : nat) (n : Z) (acc : string) :
  toDigits (S fuel) n 16 acc
  = if n <? 16 then String (digitChar (n mod 16)) acc
    else toDigits fuel (n / 16) 16 (String (digitChar (n mod 16)) acc).
Proof. reflexivity. Qed.

(** Reading back what [toDigits] wrote, with fuel for every digit. *)
Lemma digits_toDigits (fuel : nat) (n : Z) (acc : string) :
  0 <= n < 16 ^ Z.of_nat (S fuel) ->
  digits 16 None (toDigits (S fuel) n 16 acc) = digits 16 (Some n) acc.
Proof.
  revert n acc. induction fuel as [| fuel IH]; intros n acc Hn.
  - change (16 ^ Z.of_nat 1) with 16 in Hn.
    rewrite toDigits_S. destruct (n <? 16) eqn:Hlt; [| lia].
    rewrite (digits_step 0 (n mod 16)).
    + rewrite Z.mod_small by lia. reflexivity.
    + apply digitValue_digitChar. apply Z.mod_pos_bound. lia.
    + apply Z.mod_pos_bound. lia.
  - rewrite toDigits_S.
    assert (Hm : 0 <= n mod 16 < 16) by (apply Z.mod_pos_bound; lia).
    destruct (n <? 16) eqn:Hlt.
    + rewrite (digits_step 0 (n mod 16));
        [| apply digitValue_digitChar; exact Hm | exact Hm].
      rewrite Z.mod_small by lia. reflexivity.
    + rewrite IH.
      * rewrite (digits_step 0 (n mod 16));
          [| apply digitValue_digitChar; exact Hm | exact Hm].
        f_equal. f_equal. pose proof (Z.div_mod n 16). lia.
      * rewrite Nat2Z.inj_succ, Z.pow_succ_r in Hn by lia.
        split; [apply Z.div_pos; lia |].
        apply Z.div_lt_upper_bound; lia.
Qed.

(** The first digit that [toDigits] writes: the number itself below 16,
    and no zero from 16 on. *)
Lemma toDigits_head (fuel : nat) (n : Z) (acc : string) :
  0 <= n < 16 ^ Z.of_nat (S fuel) ->
  exists d rest,
    toDigits (S fuel) n 16 acc = String (digitChar d) rest
    /\ 0 <= d < 16
    /\ (n < 16 -> d = n /\ rest = acc)
    /\ (16 <= n -> 0 < d).
Proof.
  revert n acc. induction fuel as [| fuel IH]; intros n acc Hn.
  - change (16 ^ Z.of_nat 1) with 16 in Hn.
    rewrite toDigits_S. destruct (n <? 16) eqn:Hlt; [| lia].
    exists (n mod 16), acc. rewrite Z.mod_small by lia.
    repeat split; lia.
  - rewrite toDigits_S.
    destruct (n <? 16) eqn:Hlt.
    + exists (n mod 16), acc. rewrite Z.mod_small by lia.
      repeat split; lia.
    + assert (Hq : 0 <= n / 16 < 16 ^ Z.of_nat (S fuel)).
      { rewrite Nat2Z.inj_succ, Z.pow_succ_r in Hn by lia.
        split; [apply Z.div_pos; lia |].
        apply Z.div_lt_upper_bound; lia. }
      destruct (IH (n / 16) (String (digitChar (n mod 16)) acc) Hq)
        as (d & rest & E & Hd & Hsmall & Hbig).
      exists d, rest. split; [exact E |]. split; [exact Hd |].
      split; [lia |]. intros _.
      assert (1 <= n / 16) by (apply Z.div_le_lower_bound; lia).
      destruct (Z.lt_ge_cases (n / 16) 16) as [Hs | Hb].
      * destruct (Hsmall Hs) as [-> _]. lia.
      * apply Hbig, Hb.
Qed.

Lemma enough_fuel (n : Z) :
  0 <= n -> 0 <= n < 16 ^ Z.of_nat (S (Z.to_nat (Z.log2 n))).
Proof.
  intros Hn. split; [exact Hn |].
  pose proof (Z.log2_nonneg n) as Hl.
  rewrite Nat2Z.inj_succ, Z2Nat.id by exact Hl.
  apply Z.lt_le_trans with (2 ^ Z.succ (Z.log2 n)).
  - destruct (Z.eq_dec n 0) as [-> | Hne]; [reflexivity |].
    apply Z.log2_spec. lia.
  - apply Z.pow_le_mono_l. lia.
Qed.

(** [parseInt] reads the digits of a non-negative integer back. *)
Lemma parse_magnitude (n : Z) :
  0 <= n ->
  let hex := toDigits (S (Z.to_nat (Z.log2 n))) n 16 EmptyString in
  stripSign (trimStart hex) = (false, hex)
  /\ digits 16 None (stripPrefix hex) = Some n.
Proof.
  intros Hn hex.
  pose proof (enough_fuel n Hn) as Hfuel.
  destruct (toDigits_head _ n EmptyString Hfuel)
    as (d & rest & E & Hd & Hsmall & Hbig).
  assert (Edigits : digits 16 None hex = Some n)
    by (unfold hex; rewrite digits_toDigits by exact Hfuel; reflexivity).
  unfold hex in *. rewrite E in *. split.
  - apply digitChar_plain, Hd.
  - destruct (Z.eq_dec d 0) as [-> | Hne].
    + destruct (Z.lt_ge_cases n 16) as [Hs | Hb].
      * destruct (Hsmall Hs) as [<- ->]. reflexivity.
      * specialize (Hbig Hb). lia.
    + rewrite digitChar_no_prefix by lia. exact Edigits.
Qed.

Lemma parseInt_toString (n : Z) : parseInt (toString n 16) 16 = Num.ofZ n.
Proof.
  unfold toString. destruct (n <? 0) eqn:Hneg.
  - destruct (parse_magnitude (- n)) as [Esign Edigits]; [lia |].
    cbv zeta in Esign, Edigits.
    unfold parseInt.
    change (trimStart (String "-" ?s)) with (String "-" s).
    cbn [stripSign]. cbn [Z.ltb Z.compare Pos.compare Pos.compare_cont orb
                          Z.eqb Pos.eqb].
    rewrite Edigits. f_equal. lia.
  - destruct (parse_magnitude n) as [Esign Edigits]; [lia |].
    cbv zeta in Esign, Edigits.
    unfold parseInt. rewrite Esign.
    cbn [Z.ltb Z.compare Pos.compare Pos.compare_cont orb Z.eqb Pos.eqb].
    rewrite Edigits. reflexivity.
Qed.

(** A zero in front of one character that [parseInt] reads as a number
    changes nothing. *)
Lemma parseInt_padded (c : ascii) (v : Z) :
  parseInt (String c EmptyString) 16 = Num.ofZ v ->
  parseInt (String "0" (String c EmptyString)) 16 = Num.ofZ v.
Proof.
  destruct c as [[] [] [] [] [] [] [] []]; vm_compute; intros E;
    try discriminate E; exact E.
Qed.

Lemma parseInt_toHex (val : Z) : parseInt (toHex val) 16 = Num.ofZ val.
Proof.
  pose proof (parseInt_toString val) as E. unfold toHex.
  destruct (toString val 16) as [| c [| c' rest]]; cbn [String.length Nat.eqb];
    try exact E.
  apply parseInt_padded, E.
Qed.

(** The two digits of a channel. *)
Lemma toHex_channel (val : Z) :
  Pixel.channel val ->
  toHex val
  = String (digitChar (val / 16))
      (String (digitChar (val mod 16)) EmptyString).
Proof.
  unfold Pixel.channel. intros Hv. unfold toHex, toString.
  destruct (val <? 0) eqn:Hneg; [lia |].
  destruct (Z.lt_ge_cases val 16) as [Hs | Hb].
  - rewrite toDigits_S. destruct (val <? 16) eqn:Hlt; [| lia].
    cbn [String.length Nat.eqb append].
    rewrite Z.div_small by lia. reflexivity.
  - assert (Hl : 1 <= Z.log2 val).
    { change 1 with (Z.log2 2). apply Z.log2_le_mono. lia. }
    destruct (Z.to_nat (Z.log2 val)) as [| k] eqn:Ek; [lia |].
    rewrite !toDigits_S. destruct (val <? 16) eqn:Hlt; [lia |].
    assert (Hq : 1 <= val / 16 < 16).
    { split; [apply Z.div_le_lower_bound; lia |].
      apply Z.div_lt_upper_bound; lia. }
    destruct (val / 16 <? 16) eqn:Hlt'; [| lia].
    rewrite (Z.mod_small (val / 16)) by lia. reflexivity.
Qed.

Lemma hexValue_spec (c : ascii) (d : Z) :
  hexValue c = Some d -> digitValue c = Some d /\ 0 <= d < 16.
Proof.
  unfold hexValue.
  destruct (digitValue c) as [d' |] eqn:E; [| discriminate].
  destruct (d' <? 16) eqn:Hlt; [| discriminate].
  intros [= <-]. split; [reflexivity |].
  unfold digitValue in E.
  destruct (_ && _) eqn:E1 in E;
    [| destruct (_ && _) eqn:E2 in E;
       [| destruct (_ && _) eqn:E3 in E; [| discriminate E]]];
    injection E as <-; lia.
Qed.

Lemma hexValue_digitChar (d : Z) :
  0 <= d < 16 -> hexValue (digitChar d) = Some d.
Proof. intros Hd. apply (small_cases d); [exact Hd | reflexivity ..]. Qed.

(** A hexadecimal digit starts a number (no white space, no sign), is no
    ['#'], and a pair of them is no ['0x'] prefix. *)
Lemma hexValue_plain (c : ascii) (d : Z) (rest : string) :
  hexValue c = Some d ->
  stripSign (trimStart (String c rest)) = (false, String c rest)
  /\ Ascii.eqb c "#" = false.
Proof.
  destruct c as [[] [] [] [] [] [] [] []]; intros E;
    try (vm_compute in E; discriminate E); split; reflexivity.
Qed.

Lemma hexValue_no_prefix (c1 c2 : ascii) (d1 d2 : Z) (rest : string) :
  hexValue c1 = Some d1 -> hexValue c2 = Some d2 ->
  stripPrefix (String c1 (String c2 rest)) = String c1 (String c2 rest).
Proof.
  intros E1 E2.
  destruct c1 as [[] [] [] [] [] [] [] []];
    try (vm_compute in E1; discriminate E1); try reflexivity.
  destruct c2 as [[] [] [] [] [] [] [] []];
    try (vm_compute in E2; discriminate E2); reflexivity.
Qed.

Lemma parseInt_pair (c1 c2 : ascii) (d1 d2 : Z) :
  hexValue c1 = Some d1 -> hexValue c2 = Some d2 ->
  parseInt (String c1 (String c2 EmptyString)) 16
  = Num.ofZ (16 * d1 + d2)
  /\ 0 <= 16 * d1 + d2 <= 255.
Proof.
  intros E1 E2.
  destruct (hexValue_spec _ _ E1) as [V1 H1].
  destruct (hexValue_spec _ _ E2) as [V2 H2].
  split; [| lia].
  unfold parseInt.
  rewrite (proj1 (hexValue_plain c1 d1 _ E1)).
  cbn [Z.ltb Z.compare Pos.compare Pos.compare_cont orb Z.eqb Pos.eqb].
  rewrite (hexValue_no_prefix c1 c2 d1 d2 _ E1 E2).
  rewrite (digits_step 0 d1) by assumption.
  rewrite (digits_step 0 d2) by assumption.
  cbn [digits]. f_equal. lia.
Qed.

Lemma substring_none (str : string) : String.substring 0 0 str = EmptyString.
Proof. destruct str; reflexivity. Qed.

Lemma replace_hexadecimal (c : ascii) (d : Z) (rest : string) :
  hexValue c = Some d ->
  replace (String c rest) "#" = String c (replace rest "#").
Proof.
  intros E. cbn [replace]. rewrite (proj2 (hexValue_plain c d rest E)).
  reflexivity.
Qed.

End Hexadecimal.

(** X1. [HexToRGB] reads back what [getHex] writes: for a pixel with
    channels from 0 to 255, [getHex] is ['#'] and six characters,
    [HexToRGB] of it has the channels of the pixel, and [setColorHex] of it
    is [setColor] of the pixel. *)
Theorem HexToRGB_getHex (this : HSLPicker.t) (rgb : Pixel.t) :
  Pixel.wf rgb ->
  String.length (HSLPicker.getHex rgb) = 7%nat
  /\ ColorConvert.HexToRGB (HSLPicker.getHex rgb)
     = {| Rgb.r := Num.ofZ (Pixel.r rgb);
          Rgb.g := Num.ofZ (Pixel.g rgb);
          Rgb.b := Num.ofZ (Pixel.b rgb) |}
  /\ HSLPicker.setColorHex this (HSLPicker.getHex rgb)
     = HSLPicker.setColor this (Num.ofZ (Pixel.r rgb))
         (Num.ofZ (Pixel.g rgb)) (Num.ofZ (Pixel.b rgb)).
Proof.
  intros (Hr & Hg & Hb).
  cut (String.length (HSLPicker.getHex rgb) = 7%nat
       /\ ColorConvert.HexToRGB (HSLPicker.getHex rgb)
          = {| Rgb.r := Num.ofZ (Pixel.r rgb);
               Rgb.g := Num.ofZ (Pixel.g rgb);
               Rgb.b := Num.ofZ (Pixel.b rgb) |}).
  { intros [Hlen E]. split; [exact Hlen |]. split; [exact E |].
    unfold HSLPicker.setColorHex. rewrite E. reflexivity. }
  unfold HSLPicker.getHex.
  rewrite !toHex_channel by assumption.
  split; [reflexivity |].
  unfold Pixel.channel in *.
  assert (Hpair : forall v : Z,
             (0 <= v <= 255)%Z ->
             ColorConvert.parseInt
               (String (HSLPicker.digitChar (v / 16))
                  (String (HSLPicker.digitChar (v mod 16)) EmptyString)) 16
             = Num.ofZ v).
  { intros v Hv.
    assert (Hq : (0 <= v / 16 < 16)%Z).
    { split; [apply Z.div_pos; lia | apply Z.div_lt_upper_bound; lia]. }
    assert (Hm : (0 <= v mod 16 < 16)%Z) by (apply Z.mod_pos_bound; lia).
    destruct (parseInt_pair _ _ _ _ (hexValue_digitChar _ Hq)
                (hexValue_digitChar _ Hm)) as [-> _].
    f_equal. pose proof (Z.div_mod v 16). lia. }
  unfold ColorConvert.HexToRGB.
  cbn [append ColorConvert.replace Ascii.eqb Bool.eqb ColorConvert.substring
       Nat.min Nat.max Nat.sub String.substring].
  rewrite !Hpair by assumption. reflexivity.
Qed.

Lemma HexToRGB_getHex_witness :
  let rgb := {| Pixel.r := 1; Pixel.g := 171; Pixel.b := 255 |} in
  Pixel.wf rgb
  /\ String.length (HSLPicker.getHex rgb) = 7%nat
  /\ ColorConvert.HexToRGB (HSLPicker.getHex rgb)
     = {| Rgb.r := Num.ofZ 1; Rgb.g := Num.ofZ 171; Rgb.b := Num.ofZ 255 |}.
Proof.
  intros rgb.
  assert (Hwf : Pixel.wf rgb) by (unfold Pixel.wf, Pixel.channel; cbn; lia).
  destruct (HexToRGB_getHex (HSLPicker.constructor "picker" "parent" 200 0 0 0)
              rgb Hwf) as (Hlen & E & _).
  split; [exact Hwf |]. split; [exact Hlen | exact E].
Defined.

(** X2. [toHex] loses nothing: for every integer, [parseInt] in radix 16
    reads the value back from what [toHex] writes, with or without the
    zero that pads a single digit; the text has two characters at least. *)
Theorem parseInt_toHex_inverse (val : Z) :
  ColorConvert.parseInt (HSLPicker.toHex val) 16 = Num.ofZ val
  /\ (2 <= String.length (HSLPicker.toHex val))%nat.
Proof.
  split; [apply parseInt_toHex |].
  pose proof (parseInt_toString val) as E. unfold HSLPicker.toHex.
  destruct (HSLPicker.toString val 16) as [| c [| c' rest]];
    cbn [String.length Nat.eqb append]; try lia.
  discriminate E.
Qed.

(** X3. Six hexadecimal digits of either case, with or without a ['#'] in
    front and whatever follows them, are read pair by pair: each channel
    of [HexToRGB] is sixteen times the first digit of its pair plus the
    second, an integer from 0 to 255. *)
Theorem HexToRGB_six_digits
    (c1 c2 c3 c4 c5 c6 : ascii) (d1 d2 d3 d4 d5 d6 : Z) (rest : string) :
  hexValue c1 = Some d1 -> hexValue c2 = Some d2 -> hexValue c3 = Some d3 ->
  hexValue c4 = Some d4 -> hexValue c5 = Some d5 -> hexValue c6 = Some d6 ->
  let hex :=
    String c1 (String c2 (String c3 (String c4 (String c5 (String c6 rest)))))
  in
  let rgb :=
    {| Rgb.r := Num.ofZ (16 * d1 + d2);
       Rgb.g := Num.ofZ (16 * d3 + d4);
       Rgb.b := Num.ofZ (16 * d5 + d6) |} in
  ColorConvert.HexToRGB hex = rgb
  /\ ColorConvert.HexToRGB (String "#" hex) = rgb
  /\ (0 <= 16 * d1 + d2 <= 255)%Z
  /\ (0 <= 16 * d3 + d4 <= 255)%Z
  /\ (0 <= 16 * d5 + d6 <= 255)%Z.
Proof.
  intros E1 E2 E3 E4 E5 E6 hex rgb.
  destruct (parseInt_pair c1 c2 d1 d2 E1 E2) as [P1 R1].
  destruct (parseInt_pair c3 c4 d3 d4 E3 E4) as [P2 R2].
  destruct (parseInt_pair c5 c6 d5 d6 E5 E6) as [P3 R3].
  assert (Hplain : ColorConvert.HexToRGB hex = rgb).
  { unfold ColorConvert.HexToRGB, hex.
    rewrite (replace_hexadecimal c1 d1), (replace_hexadecimal c2 d2),
      (replace_hexadecimal c3 d3), (replace_hexadecimal c4 d4),
      (replace_hexadecimal c5 d5), (replace_hexadecimal c6 d6) by assumption.
    cbn [ColorConvert.substring Nat.min Nat.max Nat.sub String.substring].
    rewrite substring_none, P1, P2, P3. reflexivity. }
  repeat split; try lia; try exact Hplain.
  unfold ColorConvert.HexToRGB, hex.
  cbn [ColorConvert.replace Ascii.eqb Bool.eqb ColorConvert.substring
       Nat.min Nat.max Nat.sub String.substring].
  rewrite substring_none, P1, P2, P3. reflexivity.
Qed.

Lemma HexToRGB_six_digits_witness :
  hexValue "F" = Some 15%Z /\ hexValue "f" = Some 15%Z
  /\ hexValue "0" = Some 0%Z /\ hexValue "a" = Some 10%Z
  /\ hexValue "9" = Some 9%Z /\ hexValue "C" = Some 12%Z
  /\ ColorConvert.HexToRGB "Ff0a9C;" 
     = {| Rgb.r := Num.ofZ 255; Rgb.g := Num.ofZ 10; Rgb.b := Num.ofZ 156 |}.
Proof.
  repeat (split; [reflexivity |]).
  exact (proj1 (HexToRGB_six_digits "F" "f" "0" "a" "9" "C" 15 15 0 10 9 12 ";"
                  eq_refl eq_refl eq_refl eq_refl eq_refl eq_refl)).
Defined.

(** ** Characters that are no digits *)

Section Lenient.

Import ColorConvert.
Local Open Scope Z_scope.

Lemma stripPrefix_other (c : ascii) (rest : string) :
  c <> "0"%char -> stripPrefix (String c rest) = String c rest.
Proof.
  intros Hc.
  destruct c as [[] [] [] [] [] [] [] []]; try reflexivity.
  contradiction Hc. reflexivity.
Qed.

Lemma stripPrefix_zero (c : ascii) (rest : string) :
  c <> "x"%char -> c <> "X"%char ->
  stripPrefix (String "0" (String c rest)) = String "0" (String c rest).
Proof.
  intros Hx HX.
  destruct c as [[] [] [] [] [] [] [] []]; try reflexivity;
    [contradiction Hx | contradiction HX]; reflexivity.
Qed.

Lemma digits_stop (c : ascii) (rest : string) (acc : option Z) :
  hexValue c = None -> digits 16 acc (String c rest) = acc.
Proof.
  unfold hexValue. intros E. cbn [digits].
  destruct (digitValue c) as [d |]; [| reflexivity].
  destruct (d <? 16); [discriminate E | reflexivity].
Qed.

(** [parseInt] of a hexadecimal digit and a character that is none. *)
Lemma parseInt_lenient (c1 c2 : ascii) (d1 : Z) :
  hexValue c1 = Some d1 -> hexValue c2 = None ->
  ~ (c1 = "0"%char /\ (c2 = "x"%char \/ c2 = "X"%char)) ->
  parseInt (String c1 (String c2 EmptyString)) 16 = Num.ofZ d1.
Proof.
  intros E1 E2 Hprefix.
  destruct (hexValue_spec _ _ E1) as [V1 H1].
  unfold parseInt.
  rewrite (proj1 (hexValue_plain c1 d1 _ E1)).
  cbn [Z.ltb Z.compare Pos.compare Pos.compare_cont orb Z.eqb Pos.eqb].
  assert (Es : stripPrefix (String c1 (String c2 EmptyString))
               = String c1 (String c2 EmptyString)).
  { destruct (ascii_dec c1 "0") as [-> | Hc1].
    - apply stripPrefix_zero; intros ->; apply Hprefix; auto.
    - apply stripPrefix_other, Hc1. }
  rewrite Es, (digits_step 0 d1) by assumption.
  rewrite digits_stop by exact E2. reflexivity.
Qed.

End Lenient.

(** X4. [HexToRGB] does not reject a character that is no hexadecimal
    digit in the second place of a pair: the channel is the first digit
    alone, a number and not [NaN] (the pair ['0x'] apart, which [parseInt]
    takes for a prefix). *)
Theorem HexToRGB_second_character
    (c1 c2 : ascii) (d1 : Z) (rest : string) :
  hexValue c1 = Some d1 -> hexValue c2 = None ->
  ~ (c1 = "0"%char /\ (c2 = "x"%char \/ c2 = "X"%char)) ->
  Rgb.r (ColorConvert.HexToRGB (String "#" (String c1 (String c2 rest))))
  = Num.ofZ d1
  /\ (0 <= d1 < 16)%Z.
Proof.
  intros E1 E2 Hprefix. split; [| apply (hexValue_spec c1), E1].
  unfold ColorConvert.HexToRGB.
  cbn [ColorConvert.replace Ascii.eqb Bool.eqb ColorConvert.substring
       Nat.min Nat.max Nat.sub String.substring Rgb.r].
  rewrite substring_none. apply parseInt_lenient; assumption.
Qed.

Lemma HexToRGB_second_character_witness :
  hexValue "c" = Some 12%Z /\ hexValue "~" = None
  /\ ~ ("c"%char = "0"%char /\ ("~"%char = "x"%char \/ "~"%char = "X"%char))
  /\ Rgb.r (ColorConvert.HexToRGB "#c~0000") = Num.ofZ 12.
Proof.
  assert (H : ~ ("c"%char = "0"%char
                 /\ ("~"%char = "x"%char \/ "~"%char = "X"%char)))
    by (intros [E _]; discriminate E).
  split; [reflexivity |]. split; [reflexivity |]. split; [exact H |].
  exact (proj1 (HexToRGB_second_character "c" "~" 12 "0000" eq_refl eq_refl H)).
Defined.

(** ** The picker at rest and in a drag *)

Section Gestures.

Import HSLPicker.
Local Open Scope R_scope.

Lemma setHue_setHue (this : t) (a b : R) :
  setHue (setHue this a) b = setHue this b.
Proof.
  destruct this.
  cbv beta iota zeta delta
    [setHue redraw set_oxy set_hue id parentId radius ringsize hue color
     squareLength outerActive innerActive ox oy ix iy offsetLeft offsetTop].
  destruct (Rlt_dec (a * (180 / PI)) 0), (Rlt_dec (b * (180 / PI)) 0);
    reflexivity.
Qed.

Lemma updateOuter_updateOuter (this : t) (e1 e2 : event) :
  updateOuter (updateOuter this e1) e2 = updateOuter this e2.
Proof.
  unfold updateOuter, normalizePos.
  rewrite setHue_setHue, setHue_radius, setHue_offsetLeft, setHue_offsetTop.
  reflexivity.
Qed.

Lemma mUp_at_rest (this : t) (evt : event) :
  at_rest this -> mUp this evt = this.
Proof.
  destruct this. unfold at_rest. cbn. intros [-> ->]. reflexivity.
Qed.

Lemma mMove_at_rest (this : t) (evt : event) :
  at_rest this -> mMove this evt = this.
Proof. unfold at_rest, mMove. intros [-> ->]. reflexivity. Qed.

Lemma mMove_outer (this : t) (evt : event) :
  outerActive this = true -> mMove this evt = updateOuter this evt.
Proof. unfold mMove. intros ->. reflexivity. Qed.

Lemma mMove_inner (this : t) (evt : event) :
  outerActive this = false -> innerActive this = true ->
  mMove this evt = updateInner this evt.
Proof. unfold mMove. intros -> ->. reflexivity. Qed.

Lemma updateOuter_outerActive (this : t) (evt : event) :
  outerActive (updateOuter this evt) = outerActive this.
Proof. apply setHue_outerActive. Qed.

(** A press in the ring: the ring's branch runs, the square's does not. *)
Lemma mDown_ring (this : t) (evt : event) :
  inscribed this ->
  radius this - ringsize this < distance this (normalizePos this evt)
    < radius this ->
  mDown this evt = updateOuter (set_outerActive this true) evt.
Proof.
  intros Hsq [Hlo Hhi]. unfold mDown, onChange.
  destruct (Rlt_dec _ (radius this)) as [_ | Hn]; [| contradiction].
  destruct (Rgt_dec _ (radius this - ringsize this)) as [_ | Hn];
    [| contradiction].
  assert (Esq : squareLength (updateOuter (set_outerActive this true) evt)
                = squareLength this)
    by (unfold updateOuter; rewrite setHue_squareLength; reflexivity).
  rewrite Esq.
  destruct (Rlt_dec _ (squareLength this / 2)) as [Hin |]; [| reflexivity].
  exfalso. apply (ring_square_disjoint this (normalizePos this evt) Hsq).
  split; assumption.
Qed.

(** A press in the circle inscribed in the square: the square's branch
    runs, the ring's does not. *)
Lemma mDown_square (this : t) (evt : event) :
  inscribed this ->
  distance this (normalizePos this evt) < squareLength this / 2 ->
  mDown this evt = updateInner (set_innerActive this true) evt.
Proof.
  intros Hsq Hin. unfold mDown, onChange.
  destruct (Rlt_dec _ (radius this)) as [Hr |].
  - destruct (Rgt_dec _ (radius this - ringsize this)) as [Hring |].
    + exfalso. apply (ring_square_disjoint this (normalizePos this evt) Hsq).
      split; assumption.
    + destruct (Rlt_dec _ (squareLength this / 2)); [reflexivity |].
      contradiction.
  - destruct (Rlt_dec _ (squareLength this / 2)); [reflexivity |].
    contradiction.
Qed.

Lemma last_cons (A : Type) (x d : A) (l : list A) :
  last (x :: l) d = last l x.
Proof.
  revert x d. induction l as [| a l IH]; intros x d; [reflexivity |].
  change (last (x :: a :: l) d) with (last (a :: l) d).
  rewrite (IH a d), (IH a x). reflexivity.
Qed.

(** While the ring's flag is up, moves only move the hue. *)
Lemma run_moves_outer (moves : list event) (this : t) (evt : event) :
  forallb is_move moves = true ->
  outerActive this = true ->
  run (updateOuter this evt) moves = updateOuter this (last moves evt).
Proof.
  revert this evt. induction moves as [| m rest IH]; intros this evt Hm Ho.
  - reflexivity.
  - cbn [forallb] in Hm. apply andb_prop in Hm. destruct Hm as [Hm Hrest].
    cbn [run fold_left]. change (fold_left dispatch rest ?q) with (run q rest).
    assert (E : dispatch (updateOuter this evt) m = updateOuter this m).
    { unfold dispatch. unfold is_move in Hm.
      destruct (type m); try discriminate Hm;
        rewrite mMove_outer by (rewrite updateOuter_outerActive; exact Ho);
        apply updateOuter_updateOuter. }
    rewrite E, (IH this m Hrest Ho), last_cons.
    reflexivity.
Qed.

Lemma run_moves_inner (moves : list event) (this : t) (evt : event) :
  forallb is_move moves = true ->
  outerActive this = false -> innerActive this = true ->
  run (updateInner this evt) moves = updateInner this (last moves evt).
Proof.
  revert this evt. induction moves as [| m rest IH]; intros this evt Hm Ho Hi.
  - reflexivity.
  - cbn [forallb] in Hm. apply andb_prop in Hm. destruct Hm as [Hm Hrest].
    cbn [run fold_left]. change (fold_left dispatch rest ?q) with (run q rest).
    assert (E : dispatch (updateInner this evt) m = updateInner this m).
    { unfold dispatch. unfold is_move in Hm.
      destruct (type m); try discriminate Hm;
        rewrite mMove_inner by assumption; reflexivity. }
    rewrite E, (IH this m Hrest Ho Hi), last_cons.
    reflexivity.
Qed.

Lemma constructor_geometry (i p : string) (r h oL oT : R) :
  let this := constructor i p r h oL oT in
  radius this = r /\ ringsize this = r / 5
  /\ squareLength this = sqrt 2 * (r - r / 5)
  /\ offsetLeft this = oL /\ offsetTop this = oT
  /\ ix this = r /\ iy this = r
  /\ id this = i /\ parentId this = p.
Proof.
  unfold constructor.
  match goal with
  | |- context [setHue ?q ?rad] =>
      destruct (setHue_frame_hue_oxy q rad)
        as (-> & -> & -> & -> & _ & -> & _ & _ & -> & -> & -> & ->)
  end.
  repeat split; reflexivity.
Qed.

(** The distance of a pointer from the centre of a new picker. *)
Lemma constructor_distance (i p : string) (r h oL oT : R) (evt : event) :
  let this := constructor i p r h oL oT in
  distance this (normalizePos this evt)
  = sqrt ((r - (pageX evt - oL)) ^ 2 + (r - (pageY evt - oT)) ^ 2).
Proof.
  intros this.
  destruct (constructor_geometry i p r h oL oT)
    as (Er & _ & _ & El & Et & _).
  fold this in Er, El, Et.
  unfold distance, normalizePos. cbn [fst snd]. rewrite Er, El, Et.
  reflexivity.
Qed.

Lemma sqrt2_bounds : 7 / 5 < sqrt 2 < 3 / 2.
Proof. pose proof sqrt2_sqr. pose proof sqrt2_pos. split; nra. Qed.

End Gestures.

(** X5. Without a press nothing changes: from rest, moves and releases,
    in any number and order and wherever the pointer is, leave every field
    of the picker as it was. *)
Theorem no_press_no_change
    (this : HSLPicker.t) (evts : list HSLPicker.event) :
  at_rest this ->
  forallb (fun evt => negb (is_press evt)) evts = true ->
  HSLPicker.run this evts = this.
Proof.
  intros Hrest. induction evts as [| evt rest IH]; intros Hok.
  - reflexivity.
  - cbn [forallb] in Hok. apply andb_prop in Hok. destruct Hok as [Hevt Hok].
    cbn [HSLPicker.run fold_left].
    assert (E : HSLPicker.dispatch this evt = this).
    { unfold HSLPicker.dispatch. unfold is_press in Hevt.
      destruct (HSLPicker.type evt); try discriminate Hevt;
        auto using mUp_at_rest, mMove_at_rest. }
    rewrite E. apply IH, Hok.
Qed.

Lemma no_press_no_change_witness :
  let this := HSLPicker.constructor "picker" "parent" 200 0 0 0 in
  let evts :=
    [HSLPicker.mkEvent HSLPicker.mousemove 390 200;
     HSLPicker.mkEvent HSLPicker.mouseup 200 200;
     HSLPicker.mkEvent HSLPicker.touchmove 200 210;
     HSLPicker.mkEvent HSLPicker.touchend 0 0] in
  at_rest this
  /\ forallb (fun evt => negb (is_press evt)) evts = true
  /\ HSLPicker.run this evts = this.
Proof.
  intros this evts.
  assert (Hrest : at_rest this) by apply constructor_flags.
  split; [exact Hrest |]. split; [reflexivity |].
  apply (no_press_no_change this evts Hrest). reflexivity.
Defined.

(** X6. A drag on the ring follows the pointer and nothing else: after a
    press in the ring and any number of moves, wherever they go, the
    picker is in the state that [updateOuter] at the last pointer position
    gives with [outerActive] up.  The path leaves no trace, and the inner
    selection is where it was. *)
Theorem ring_drag_follows_pointer
    (this : HSLPicker.t) (press : HSLPicker.event)
    (moves : list HSLPicker.event) :
  inscribed this ->
  is_press press = true -> forallb is_move moves = true ->
  (HSLPicker.radius this - HSLPicker.ringsize this
   < HSLPicker.distance this (HSLPicker.normalizePos this press)
   < HSLPicker.radius this)%R ->
  let final := HSLPicker.run this (press :: moves) in
  final
  = HSLPicker.updateOuter (HSLPicker.set_outerActive this true)
      (last moves press)
  /\ HSLPicker.outerActive final = true
  /\ HSLPicker.ix final = HSLPicker.ix this
  /\ HSLPicker.iy final = HSLPicker.iy this.
Proof.
  intros Hsq Hpress Hmoves Hring final.
  assert (E : final
              = HSLPicker.updateOuter (HSLPicker.set_outerActive this true)
                  (last moves press)).
  { unfold final. cbn [HSLPicker.run fold_left].
    change (fold_left HSLPicker.dispatch moves ?q) with (HSLPicker.run q moves).
    assert (Ed : HSLPicker.dispatch this press
                 = HSLPicker.updateOuter (HSLPicker.set_outerActive this true)
                     press).
    { unfold HSLPicker.dispatch. unfold is_press in Hpress.
      destruct (HSLPicker.type press); try discriminate Hpress;
        apply mDown_ring; assumption. }
    rewrite Ed. apply run_moves_outer; [exact Hmoves | reflexivity]. }
  split; [exact E |]. rewrite E. unfold HSLPicker.updateOuter.
  rewrite setHue_outerActive, setHue_ix, setHue_iy. auto.
Qed.

Lemma ring_drag_follows_pointer_witness :
  let this := HSLPicker.constructor "picker" "parent" 200 0 0 0 in
  let press := HSLPicker.mkEvent HSLPicker.mousedown 390 200 in
  let moves :=
    [HSLPicker.mkEvent HSLPicker.mousemove 900 17;
     HSLPicker.mkEvent HSLPicker.touchmove 200 201] in
  inscribed this
  /\ is_press press = true /\ forallb is_move moves = true
  /\ (HSLPicker.radius this - HSLPicker.ringsize this
      < HSLPicker.distance this (HSLPicker.normalizePos this press)
      < HSLPicker.radius this)%R
  /\ HSLPicker.run this (press :: moves)
     = HSLPicker.updateOuter (HSLPicker.set_outerActive this true)
         (HSLPicker.mkEvent HSLPicker.touchmove 200 201).
Proof.
  intros this press moves.
  assert (Hsq : inscribed this) by apply constructor_inscribed.
  assert (Hring : (HSLPicker.radius this - HSLPicker.ringsize this
                   < HSLPicker.distance this
                       (HSLPicker.normalizePos this press)
                   < HSLPicker.radius this)%R).
  { unfold this. rewrite constructor_distance.
    destruct (constructor_geometry "picker" "parent" 200 0 0 0)
      as (-> & -> & _).
    cbn [HSLPicker.pageX HSLPicker.pageY press].
    replace ((200 - (390 - 0)) ^ 2 + (200 - (200 - 0)) ^ 2)%R
      with (190 * 190)%R by lra.
    rewrite sqrt_square by lra. lra. }
  split; [exact Hsq |]. split; [reflexivity |]. split; [reflexivity |].
  split; [exact Hring |].
  exact (proj1 (ring_drag_follows_pointer this press moves Hsq eq_refl eq_refl
                  Hring)).
Defined.

(** X7. A drag in the square follows the pointer and nothing else: from a
    state whose [outerActive] is down, after a press within
    [squareLength / 2] of the centre and any number of moves, the picker
    is in the state that [updateInner] at the last pointer position gives
    with [innerActive] up.  The hue and the ring's indicator are where
    they were. *)
Theorem square_drag_follows_pointer
    (this : HSLPicker.t) (press : HSLPicker.event)
    (moves : list HSLPicker.event) :
  inscribed this -> HSLPicker.outerActive this = false ->
  is_press press = true -> forallb is_move moves = true ->
  (HSLPicker.distance this (HSLPicker.normalizePos this press)
   < HSLPicker.squareLength this / 2)%R ->
  let final := HSLPicker.run this (press :: moves) in
  final
  = HSLPicker.updateInner (HSLPicker.set_innerActive this true)
      (last moves press)
  /\ HSLPicker.hue final = HSLPicker.hue this
  /\ HSLPicker.ox final = HSLPicker.ox this
  /\ HSLPicker.oy final = HSLPicker.oy this.
Proof.
  intros Hsq Ho Hpress Hmoves Hin final.
  assert (E : final
              = HSLPicker.updateInner (HSLPicker.set_innerActive this true)
                  (last moves press)).
  { unfold final. cbn [HSLPicker.run fold_left].
    change (fold_left HSLPicker.dispatch moves ?q) with (HSLPicker.run q moves).
    assert (Ed : HSLPicker.dispatch this press
                 = HSLPicker.updateInner (HSLPicker.set_innerActive this true)
                     press).
    { unfold HSLPicker.dispatch. unfold is_press in Hpress.
      destruct (HSLPicker.type press); try discriminate Hpress;
        apply mDown_square; assumption. }
    rewrite Ed. apply run_moves_inner; [exact Hmoves | exact Ho | reflexivity]. }
  split; [exact E |]. rewrite E. repeat split; reflexivity.
Qed.

Lemma square_drag_follows_pointer_witness :
  let this := HSLPicker.constructor "picker" "parent" 200 0 0 0 in
  let press := HSLPicker.mkEvent HSLPicker.touchstart 200 200 in
  let moves :=
    [HSLPicker.mkEvent HSLPicker.touchmove 900 17;
     HSLPicker.mkEvent HSLPicker.touchmove 150 260] in
  inscribed this /\ HSLPicker.outerActive this = false
  /\ is_press press = true /\ forallb is_move moves = true
  /\ (HSLPicker.distance this (HSLPicker.normalizePos this press)
      < HSLPicker.squareLength this / 2)%R
  /\ HSLPicker.run this (press :: moves)
     = HSLPicker.updateInner (HSLPicker.set_innerActive this true)
         (HSLPicker.mkEvent HSLPicker.touchmove 150 260).
Proof.
  intros this press moves.
  assert (Hsq : inscribed this) by apply constructor_inscribed.
  assert (Ho : HSLPicker.outerActive this = false) by apply constructor_flags.
  assert (Hin : (HSLPicker.distance this (HSLPicker.normalizePos this press)
                 < HSLPicker.squareLength this / 2)%R).
  { unfold this. rewrite constructor_distance.
    destruct (constructor_geometry "picker" "parent" 200 0 0 0)
      as (_ & _ & -> & _).
    cbn [HSLPicker.pageX HSLPicker.pageY press].
    replace ((200 - (200 - 0)) ^ 2 + (200 - (200 - 0)) ^ 2)%R
      with 0%R by lra.
    rewrite sqrt_0. pose proof sqrt2_pos. lra. }
  split; [exact Hsq |]. split; [exact Ho |].
  split; [reflexivity |]. split; [reflexivity |]. split; [exact Hin |].
  exact (proj1 (square_drag_follows_pointer this press moves Hsq Ho eq_refl
                  eq_refl Hin)).
Defined.

(** X8. The corners of the square do not answer: a press inside the square
    but no nearer to the centre than [squareLength / 2], the radius of the
    circle inscribed in the square, raises no flag and changes no field. *)
Theorem press_in_corner_ignored (this : HSLPicker.t) (evt : HSLPicker.event) :
  inscribed this ->
  let pos := HSLPicker.normalizePos this evt in
  let half := (HSLPicker.squareLength this / 2)%R in
  (HSLPicker.radius this - half <= fst pos <= HSLPicker.radius this + half)%R ->
  (HSLPicker.radius this - half <= snd pos <= HSLPicker.radius this + half)%R ->
  (half <= HSLPicker.distance this pos)%R ->
  HSLPicker.mDown this evt = this.
Proof.
  intros Hsq pos half Hx Hy Hout.
  assert (Hinner : (HSLPicker.distance this pos
                    <= HSLPicker.radius this - HSLPicker.ringsize this)%R).
  { pose proof sqrt2_sqr as H2. pose proof sqrt2_pos as Hp.
    unfold inscribed in Hsq.
    set (w := (HSLPicker.radius this - HSLPicker.ringsize this)%R) in *.
    assert (Ehalf : half = (sqrt 2 * w / 2)%R)
      by (unfold half; rewrite Hsq; reflexivity).
    assert (Hhalf : (0 <= half)%R) by lra.
    assert (Hw : (0 <= w)%R) by nra.
    unfold HSLPicker.distance.
    rewrite <- (sqrt_square w) by exact Hw.
    apply sqrt_le_1_alt.
    set (dx := (HSLPicker.radius this - fst pos)%R).
    set (dy := (HSLPicker.radius this - snd pos)%R).
    assert (Hdx : (- half <= dx <= half)%R) by (unfold dx; lra).
    assert (Hdy : (- half <= dy <= half)%R) by (unfold dy; lra).
    assert (Ew : (w * w = 2 * (half * half))%R) by (rewrite Ehalf; nra).
    nra. }
  unfold half in Hout. unfold HSLPicker.mDown. fold pos.
  destruct (Rlt_dec (HSLPicker.distance this pos) (HSLPicker.radius this)).
  - destruct (Rgt_dec (HSLPicker.distance this pos)
                (HSLPicker.radius this - HSLPicker.ringsize this)); [lra |].
    destruct (Rlt_dec (HSLPicker.distance this pos)
                (HSLPicker.squareLength this / 2)); [lra |].
    reflexivity.
  - destruct (Rlt_dec (HSLPicker.distance this pos)
                (HSLPicker.squareLength this / 2)); [lra |].
    reflexivity.
Qed.

Lemma press_in_corner_ignored_witness :
  let this := HSLPicker.constructor "picker" "parent" 200 0 0 0 in
  let evt := HSLPicker.mkEvent HSLPicker.mousedown 310 310 in
  let pos := HSLPicker.normalizePos this evt in
  let half := (HSLPicker.squareLength this / 2)%R in
  inscribed this
  /\ (HSLPicker.radius this - half <= fst pos <= HSLPicker.radius this + half)%R
  /\ (HSLPicker.radius this - half <= snd pos <= HSLPicker.radius this + half)%R
  /\ (half <= HSLPicker.distance this pos)%R
  /\ HSLPicker.mDown this evt = this.
Proof.
  intros this evt pos half.
  assert (Hsq : inscribed this) by apply constructor_inscribed.
  pose proof sqrt2_bounds as Hs.
  assert (Ed : HSLPicker.distance this pos
               = sqrt ((200 - (310 - 0)) ^ 2 + (200 - (310 - 0)) ^ 2))
    by apply constructor_distance.
  destruct (constructor_geometry "picker" "parent" 200 0 0 0)
    as (Er & _ & El & EoL & EoT & _).
  fold this in Er, El, EoL, EoT.
  assert (Ehalf : half = (sqrt 2 * (200 - 200 / 5) / 2)%R)
    by (unfold half; rewrite El; reflexivity).
  assert (Epos : pos = (310 - 0, 310 - 0)%R)
    by (unfold pos, HSLPicker.normalizePos; rewrite EoL, EoT; reflexivity).
  assert (Hx : (HSLPicker.radius this - half <= fst pos
                <= HSLPicker.radius this + half)%R)
    by (rewrite Er, Ehalf, Epos; cbn [fst]; lra).
  assert (Hy : (HSLPicker.radius this - half <= snd pos
                <= HSLPicker.radius this + half)%R)
    by (rewrite Er, Ehalf, Epos; cbn [snd]; lra).
  assert (Hout : (half <= HSLPicker.distance this pos)%R).
  { rewrite Ed, Ehalf.
    apply Rle_trans with 120%R; [lra |].
    rewrite <- (sqrt_square 120) by lra.
    apply sqrt_le_1_alt. lra. }
  split; [exact Hsq |]. split; [exact Hx |]. split; [exact Hy |].
  split; [exact Hout |].
  exact (press_in_corner_ignored this evt Hsq Hx Hy Hout).
Defined.

(** ** Touch events *)

(** X9. Touch needs [originalEvent]: for an event object that has none, a
    [touchstart] makes its listener throw before any field is assigned,
    while a [mousedown] is handled with its [pageX] and [pageY]; and a
    picker at rest stays as it is, in every field, through any sequence of
    [touchstart], [touchmove] and [touchend] on such objects. *)
Theorem touch_needs_originalEvent
    (this : HSLPicker.t) (evt : HSLPicker.domEvent)
    (evts : list HSLPicker.domEvent) :
  HSLPicker.originalEvent evt = None ->
  forallb
    (fun e =>
       match HSLPicker.domType e, HSLPicker.originalEvent e with
       | (HSLPicker.touchstart | HSLPicker.touchmove | HSLPicker.touchend),
         None => true
       | _, _ => false
       end) evts = true ->
  (HSLPicker.domType evt = HSLPicker.touchstart ->
   HSLPicker.listen this evt = None)
  /\ (HSLPicker.domType evt = HSLPicker.mousedown ->
      HSLPicker.listen this evt
      = Some (HSLPicker.mDown this
                (HSLPicker.mkEvent HSLPicker.mousedown
                   (HSLPicker.domPageX evt) (HSLPicker.domPageY evt))))
  /\ (at_rest this -> HSLPicker.listen_all this evts = this).
Proof.
  intros Hnone Htouch. split; [| split].
  - intros Htype. unfold HSLPicker.listen, HSLPicker.readEvent,
      HSLPicker.pagePosition. rewrite Htype, Hnone. reflexivity.
  - intros Htype. unfold HSLPicker.listen, HSLPicker.readEvent,
      HSLPicker.pagePosition. rewrite Htype. reflexivity.
  - intros Hrest. induction evts as [| e rest IH]; [reflexivity |].
    cbn [forallb] in Htouch. apply andb_prop in Htouch.
    destruct Htouch as [He Hrest'].
    unfold HSLPicker.listen_all. cbn [fold_left].
    assert (E : match HSLPicker.listen this e with
                | Some next => next
                | None => this
                end = this).
    { unfold HSLPicker.listen, HSLPicker.readEvent, HSLPicker.pagePosition.
      destruct Hrest as [Ho Hi].
      destruct (HSLPicker.domType e), (HSLPicker.originalEvent e);
        try discriminate He; rewrite ?Ho, ?Hi; try reflexivity.
      apply mUp_at_rest. split; assumption. }
    rewrite E. apply IH, Hrest'.
Qed.

Lemma touch_needs_originalEvent_witness :
  let this := HSLPicker.constructor "picker" "parent" 200 0 0 0 in
  let press := HSLPicker.mkDomEvent HSLPicker.touchstart 0 0 None in
  let evts :=
    [press;
     HSLPicker.mkDomEvent HSLPicker.touchmove 0 0 None;
     HSLPicker.mkDomEvent HSLPicker.touchend 0 0 None] in
  HSLPicker.originalEvent press = None
  /\ forallb
       (fun e =>
          match HSLPicker.domType e, HSLPicker.originalEvent e with
          | (HSLPicker.touchstart | HSLPicker.touchmove | HSLPicker.touchend),
            None => true
          | _, _ => false
          end) evts = true
  /\ HSLPicker.listen this press = None
  /\ HSLPicker.listen_all this evts = this.
Proof.
  intros this press evts.
  destruct (touch_needs_originalEvent this press evts eq_refl eq_refl)
    as (Hthrow & _ & Hsame).
  split; [reflexivity |]. split; [reflexivity |].
  split; [apply Hthrow; reflexivity |].
  apply Hsame, constructor_flags.
Defined.

(** ** The indicator of the ring *)

Section Indicator.

Import HSLPicker.
Local Open Scope R_scope.

Lemma degrees_radians (rad : R) :
  degrees rad * (PI / 180) = rad \/ degrees rad * (PI / 180) = rad + 2 * PI.
Proof.
  pose proof PI_RGT_0 as Hpi. unfold degrees.
  destruct (Rlt_dec (rad * (180 / PI)) 0); [right | left]; field; lra.
Qed.

Lemma cos_degrees (rad : R) : cos (degrees rad * (PI / 180)) = cos rad.
Proof.
  destruct (degrees_radians rad) as [-> | ->]; [reflexivity |].
  rewrite cos_plus, cos_2PI, sin_2PI. ring.
Qed.

Lemma sin_degrees (rad : R) : sin (degrees rad * (PI / 180)) = sin rad.
Proof.
  destruct (degrees_radians rad) as [-> | ->]; [reflexivity |].
  rewrite sin_plus, cos_2PI, sin_2PI. ring.
Qed.

Lemma setHue_oxy (this : t) (rad : R) :
  ox (setHue this rad) = cos rad * (radius this - ringsize this / 2) + radius this
  /\ oy (setHue this rad)
     = sin rad * (radius this - ringsize this / 2) + radius this.
Proof.
  destruct this.
  cbv beta iota zeta delta
    [setHue redraw set_oxy set_hue id parentId radius ringsize hue color
     squareLength outerActive innerActive ox oy ix iy offsetLeft offsetTop].
  destruct (Rlt_dec (rad * (180 / PI)) 0); split; reflexivity.
Qed.

Lemma setHue_indicator (this : t) (rad : R) :
  indicator_at_hue (setHue this rad).
Proof.
  unfold indicator_at_hue. cbv zeta.
  destruct (setHue_oxy this rad) as [-> ->].
  rewrite hue_setHue, setHue_radius, setHue_ringsize, cos_degrees, sin_degrees.
  split; reflexivity.
Qed.

Lemma _setIXY_indicator (this : t) (x y : R) :
  indicator_at_hue this -> indicator_at_hue (_setIXY this x y).
Proof. intros H. exact H. Qed.

Lemma dispatch_indicator (this : t) (evt : event) :
  indicator_at_hue this -> indicator_at_hue (dispatch this evt).
Proof.
  intros H.
  unfold dispatch, mDown, mMove, mUp, onChange, updateInner, redraw.
  destruct (type evt);
    repeat match goal with
           | |- context [Rlt_dec ?a ?b] => destruct (Rlt_dec a b)
           | |- context [Rgt_dec ?a ?b] => destruct (Rgt_dec a b)
           | |- context [if outerActive ?q then _ else _] =>
               destruct (outerActive q)
           | |- context [if innerActive ?q then _ else _] =>
               destruct (innerActive q)
           end;
    try exact H;
    try apply setHue_indicator;
    apply _setIXY_indicator; first [exact H | apply setHue_indicator].
Qed.

Lemma run_indicator (evts : list event) (this : t) :
  indicator_at_hue this -> indicator_at_hue (run this evts).
Proof.
  revert this. induction evts as [| evt rest IH]; intros this H.
  - exact H.
  - apply IH, dispatch_indicator, H.
Qed.

Lemma setColor_indicator (this next : t) (r g b : num) :
  setColor this r g b = Some next -> indicator_at_hue next.
Proof.
  unfold setColor.
  destruct (Math.toR _) as [h |]; [| discriminate].
  destruct (Math.toR _) as [s |]; [| discriminate].
  destruct (Math.toR _) as [v |]; [| discriminate].
  intros [= <-]. apply _setIXY_indicator, setHue_indicator.
Qed.

Lemma perform_all_indicator (calls : list call) (this : t) :
  indicator_at_hue this -> forallb colour_call calls = true ->
  exists final, perform_all this calls = Some final /\ indicator_at_hue final.
Proof.
  revert this. induction calls as [| c rest IH]; intros this H Hok.
  - exists this. auto.
  - cbn [forallb] in Hok. apply andb_prop in Hok. destruct Hok as [Hc Hrest].
    cbn [perform_all]. destruct c as [evt | r g b]; cbn [perform].
    + apply IH; [| exact Hrest]. apply _setIXY_indicator, H.
    + cbn [colour_call] in Hc.
      repeat (apply andb_prop in Hc; destruct Hc as [Hc ?]).
      destruct (setColor_colour this r g b) as [next Enext]; try lia.
      rewrite Enext. apply IH; [| exact Hrest].
      eapply setColor_indicator, Enext.
Qed.

Lemma constructor_indicator (i p : string) (r h oL oT : R) :
  indicator_at_hue (constructor i p r h oL oT).
Proof. apply setHue_indicator. Qed.

(** The circle of a point of the plane around the centre, squared. *)
Lemma indicator_on_circle (this : t) :
  indicator_at_hue this ->
  (ox this - radius this) ^ 2 + (oy this - radius this) ^ 2
  = (radius this - ringsize this / 2) ^ 2.
Proof.
  intros [Ex Ey]. rewrite Ex, Ey.
  pose proof (sin2_cos2 (hue this * (PI / 180))) as Hsc.
  unfold Rsqr in Hsc.
  set (c := cos _) in *. set (s := sin _) in *.
  set (m := radius this - ringsize this / 2).
  replace ((c * m + radius this - radius this) ^ 2
           + (s * m + radius this - radius this) ^ 2)
    with ((s * s + c * c) * m ^ 2) by ring.
  rewrite Hsc. ring.
Qed.

End Indicator.

(** X10. The indicator of the ring shows the hue: in every state reached
    from construction by pointer events and then by [updateInner] and
    [setColor] calls with colour channels, [(ox, oy)] is the point of the
    middle circle of the ring, of radius [radius - ringsize / 2] around the
    centre, at the angle of the stored hue. *)
Theorem indicator_shows_hue
    (id parentId : string) (radius hue offsetLeft offsetTop : R)
    (evts : list HSLPicker.event) (calls : list HSLPicker.call) :
  forallb HSLPicker.colour_call calls = true ->
  let this :=
    HSLPicker.run
      (HSLPicker.constructor id parentId radius hue offsetLeft offsetTop)
      evts in
  exists final,
    HSLPicker.perform_all this calls = Some final
    /\ indicator_at_hue final
    /\ ((HSLPicker.ox final - HSLPicker.radius final) ^ 2
        + (HSLPicker.oy final - HSLPicker.radius final) ^ 2
        = (HSLPicker.radius final - HSLPicker.ringsize final / 2) ^ 2)%R.
Proof.
  intros Hok this.
  destruct (perform_all_indicator calls this) as (final & E & H);
    [apply run_indicator, constructor_indicator | exact Hok |].
  exists final. auto using indicator_on_circle.
Qed.

Lemma indicator_shows_hue_witness :
  let evts :=
    [HSLPicker.mkEvent HSLPicker.mousedown 390 200;
     HSLPicker.mkEvent HSLPicker.mousemove 10 50;
     HSLPicker.mkEvent HSLPicker.mouseup 10 50] in
  let calls :=
    [HSLPicker.SetColor 255 0 255;
     HSLPicker.UpdateInner (HSLPicker.mkEvent HSLPicker.touchmove 201 199)] in
  forallb HSLPicker.colour_call calls = true
  /\ exists final,
      HSLPicker.perform_all
        (HSLPicker.run (HSLPicker.constructor "picker" "parent" 200 30 0 0)
           evts) calls = Some final
      /\ indicator_at_hue final
      /\ ((HSLPicker.ox final - HSLPicker.radius final) ^ 2
          + (HSLPicker.oy final - HSLPicker.radius final) ^ 2
          = (HSLPicker.radius final - HSLPicker.ringsize final / 2) ^ 2)%R.
Proof.
  intros evts calls. split; [reflexivity |].
  apply (indicator_shows_hue "picker" "parent" 200 30 0 0 evts calls).
  reflexivity.
Defined.

(** ** Construction, [setColor] and [resize] *)

Section Selecting.

Import HSLPicker.
Local Open Scope R_scope.

Lemma degrees_of_degrees (h : R) :
  degrees (h * (PI / 180)) = if Rlt_dec h 0 then h + 360 else h.
Proof.
  pose proof PI_RGT_0 as Hpi. unfold degrees.
  replace (h * (PI / 180) * (180 / PI)) with h by (field; lra).
  reflexivity.
Qed.

Lemma Q2R_inject_Z (z : Z) : Q2R (inject_Z z) = IZR z.
Proof. unfold Q2R, inject_Z. cbn. field. Qed.

(** One axis of [_setIXY] for a pointer inside the square: the clamp does
    nothing. *)
Lemma clamp_inside (r half x : R) :
  r - half <= x <= r + half ->
  (if Rlt_dec 0 (x - r)
   then Math.min x (r + half) - 1
   else Math.max x (r - half) + 1)
  = if Rlt_dec 0 (x - r) then x - 1 else x + 1.
Proof.
  intros [Hlo Hhi]. unfold Math.min, Math.max.
  destruct (Rlt_dec 0 (x - r)).
  - rewrite Rmin_left by lra. reflexivity.
  - rewrite Rmax_left by lra. reflexivity.
Qed.

Lemma round_inset (r x : R) :
  Rabs (Math.round (if Rlt_dec 0 (x - r) then x - 1 else x + 1) - x) <= 3 / 2.
Proof.
  apply Rabs_le.
  destruct (Rlt_dec 0 (x - r)).
  - pose proof (round_bounds (x - 1)). lra.
  - pose proof (round_bounds (x + 1)). lra.
Qed.

(** [setColor] on colour channels, through the integer conversions. *)
Lemma setColor_ofZ (this : t) (r g b : Z) :
  (0 <= r <= 255)%Z -> (0 <= g <= 255)%Z -> (0 <= b <= 255)%Z ->
  setColor this (Num.ofZ r) (Num.ofZ g) (Num.ofZ b)
  = let '(h1, s1, l1) := RGBtoHSL_Z r g b in
    let '(h, s, v) := HSLToHSB_Z h1 s1 l1 in
    let this' := setHue this (IZR h * PI / 180) in
    Some (_setIXY this'
            (radius this' - squareLength this' / 2
             + squareLength this' * (IZR s / 100))
            (radius this' + squareLength this' / 2
             - squareLength this' * (IZR v / 100))).
Proof.
  intros Hr Hg Hb. unfold setColor.
  pose proof (RGBtoHSL_ofZ r g b Hr Hg Hb) as E.
  pose proof (RGBtoHSL_Z_range r g b Hr Hg Hb) as Hrange.
  destruct (RGBtoHSL_Z r g b) as [[h1 s1] l1].
  destruct Hrange as (Hh & Hs & Hl).
  rewrite E. cbn [Hsl.h Hsl.s Hsl.l].
  rewrite (HSLToHSB_ofZ h1 s1 l1 Hs Hl).
  destruct (HSLToHSB_Z h1 s1 l1) as [[h s] v].
  cbn [Hsb.h Hsb.s Hsb.b Math.toR Num.ofZ].
  rewrite !Q2R_inject_Z. reflexivity.
Qed.

(** The hue of [HSLToHSB] after [RGBtoHSL] is that of [RGBtoHSL], or 0. *)
Lemma HSLToHSB_Z_hue (r g b : Z) :
  (0 <= r <= 255)%Z -> (0 <= g <= 255)%Z -> (0 <= b <= 255)%Z ->
  let '(h1, s1, l1) := RGBtoHSL_Z r g b in
  let '(h, s, v) := HSLToHSB_Z h1 s1 l1 in
  (-60 <= h <= 300 /\ 0 <= s <= 100 /\ 0 <= v <= 100)%Z.
Proof.
  intros Hr Hg Hb.
  pose proof (RGBtoHSL_Z_range r g b Hr Hg Hb) as Hrange.
  destruct (RGBtoHSL_Z r g b) as [[h1 s1] l1].
  destruct Hrange as (Hh & Hs & Hl).
  pose proof (HSLToHSB_Z_range h1 s1 l1 Hs Hl) as Hrange'.
  assert (Ehue : fst (fst (HSLToHSB_Z h1 s1 l1)) = h1
                 \/ fst (fst (HSLToHSB_Z h1 s1 l1)) = 0%Z).
  { unfold HSLToHSB_Z. destruct (_ =? 0)%Z; auto. }
  destruct (HSLToHSB_Z h1 s1 l1) as [[h s] v]. cbn [fst] in Ehue.
  split; [| exact Hrange']. destruct Ehue; lia.
Qed.

Lemma degrees_of_integer (h : Z) :
  (-60 <= h <= 300)%Z -> degrees (IZR h * PI / 180) = IZR (h mod 360).
Proof.
  intros Hh.
  replace (IZR h * PI / 180) with (IZR h * (PI / 180)) by (unfold Rdiv; ring).
  rewrite degrees_of_degrees.
  destruct (Rlt_dec (IZR h) 0) as [Hneg | Hpos].
  - apply (lt_IZR h 0) in Hneg.
    replace (h mod 360)%Z with (h + 360)%Z.
    + rewrite plus_IZR. reflexivity.
    + apply (Z.mod_unique _ _ (-1)); lia.
  - apply Rnot_lt_le in Hpos. apply (le_IZR 0 h) in Hpos.
    rewrite Z.mod_small by lia. reflexivity.
Qed.

Lemma constructor_ignores_hue (i p : string) (r h h' oL oT rad : R) :
  setHue (constructor i p r h oL oT) rad
  = setHue (constructor i p r h' oL oT) rad.
Proof.
  unfold constructor. rewrite !setHue_setHue.
  cbv beta iota zeta delta
    [setHue redraw set_oxy set_hue id parentId radius ringsize hue color
     squareLength outerActive innerActive ox oy ix iy offsetLeft offsetTop].
  destruct (Rlt_dec (rad * (180 / PI)) 0); reflexivity.
Qed.

End Selecting.

(** The hue of a new picker for every whole number of degrees from -360
    to 360, one by one. *)
Lemma constructor_whole_degrees :
  forallb (fun k =>
      let d := (k - 360)%Z in
      Binary64.near (Binary64.constructor (Binary64.ofZ d))
        (Binary64.ofZ (if (d <? 0)%Z then d + 360 else d)))
    (below 721) = true.
Proof. vm_compute. reflexivity. Qed.

(** X11. A new picker: the selection of the square is at the centre, both
    flags are down, the ring is a fifth of the radius wide, the square is
    the one inscribed in the inner disk and the ring indicator is at the
    angle of the hue.  The hue argument, in degrees, goes to radians and
    back: for a whole number of degrees from -360 to 360 the stored hue is
    within 2^-44 of the argument, plus 360 when the argument is negative;
    it is not always the argument itself, 30 is stored as
    29.999999999999996. *)
Theorem constructor_state (id parentId : string)
    (radius hue offsetLeft offsetTop : R) (d : Z) :
  (-360 <= d <= 360)%Z ->
  let this :=
    HSLPicker.constructor id parentId radius hue offsetLeft offsetTop in
  Binary64.near (Binary64.constructor (Binary64.ofZ d))
    (Binary64.ofZ (if (d <? 0)%Z then d + 360 else d)) = true
  /\ PrimFloat.eqb (Binary64.constructor (Binary64.ofZ 30)) (Binary64.ofZ 30)
     = false
  /\ HSLPicker.ix this = radius /\ HSLPicker.iy this = radius
  /\ at_rest this
  /\ HSLPicker.radius this = radius
  /\ HSLPicker.ringsize this = (radius / 5)%R
  /\ HSLPicker.squareLength this = (sqrt 2 * (radius - radius / 5))%R
  /\ indicator_at_hue this.
Proof.
  intros Hd this.
  destruct (constructor_geometry id parentId radius hue offsetLeft offsetTop)
    as (Er & Es & El & _ & _ & Ex & Ey & _).
  fold this in Er, Es, El, Ex, Ey.
  split.
  { pose proof (below_all 721 _ (d + 360) constructor_whole_degrees
                  ltac:(lia)) as Hk.
    cbv beta zeta in Hk.
    replace (d + 360 - 360)%Z with d in Hk by lia. exact Hk. }
  split; [vm_compute; reflexivity |].
  repeat split; try assumption;
    try apply constructor_flags; try apply constructor_indicator.
Qed.

Lemma constructor_state_witness :
  (-360 <= 30 <= 360)%Z
  /\ Binary64.near (Binary64.constructor (Binary64.ofZ 30)) (Binary64.ofZ 30)
     = true
  /\ HSLPicker.ix (HSLPicker.constructor "picker" "parent" 200 30 0 0)
     = 200%R.
Proof.
  split; [lia |].
  pose proof (constructor_state "picker" "parent" 200 30 0 0 30
                ltac:(lia)) as H.
  cbv zeta in H.
  split; [apply H | apply H].
Defined.

(** X12. Inside the square the stored selection is the pointer moved one
    pixel towards the centre line and rounded: for a pointer within the
    square on both axes, [updateInner] stores [round(x - 1)] right of the
    centre and [round(x + 1)] otherwise, and the same for [y]; so each
    coordinate is an integer within 3/2 of the pointer's. *)
Theorem updateInner_inside (this : HSLPicker.t) (evt : HSLPicker.event) :
  let pos := HSLPicker.normalizePos this evt in
  let half := (HSLPicker.squareLength this / 2)%R in
  let next := HSLPicker.updateInner this evt in
  (HSLPicker.radius this - half <= fst pos <= HSLPicker.radius this + half)%R ->
  (HSLPicker.radius this - half <= snd pos <= HSLPicker.radius this + half)%R ->
  HSLPicker.ix next
  = Math.round (if Rlt_dec 0 (fst pos - HSLPicker.radius this)
                then fst pos - 1 else fst pos + 1)%R
  /\ HSLPicker.iy next
     = Math.round (if Rlt_dec 0 (snd pos - HSLPicker.radius this)
                   then snd pos - 1 else snd pos + 1)%R
  /\ (Rabs (HSLPicker.ix next - fst pos) <= 3 / 2)%R
  /\ (Rabs (HSLPicker.iy next - snd pos) <= 3 / 2)%R.
Proof.
  intros pos half next Hx Hy.
  assert (Ex : HSLPicker.ix next
               = Math.round (if Rlt_dec 0 (fst pos - HSLPicker.radius this)
                             then fst pos - 1 else fst pos + 1)%R).
  { unfold next, HSLPicker.updateInner, HSLPicker.redraw, HSLPicker._setIXY.
    cbn [HSLPicker.ix HSLPicker.set_ixy]. fold pos.
    rewrite clamp_inside by exact Hx. reflexivity. }
  assert (Ey : HSLPicker.iy next
               = Math.round (if Rlt_dec 0 (snd pos - HSLPicker.radius this)
                             then snd pos - 1 else snd pos + 1)%R).
  { unfold next, HSLPicker.updateInner, HSLPicker.redraw, HSLPicker._setIXY.
    cbn [HSLPicker.iy HSLPicker.set_ixy]. fold pos.
    rewrite clamp_inside by exact Hy. reflexivity. }
  split; [exact Ex |]. split; [exact Ey |].
  rewrite Ex, Ey. split; apply round_inset.
Qed.

Lemma updateInner_inside_witness :
  let this := HSLPicker.constructor "picker" "parent" 200 0 0 0 in
  let evt := HSLPicker.mkEvent HSLPicker.mousemove 250 150 in
  let pos := HSLPicker.normalizePos this evt in
  let half := (HSLPicker.squareLength this / 2)%R in
  let next := HSLPicker.updateInner this evt in
  (HSLPicker.radius this - half <= fst pos <= HSLPicker.radius this + half)%R
  /\ (HSLPicker.radius this - half <= snd pos
      <= HSLPicker.radius this + half)%R
  /\ (Rabs (HSLPicker.ix next - fst pos) <= 3 / 2)%R
  /\ (Rabs (HSLPicker.iy next - snd pos) <= 3 / 2)%R.
Proof.
  intros this evt pos half next.
  pose proof sqrt2_bounds as Hs.
  destruct (constructor_geometry "picker" "parent" 200 0 0 0)
    as (Er & _ & El & EoL & EoT & _).
  fold this in Er, El, EoL, EoT.
  assert (Ehalf : half = (sqrt 2 * (200 - 200 / 5) / 2)%R)
    by (unfold half; rewrite El; reflexivity).
  assert (Epos : pos = (250 - 0, 150 - 0)%R)
    by (unfold pos, HSLPicker.normalizePos; rewrite EoL, EoT; reflexivity).
  assert (Hx : (HSLPicker.radius this - half <= fst pos
                <= HSLPicker.radius this + half)%R)
    by (rewrite Er, Ehalf, Epos; cbn [fst]; lra).
  assert (Hy : (HSLPicker.radius this - half <= snd pos
                <= HSLPicker.radius this + half)%R)
    by (rewrite Er, Ehalf, Epos; cbn [snd]; lra).
  split; [exact Hx |]. split; [exact Hy |].
  exact (proj2 (proj2 (updateInner_inside this evt Hx Hy))).
Defined.

(** The hue that [setColor] stores for every whole number of degrees from
    -60 to 300, one by one. *)
Lemma setColor_whole_degrees :
  forallb (fun k =>
      Binary64.wrapped (Binary64.setColor_setHue (Binary64.ofZ (k - 60))))
    (below 361) = true.
Proof. vm_compute. reflexivity. Qed.

(** X13. [setColor] with colour channels always selects: the picker has a
    successor, whose hue is in [0, 360) with the ring indicator at its
    angle, and whose flags, radius, ring, square and offsets are as
    before.  The hue is in [0, 360) in binary64 as well: [setColor] passes
    to [setHue] a hue of whole degrees, from -60 to 300 as [RGBtoHSL]
    returns it, and for each of them the hue that is stored is in
    [0, 360). *)
Theorem setColor_selects (this : HSLPicker.t) (r g b h : Z) :
  (0 <= r <= 255)%Z -> (0 <= g <= 255)%Z -> (0 <= b <= 255)%Z ->
  (-60 <= h <= 300)%Z ->
  Binary64.wrapped (Binary64.setColor_setHue (Binary64.ofZ h)) = true
  /\ exists next,
    HSLPicker.setColor this (Num.ofZ r) (Num.ofZ g) (Num.ofZ b) = Some next
    /\ (0 <= HSLPicker.hue next < 360)%R
    /\ indicator_at_hue next
    /\ HSLPicker.outerActive next = HSLPicker.outerActive this
    /\ HSLPicker.innerActive next = HSLPicker.innerActive this
    /\ HSLPicker.radius next = HSLPicker.radius this
    /\ HSLPicker.ringsize next = HSLPicker.ringsize this
    /\ HSLPicker.squareLength next = HSLPicker.squareLength this
    /\ HSLPicker.offsetLeft next = HSLPicker.offsetLeft this
    /\ HSLPicker.offsetTop next = HSLPicker.offsetTop this.
Proof.
  intros Hr Hg Hb Hh.
  split.
  { pose proof (below_all 361 _ (h + 60) setColor_whole_degrees ltac:(lia))
      as Hk.
    cbv beta in Hk. replace (h + 60 - 60)%Z with h in Hk by lia. exact Hk. }
  clear h Hh.
  pose proof (setColor_ofZ this r g b Hr Hg Hb) as E.
  pose proof (HSLToHSB_Z_hue r g b Hr Hg Hb) as Hrange.
  destruct (RGBtoHSL_Z r g b) as [[h1 s1] l1].
  destruct (HSLToHSB_Z h1 s1 l1) as [[h s] v].
  destruct Hrange as (Hh & Hs & Hv).
  cbv zeta in E.
  eexists. split; [exact E |].
  split.
  { unfold HSLPicker._setIXY. cbn [HSLPicker.hue HSLPicker.set_ixy].
    rewrite hue_setHue, (degrees_of_integer h Hh).
    assert (Hmod : (0 <= h mod 360 < 360)%Z) by (apply Z.mod_pos_bound; lia).
    split; [apply (IZR_le 0) | apply (IZR_lt _ 360)]; lia. }
  split; [apply _setIXY_indicator, setHue_indicator |].
  unfold HSLPicker._setIXY.
  cbn [HSLPicker.outerActive HSLPicker.innerActive HSLPicker.radius
       HSLPicker.ringsize HSLPicker.squareLength HSLPicker.offsetLeft
       HSLPicker.offsetTop HSLPicker.set_ixy].
  rewrite setHue_radius, setHue_squareLength, setHue_ringsize,
    setHue_outerActive, setHue_innerActive, setHue_offsetLeft,
    setHue_offsetTop.
  repeat split; reflexivity.
Qed.

Lemma setColor_selects_witness :
  let this := HSLPicker.constructor "picker" "parent" 200 0 0 0 in
  (0 <= 255 <= 255)%Z /\ (0 <= 0 <= 255)%Z /\ (0 <= 255 <= 255)%Z
  /\ (-60 <= -60 <= 300)%Z
  /\ exists next,
      HSLPicker.setColor this (Num.ofZ 255) (Num.ofZ 0) (Num.ofZ 255)
      = Some next
      /\ (0 <= HSLPicker.hue next < 360)%R.
Proof.
  intros this.
  split; [lia |]. split; [lia |]. split; [lia |]. split; [lia |].
  destruct (setColor_selects this 255 0 255 (-60)
              ltac:(lia) ltac:(lia) ltac:(lia) ltac:(lia))
    as (_ & next & E & Ehue & _).
  exists next. split; [exact E | exact Ehue].
Defined.

(** ** [resize] *)

(** X14. [resize] gives a picker of the new size in good order: for a
    pixel with channels from 0 to 255 there is a new picker, with the new
    radius, the ring a fifth of it and the inscribed square, the identifiers
    of the old one, both flags down, the hue in [0, 360), the ring's
    indicator at the hue, and, from radius 3 on, the selection within the
    square. *)
Theorem resize_in_order
    (this : HSLPicker.t) (radius : R) (rgb : Pixel.t)
    (offsetLeft offsetTop : R) :
  Pixel.wf rgb ->
  exists next,
    HSLPicker.resize this radius rgb offsetLeft offsetTop = Some next
    /\ HSLPicker.radius next = radius
    /\ HSLPicker.ringsize next = (radius / 5)%R
    /\ inscribed next
    /\ HSLPicker.id next = HSLPicker.id this
    /\ HSLPicker.parentId next = HSLPicker.parentId this
    /\ at_rest next
    /\ (0 <= HSLPicker.hue next < 360)%R
    /\ indicator_at_hue next
    /\ ((3 <= radius)%R -> inner_in_square next).
Proof.
  intros (Hr & Hg & Hb). unfold Pixel.channel in *. unfold HSLPicker.resize.
  set (new := HSLPicker.constructor _ _ _ _ _ _).
  destruct (constructor_geometry (HSLPicker.id this) (HSLPicker.parentId this)
              radius (HSLPicker.hue this) offsetLeft offsetTop)
    as (Er & Es & El & _ & _ & _ & _ & Ei & Ep).
  fold new in Er, Es, El, Ei, Ep.
  pose proof (setColor_ofZ new _ _ _ Hr Hg Hb) as E.
  pose proof (HSLToHSB_Z_hue _ _ _ Hr Hg Hb) as Hrange.
  destruct (RGBtoHSL_Z _ _ _) as [[h1 s1] l1].
  destruct (HSLToHSB_Z h1 s1 l1) as [[h s] v].
  destruct Hrange as (Hh & _).
  cbv zeta in E.
  set (mid := HSLPicker.setHue new (IZR h * PI / 180)) in *.
  destruct (setHue_frame_hue_oxy new (IZR h * PI / 180))
    as (Ei' & Ep' & Er' & Es' & _ & El' & Eo' & Ea' & _).
  fold mid in Ei', Ep', Er', Es', El', Eo', Ea'.
  assert (Hhue : HSLPicker.hue mid = IZR (h mod 360))
    by (unfold mid; rewrite hue_setHue; apply degrees_of_integer, Hh).
  assert (Hmod : (0 <= h mod 360 < 360)%Z) by (apply Z.mod_pos_bound; lia).
  assert (Hrest : at_rest new) by apply constructor_flags.
  destruct Hrest as [Ho Hi].
  eexists. split; [exact E |].
  split; [change (HSLPicker.radius mid = radius); congruence |].
  split; [change (HSLPicker.ringsize mid = (radius / 5)%R); congruence |].
  split.
  { change (HSLPicker.squareLength mid
            = (sqrt 2 * (HSLPicker.radius mid - HSLPicker.ringsize mid))%R).
    rewrite El', Er', Es', El, Er, Es. reflexivity. }
  split; [change (HSLPicker.id mid = HSLPicker.id this); congruence |].
  split;
    [change (HSLPicker.parentId mid = HSLPicker.parentId this); congruence |].
  split.
  { change (HSLPicker.outerActive mid = false
            /\ HSLPicker.innerActive mid = false).
    split; congruence. }
  split.
  { change (0 <= HSLPicker.hue mid < 360)%R. rewrite Hhue.
    split; [apply (IZR_le 0) | apply (IZR_lt _ 360)]; lia. }
  split; [apply _setIXY_indicator, setHue_indicator |].
  intros Hradius. apply _setIXY_in_square.
  rewrite El'. apply square_of_radius_3, Hradius.
Qed.

Lemma resize_in_order_witness :
  let this := HSLPicker.constructor "picker" "parent" 200 120 0 0 in
  let rgb := {| Pixel.r := 12; Pixel.g := 200; Pixel.b := 255 |} in
  Pixel.wf rgb
  /\ exists next,
      HSLPicker.resize this 80 rgb 8 8 = Some next
      /\ HSLPicker.radius next = 80%R
      /\ at_rest next
      /\ (0 <= HSLPicker.hue next < 360)%R.
Proof.
  intros this rgb.
  assert (Hwf : Pixel.wf rgb) by (unfold Pixel.wf, Pixel.channel; cbn; lia).
  split; [exact Hwf |].
  destruct (resize_in_order this 80 rgb 8 8 Hwf)
    as (next & E & Er & _ & _ & _ & _ & Hrest & Hhue & _).
  exists next. auto.
Defined.

(** X15. [resize] takes the hue from the pixel, not from the old picker:
    the old hue goes to the constructor and is overwritten by [setColor],
    so the new picker is the same whatever the old hue was. *)
Theorem resize_forgets_hue
    (this : HSLPicker.t) (hue radius : R) (rgb : Pixel.t)
    (offsetLeft offsetTop : R) :
  HSLPicker.resize (HSLPicker.set_hue this hue) radius rgb offsetLeft offsetTop
  = HSLPicker.resize this radius rgb offsetLeft offsetTop.
Proof.
  unfold HSLPicker.resize, HSLPicker.setColor.
  cbn [HSLPicker.id HSLPicker.parentId HSLPicker.hue HSLPicker.set_hue].
  destruct (Math.toR _) as [h |]; [| reflexivity].
  destruct (Math.toR _) as [s |]; [| reflexivity].
  destruct (Math.toR _) as [v |]; [| reflexivity].
  rewrite (constructor_ignores_hue _ _ _ hue (HSLPicker.hue this)).
  reflexivity.
Qed.

(** ** The last colour set *)

Section Overriding.

Import HSLPicker.
Local Open Scope R_scope.

Lemma setHue_frame_selection (this : t) (rad : R) :
  frame_selection this (setHue this rad).
Proof.
  destruct (setHue_frame_hue_oxy this rad)
    as (? & ? & ? & ? & ? & ? & ? & ? & _ & _ & ? & ?).
  unfold frame_selection. auto 12.
Qed.

Lemma _setIXY_frame_selection (this : t) (x y : R) :
  frame_selection this (_setIXY this x y).
Proof. unfold frame_selection, _setIXY. cbn. auto 12. Qed.

Lemma frame_selection_trans (a b c : t) :
  frame_selection a b -> frame_selection b c -> frame_selection a c.
Proof.
  unfold frame_selection.
  intros (? & ? & ? & ? & ? & ? & ? & ? & ? & ?)
         (? & ? & ? & ? & ? & ? & ? & ? & ? & ?).
  repeat split; congruence.
Qed.

Lemma setColor_frame_selection (this next : t) (r g b : num) :
  setColor this r g b = Some next -> frame_selection this next.
Proof.
  unfold setColor.
  destruct (Math.toR _) as [h |]; [| discriminate].
  destruct (Math.toR _) as [s |]; [| discriminate].
  destruct (Math.toR _) as [v |]; [| discriminate].
  intros [= <-]. unfold redraw.
  eapply frame_selection_trans;
    [apply setHue_frame_selection | apply _setIXY_frame_selection].
Qed.

(** [setHue] and then [_setIXY] with given arguments assign all of [hue],
    [ox], [oy], [ix] and [iy]. *)
Lemma select_overrides (a b : t) (rad x y : R) :
  frame_selection a b ->
  _setIXY (setHue b rad) x y = _setIXY (setHue a rad) x y.
Proof.
  destruct a, b. unfold frame_selection.
  cbn [id parentId radius ringsize color squareLength outerActive
       innerActive offsetLeft offsetTop].
  intros (? & ? & ? & ? & ? & ? & ? & ? & ? & ?). subst.
  cbv beta iota zeta delta
    [_setIXY set_ixy setHue redraw set_oxy set_hue id parentId radius
     ringsize hue color squareLength outerActive innerActive ox oy ix iy
     offsetLeft offsetTop].
  destruct (Rlt_dec (rad * (180 / PI)) 0); reflexivity.
Qed.

Lemma setColor_overrides (a b : t) (r g v : num) :
  frame_selection a b -> setColor b r g v = setColor a r g v.
Proof.
  intros Hframe. unfold setColor.
  destruct (Math.toR _) as [h |]; [| reflexivity].
  destruct (Math.toR _) as [s |]; [| reflexivity].
  destruct (Math.toR _) as [w |]; [| reflexivity].
  unfold redraw.
  rewrite !setHue_radius, !setHue_squareLength.
  pose proof Hframe as (_ & _ & Er & _ & _ & El & _).
  rewrite Er, El. f_equal. apply select_overrides, Hframe.
Qed.

End Overriding.

(** X16. [setColor] decides the hue and both selections alone: after any
    sequence of [updateInner] calls and of [setColor] calls with colour
    channels, a [setColor] gives the picker that it gives without them. *)
Theorem setColor_forgets_history
    (this : HSLPicker.t) (calls : list HSLPicker.call) (r g b : Z) :
  forallb HSLPicker.colour_call calls = true ->
  HSLPicker.perform_all this (calls ++ [HSLPicker.SetColor r g b])
  = HSLPicker.perform_all this [HSLPicker.SetColor r g b].
Proof.
  intros Hok.
  assert (Hgen : forall start : HSLPicker.t,
             frame_selection this start ->
             HSLPicker.perform_all start (calls ++ [HSLPicker.SetColor r g b])
             = HSLPicker.perform_all this [HSLPicker.SetColor r g b]).
  { induction calls as [| c rest IH]; intros start Hframe.
    - cbn [app HSLPicker.perform_all HSLPicker.perform].
      rewrite (setColor_overrides this start _ _ _ Hframe). reflexivity.
    - cbn [forallb] in Hok. apply andb_prop in Hok.
      destruct Hok as [Hc Hrest].
      cbn [app HSLPicker.perform_all].
      destruct c as [evt | r' g' b']; cbn [HSLPicker.perform].
      + apply (IH Hrest). eapply frame_selection_trans; [exact Hframe |].
        apply _setIXY_frame_selection.
      + cbn [HSLPicker.colour_call] in Hc.
        repeat (apply andb_prop in Hc; destruct Hc as [Hc ?]).
        destruct (setColor_colour start r' g' b') as [next Enext]; try lia.
        rewrite Enext. apply (IH Hrest).
        eapply frame_selection_trans; [exact Hframe |].
        eapply setColor_frame_selection, Enext. }
  apply Hgen. unfold frame_selection. tauto.
Qed.

Lemma setColor_forgets_history_witness :
  let this := HSLPicker.constructor "picker" "parent" 200 0 0 0 in
  let calls :=
    [HSLPicker.SetColor 255 0 255;
     HSLPicker.UpdateInner (HSLPicker.mkEvent HSLPicker.mousemove 260 140)] in
  forallb HSLPicker.colour_call calls = true
  /\ HSLPicker.perform_all this (calls ++ [HSLPicker.SetColor 12 200 255])
     = HSLPicker.perform_all this [HSLPicker.SetColor 12 200 255].
Proof.
  intros this calls. split; [reflexivity |].
  apply (setColor_forgets_history this calls 12 200 255). reflexivity.
Defined.

(** ** Greys and channels that are no numbers *)

Section Degenerate.

Local Open Scope Q_scope.

Lemma max2_same (a : Q) : Num.max2 (Fin a) (Fin a) = Fin a.
Proof.
  unfold Num.max2. cbn [Num.isNaN orb].
  destruct (Fin a <? Fin a)%num; reflexivity.
Qed.

Lemma min2_same (a : Q) : Num.min2 (Fin a) (Fin a) = Fin a.
Proof.
  unfold Num.min2. cbn [Num.isNaN orb].
  destruct (Fin a <? Fin a)%num; reflexivity.
Qed.

(** [RGBtoHSL] of three equal finite channels. *)
Lemma RGBtoHSL_grey (q : Q) :
  ColorConvert.RGBtoHSL (Fin q) (Fin q) (Fin q)
  = {| Hsl.h := Num.ofZ 0; Hsl.s := Num.ofZ 0;
       Hsl.l := Num.ofZ (Qfloor (q * (20 # 51) + (1 # 2))) |}.
Proof.
  unfold ColorConvert.RGBtoHSL.
  rewrite (div_Fin q 255) by (intros E; discriminate E).
  unfold Num.max, Num.min. rewrite !max2_same, !min2_same.
  replace (Fin (q / 255) == Fin (q / 255))%num with true
    by (symmetry; apply eqb_Fin_true; reflexivity).
  cbv beta iota zeta.
  cbn [Num.add Num.mul Num.round].
  rewrite (div_Fin _ 2) by (intros E; discriminate E).
  cbn [Num.mul Num.round].
  f_equal. f_equal. apply Qfloor_comp. field.
Qed.

Lemma max2_NaN_l (y : num) : Num.max2 NaN y = NaN.
Proof. reflexivity. Qed.

Lemma max2_NaN_r (x : num) : Num.max2 x NaN = NaN.
Proof. unfold Num.max2. cbn [Num.isNaN]. rewrite orb_true_r. reflexivity. Qed.

Lemma min2_NaN_l (y : num) : Num.min2 NaN y = NaN.
Proof. reflexivity. Qed.

Lemma min2_NaN_r (x : num) : Num.min2 x NaN = NaN.
Proof. unfold Num.min2. cbn [Num.isNaN]. rewrite orb_true_r. reflexivity. Qed.

Lemma isNaN_NaN (x : num) : Num.isNaN x = true -> x = NaN.
Proof. destruct x; [discriminate | discriminate | reflexivity]. Qed.

(** [Math.max] and [Math.min] of three numbers of which one is [NaN]. *)
Lemma max_min_NaN (r g b : num) :
  r = NaN \/ g = NaN \/ b = NaN ->
  Num.max r g b = NaN /\ Num.min r g b = NaN.
Proof.
  unfold Num.max, Num.min.
  intros [-> | [-> | ->]];
    rewrite ?max2_NaN_l, ?max2_NaN_r, ?min2_NaN_l, ?min2_NaN_r,
      ?max2_NaN_l, ?min2_NaN_l;
    split; reflexivity.
Qed.

Lemma RGBtoHSL_NaN (r g b : num) :
  Num.isNaN r = true \/ Num.isNaN g = true \/ Num.isNaN b = true ->
  ColorConvert.RGBtoHSL r g b
  = {| Hsl.h := NaN; Hsl.s := NaN; Hsl.l := NaN |}.
Proof.
  intros H. unfold ColorConvert.RGBtoHSL.
  destruct (max_min_NaN (r / Fin 255)%num (g / Fin 255)%num (b / Fin 255)%num)
    as [-> ->].
  - destruct H as [H | [H | H]]; apply isNaN_NaN in H; subst; auto.
  - reflexivity.
Qed.

Lemma setColor_NaN (this : HSLPicker.t) (r g b : num) :
  Num.isNaN r = true \/ Num.isNaN g = true \/ Num.isNaN b = true ->
  HSLPicker.setColor this r g b = None.
Proof.
  intros H. unfold HSLPicker.setColor. rewrite (RGBtoHSL_NaN r g b H).
  reflexivity.
Qed.

End Degenerate.

(** X17. Three equal finite channels, integers or not, have hue 0 and
    saturation 0 in [RGBtoHSL]; and [setColor] with a grey colour channel
    sets the hue to 0, whatever it was, and, in a square of length 0 or
    more, puts the selection on the left edge of the square, one pixel
    in. *)
Theorem grey_resets_hue (q : Q) (this : HSLPicker.t) (v : Z) :
  (0 <= v <= 255)%Z ->
  (0 <= HSLPicker.squareLength this)%R ->
  Hsl.h (ColorConvert.RGBtoHSL (Fin q) (Fin q) (Fin q)) = Num.ofZ 0
  /\ Hsl.s (ColorConvert.RGBtoHSL (Fin q) (Fin q) (Fin q)) = Num.ofZ 0
  /\ exists next,
      HSLPicker.setColor this (Num.ofZ v) (Num.ofZ v) (Num.ofZ v) = Some next
      /\ HSLPicker.hue next = 0%R
      /\ HSLPicker.ix next
         = Math.round (HSLPicker.radius this - HSLPicker.squareLength this / 2
                       + 1)%R.
Proof.
  intros Hv Hsq. rewrite RGBtoHSL_grey.
  split; [reflexivity |]. split; [reflexivity |].
  pose proof (setColor_ofZ this v v v Hv Hv Hv) as E.
  assert (Egrey : exists l, RGBtoHSL_Z v v v = (0, 0, l)%Z).
  { unfold RGBtoHSL_Z. rewrite !Z.max_id, !Z.min_id, Z.eqb_refl. eauto. }
  destruct Egrey as [l El]. rewrite El in E.
  assert (Ehsb : exists b, HSLToHSB_Z 0 0 l = (0, 0, b)%Z).
  { unfold HSLToHSB_Z. destruct (_ =? 0)%Z eqn:En; [eauto |].
    eexists. f_equal. f_equal.
    apply Z.eqb_neq in En.
    replace (100 * l + 0 * (50 - Z.abs (l - 50)) - 100 * l)%Z with 0%Z by lia.
    apply Z.div_small.
    assert (0 < 100 * l + 0 * (50 - Z.abs (l - 50)))%Z; [| lia].
    pose proof (RGBtoHSL_Z_range v v v Hv Hv Hv) as Hrange.
    rewrite El in Hrange. lia. }
  destruct Ehsb as [b Eb]. rewrite Eb in E. cbv zeta in E.
  eexists. split; [exact E |].
  unfold HSLPicker._setIXY.
  cbn [HSLPicker.hue HSLPicker.ix HSLPicker.set_ixy].
  rewrite hue_setHue, setHue_radius, setHue_squareLength.
  split.
  - rewrite (degrees_of_integer 0) by lia. reflexivity.
  - f_equal.
    destruct (Rlt_dec _ _) as [Hpos | Hneg]; [lra |].
    unfold Math.max. rewrite Rmax_left by lra. lra.
Qed.

Lemma grey_resets_hue_witness :
  let this := HSLPicker.constructor "picker" "parent" 200 120 0 0 in
  (0 <= 128 <= 255)%Z
  /\ (0 <= HSLPicker.squareLength this)%R
  /\ exists next,
      HSLPicker.setColor this (Num.ofZ 128) (Num.ofZ 128) (Num.ofZ 128)
      = Some next
      /\ HSLPicker.hue next = 0%R.
Proof.
  intros this.
  assert (Hsq : (0 <= HSLPicker.squareLength this)%R).
  { pose proof (square_of_radius_3 "picker" "parent" 200 120 0 0).
    fold this in H. lra. }
  split; [lia |]. split; [exact Hsq |].
  destruct (grey_resets_hue 0 this 128 ltac:(lia) Hsq)
    as (_ & _ & next & E & Ehue & _).
  exists next. auto.
Defined.

(** X18. A channel that is [NaN] poisons the colour: [RGBtoHSL] returns
    [NaN] in all three fields whatever the other channels are, and
    [setColor] has no picker with finite fields to go to. *)
Theorem setColor_NaN_channel (this : HSLPicker.t) (r g b : num) :
  Num.isNaN r = true \/ Num.isNaN g = true \/ Num.isNaN b = true ->
  ColorConvert.RGBtoHSL r g b = {| Hsl.h := NaN; Hsl.s := NaN; Hsl.l := NaN |}
  /\ HSLPicker.setColor this r g b = None.
Proof.
  intros H. split; [apply RGBtoHSL_NaN | apply setColor_NaN]; exact H.
Qed.

Lemma setColor_NaN_channel_witness :
  (Num.isNaN (Fin 255) = true \/ Num.isNaN (Inf false) = true
   \/ Num.isNaN NaN = true)
  /\ HSLPicker.setColor (HSLPicker.constructor "picker" "parent" 200 0 0 0)
       (Fin 255) (Inf false) NaN = None.
Proof.
  assert (H : Num.isNaN (Fin 255) = true \/ Num.isNaN (Inf false) = true
              \/ Num.isNaN NaN = true) by (right; right; reflexivity).
  split; [exact H |].
  exact (proj2 (setColor_NaN_channel _ (Fin 255) (Inf false) NaN H)).
Defined.

(** X19. [setColorHex] has no check of its argument: when the text left
    after removing the first ['#'] has at most 4 characters the blue
    channel is [NaN], and the picker has no state with finite fields to go
    to. *)
Theorem setColorHex_short (this : HSLPicker.t) (hex : string) :
  (String.length (ColorConvert.replace hex "#") <= 4)%nat ->
  HSLPicker.setColorHex this hex = None.
Proof.
  intros Hlen. unfold HSLPicker.setColorHex.
  apply setColor_NaN. right. right.
  unfold ColorConvert.HexToRGB, ColorConvert.substring.
  cbn [Rgb.b Nat.min Nat.max Nat.sub].
  rewrite (substring_beyond 4 2 _ Hlen). reflexivity.
Qed.

Lemma setColorHex_short_witness :
  (String.length (ColorConvert.replace "#fff" "#") <= 4)%nat
  /\ HSLPicker.setColorHex (HSLPicker.constructor "picker" "parent" 200 0 0 0)
       "#fff" = None.
Proof.
  split; [cbn; lia | apply (setColorHex_short _ "#fff"); cbn; lia].
Defined.

(** ** The sector of the hue *)

Lemma RGBtoHSL_Z_sector (r g b : Z) :
  (0 <= r <= 255)%Z -> (0 <= g <= 255)%Z -> (0 <= b <= 255)%Z ->
  let M := Z.max (Z.max r g) b in
  let m := Z.min (Z.min r g) b in
  let '(h, _, _) := RGBtoHSL_Z r g b in
  ((M = m -> h = 0)
   /\ (M <> m -> r = M -> -60 <= h <= 60)
   /\ (r < M -> g = M -> 60 <= h <= 180)
   /\ (r < M -> g < M -> 180 <= h <= 300)
   /\ (h < 0 -> r = M /\ g < b))%Z.
Proof.
  intros Hr Hg Hb M m. unfold RGBtoHSL_Z. fold M m.
  assert (HM : (m <= M /\ 0 <= m /\ M <= 255 /\ m <= r <= M /\ m <= g <= M
                /\ m <= b <= M)%Z) by lia.
  destruct (Z.eqb_spec M m) as [HMm | HMm].
  { repeat split; intros; lia. }
  set (d := (M - m)%Z).
  assert (Hd : (0 < d)%Z) by lia.
  destruct (Z.eqb_spec M r) as [Er | Er]; [| destruct (Z.eqb_spec M g) as [Eg | Eg]].
  - assert (Hlo : (-60 <= (120 * (g - b) + d) / (2 * d))%Z)
      by (apply Z.div_le_lower_bound; lia).
    assert (Hhi : ((120 * (g - b) + d) / (2 * d) <= 60)%Z)
      by (apply Z.lt_succ_r, Z.div_lt_upper_bound; lia).
    repeat split; intros; try lia.
    destruct (Z.lt_ge_cases g b) as [Hlt | Hge]; [exact Hlt |].
    assert (0 <= (120 * (g - b) + d) / (2 * d))%Z
      by (apply Z.div_le_lower_bound; lia).
    lia.
  - assert (Hlo : (60 <= (120 * (2 * d + (b - r)) + d) / (2 * d))%Z)
      by (apply Z.div_le_lower_bound; lia).
    assert (Hhi : ((120 * (2 * d + (b - r)) + d) / (2 * d) <= 180)%Z)
      by (apply Z.lt_succ_r, Z.div_lt_upper_bound; lia).
    repeat split; intros; lia.
  - assert (Hlo : (180 <= (120 * (4 * d + (r - g)) + d) / (2 * d))%Z)
      by (apply Z.div_le_lower_bound; lia).
    assert (Hhi : ((120 * (4 * d + (r - g)) + d) / (2 * d) <= 300)%Z)
      by (apply Z.lt_succ_r, Z.div_lt_upper_bound; lia).
    repeat split; intros; lia.
Qed.

(** X20. The hue of [RGBtoHSL] tells the largest channel: for colour
    channels it is 0 when all three are equal; else from -60 to 60 when red
    is a largest one, from 60 to 180 when green is and red is not, and from
    180 to 300 when blue alone is.  It is negative only when red is a
    largest channel and blue is above green. *)
Theorem RGBtoHSL_hue_sector (r g b : Z) :
  (0 <= r <= 255)%Z -> (0 <= g <= 255)%Z -> (0 <= b <= 255)%Z ->
  let M := Z.max (Z.max r g) b in
  let m := Z.min (Z.min r g) b in
  exists h : Z,
    Hsl.h (ColorConvert.RGBtoHSL (Num.ofZ r) (Num.ofZ g) (Num.ofZ b))
    = Num.ofZ h
    /\ (M = m -> h = 0)%Z
    /\ (M <> m -> r = M -> -60 <= h <= 60)%Z
    /\ (r < M -> g = M -> 60 <= h <= 180)%Z
    /\ (r < M -> g < M -> 180 <= h <= 300)%Z
    /\ (h < 0 -> r = M /\ g < b)%Z.
Proof.
  intros Hr Hg Hb M m.
  pose proof (RGBtoHSL_ofZ r g b Hr Hg Hb) as E.
  pose proof (RGBtoHSL_Z_sector r g b Hr Hg Hb) as Hsector.
  cbv zeta in Hsector. fold M m in Hsector.
  destruct (RGBtoHSL_Z r g b) as [[h s] l].
  exists h. rewrite E. split; [reflexivity | exact Hsector].
Qed.

Lemma RGBtoHSL_hue_sector_witness :
  (0 <= 200 <= 255)%Z /\ (0 <= 10 <= 255)%Z /\ (0 <= 90 <= 255)%Z
  /\ exists h : Z,
      Hsl.h (ColorConvert.RGBtoHSL (Num.ofZ 200) (Num.ofZ 10) (Num.ofZ 90))
      = Num.ofZ h
      /\ (-60 <= h <= 60)%Z.
Proof.
  split; [lia |]. split; [lia |]. split; [lia |].
  destruct (RGBtoHSL_hue_sector 200 10 90 ltac:(lia) ltac:(lia) ltac:(lia))
    as (h & E & _ & Hred & _).
  exists h. split; [exact E |]. apply Hred; [discriminate | reflexivity].
Defined.

(** ** The angle of the pointer *)

Section Angle.

Import HSLPicker.
Local Open Scope R_scope.

Lemma atan2_right (x : R) : 0 < x -> Math.atan2 0 x = 0.
Proof.
  intros Hx. unfold Math.atan2.
  destruct (total_order_T x 0) as [[Hlt | Heq] | Hgt]; try lra.
  unfold Rdiv. rewrite Rmult_0_l. apply atan_0.
Qed.

Lemma atan2_left (x : R) : x < 0 -> Math.atan2 0 x = PI.
Proof.
  intros Hx. unfold Math.atan2.
  destruct (total_order_T x 0) as [[Hlt | Heq] | Hgt]; try lra.
  destruct (Rle_dec 0 0) as [_ | Hn]; [| lra].
  unfold Rdiv. rewrite Rmult_0_l, atan_0. lra.
Qed.

Lemma atan2_below (y : R) : 0 < y -> Math.atan2 y 0 = PI / 2.
Proof.
  intros Hy. unfold Math.atan2.
  destruct (total_order_T 0 0) as [[Hlt | _] | Hgt]; try lra.
  destruct (total_order_T y 0) as [[Hlt | Heq] | Hgt]; lra.
Qed.

Lemma atan2_above (y : R) : y < 0 -> Math.atan2 y 0 = - (PI / 2).
Proof.
  intros Hy. unfold Math.atan2.
  destruct (total_order_T 0 0) as [[Hlt | _] | Hgt]; try lra.
  destruct (total_order_T y 0) as [[Hlt | Heq] | Hgt]; lra.
Qed.

Lemma degrees_quarters :
  degrees 0 = 0 /\ degrees (PI / 2) = 90 /\ degrees PI = 180
  /\ degrees (- (PI / 2)) = 270.
Proof.
  pose proof PI_RGT_0 as Hpi. unfold degrees.
  replace (0 * (180 / PI)) with 0 by (field; lra).
  replace (PI / 2 * (180 / PI)) with 90 by (field; lra).
  replace (PI * (180 / PI)) with 180 by (field; lra).
  replace (- (PI / 2) * (180 / PI)) with (-90) by (field; lra).
  destruct (Rlt_dec 0 0), (Rlt_dec 90 0), (Rlt_dec 180 0), (Rlt_dec (-90) 0);
    lra.
Qed.

(** The length of the vector [(x, y)], and its quotient by a coordinate. *)
Lemma sqrt_slope (x y : R) :
  0 < x -> sqrt (1 + (y / x)²) = sqrt (x * x + y * y) / x.
Proof.
  intros Hx.
  assert (Hd : 0 <= sqrt (x * x + y * y)) by apply sqrt_pos.
  apply sqrt_lem_1.
  - unfold Rsqr. nra.
  - unfold Rdiv. apply Rmult_le_pos; [exact Hd |].
    left. apply Rinv_0_lt_compat, Hx.
  - unfold Rsqr.
    replace (sqrt (x * x + y * y) / x * (sqrt (x * x + y * y) / x))
      with (sqrt (x * x + y * y) * sqrt (x * x + y * y) / (x * x))
      by (field; lra).
    rewrite sqrt_def by nra. field. lra.
Qed.

Lemma sqrt_slope_neg (x y : R) :
  x < 0 -> sqrt (1 + (y / x)²) = sqrt (x * x + y * y) / - x.
Proof.
  intros Hx.
  replace (y / x) with (- y / - x) by (field; lra).
  rewrite (sqrt_slope (- x) (- y)) by lra.
  f_equal. f_equal. ring.
Qed.

(** [Math.atan2(y, x)] is the angle of [(x, y)]. *)
Lemma atan2_cos_sin (y x : R) :
  let d := sqrt (x * x + y * y) in
  0 < d -> cos (Math.atan2 y x) = x / d /\ sin (Math.atan2 y x) = y / d.
Proof.
  intros d Hd. unfold Math.atan2.
  destruct (total_order_T x 0) as [[Hx | Hx] | Hx].
  - assert (Ec : cos (atan (y / x)) = - (x / d)).
    { rewrite cos_atan, sqrt_slope_neg by exact Hx. fold d. field. lra. }
    assert (Es : sin (atan (y / x)) = - (y / d)).
    { rewrite sin_atan, sqrt_slope_neg by exact Hx. fold d. field. lra. }
    destruct (Rle_dec 0 y).
    + rewrite neg_cos, neg_sin, Ec, Es. split; ring.
    + unfold Rminus. rewrite cos_plus, sin_plus, cos_neg, sin_neg, cos_PI, sin_PI, Ec, Es.
      split; ring.
  - subst x.
    assert (Edd : d * d = y * y).
    { unfold d. rewrite sqrt_def by nra. ring. }
    destruct (total_order_T y 0) as [[Hy | Hy] | Hy].
    + assert (E : d = - y) by nra.
      rewrite cos_neg, sin_neg, cos_PI2, sin_PI2, E. split; field; lra.
    + subst y. unfold d in Hd.
      replace (0 * 0 + 0 * 0) with 0 in Hd by ring.
      rewrite sqrt_0 in Hd. lra.
    + assert (E : d = y) by nra.
      rewrite cos_PI2, sin_PI2, E. split; field; lra.
  - split.
    + rewrite cos_atan, sqrt_slope by exact Hx. fold d. field. lra.
    + rewrite sin_atan, sqrt_slope by exact Hx. fold d. field. lra.
Qed.

Lemma distance_sym (this : t) (pos : R * R) :
  distance this pos
  = sqrt ((fst pos - radius this) * (fst pos - radius this)
          + (snd pos - radius this) * (snd pos - radius this)).
Proof. unfold distance. f_equal. ring. Qed.

End Angle.

(** X21. The hue is measured clockwise on the screen from the right: a
    pointer straight to the right of the centre gives hue 0, straight below
    90, straight to the left 180 and straight above 270, at whatever
    distance. *)
Theorem updateOuter_quarters (this : HSLPicker.t) (evt : HSLPicker.event) :
  let pos := HSLPicker.normalizePos this evt in
  let next := HSLPicker.updateOuter this evt in
  (snd pos = HSLPicker.radius this ->
   (HSLPicker.radius this < fst pos)%R -> HSLPicker.hue next = 0%R)
  /\ (fst pos = HSLPicker.radius this ->
      (HSLPicker.radius this < snd pos)%R -> HSLPicker.hue next = 90%R)
  /\ (snd pos = HSLPicker.radius this ->
      (fst pos < HSLPicker.radius this)%R -> HSLPicker.hue next = 180%R)
  /\ (fst pos = HSLPicker.radius this ->
      (snd pos < HSLPicker.radius this)%R -> HSLPicker.hue next = 270%R).
Proof.
  intros pos next. unfold next, HSLPicker.updateOuter. fold pos.
  rewrite hue_setHue.
  destruct degrees_quarters as (E0 & E90 & E180 & E270).
  repeat split; intros -> H.
  - rewrite Rminus_diag, atan2_right by lra. exact E0.
  - rewrite Rminus_diag, atan2_below by lra. exact E90.
  - rewrite Rminus_diag, atan2_left by lra. exact E180.
  - rewrite Rminus_diag, atan2_above by lra. exact E270.
Qed.

Lemma updateOuter_quarters_witness :
  let this := HSLPicker.constructor "picker" "parent" 200 0 0 0 in
  HSLPicker.hue
    (HSLPicker.updateOuter this (HSLPicker.mkEvent HSLPicker.mousedown 200 390))
  = 90%R
  /\ HSLPicker.hue
       (HSLPicker.updateOuter this
          (HSLPicker.mkEvent HSLPicker.mousemove 200 10))
     = 270%R.
Proof.
  intros this.
  destruct (constructor_geometry "picker" "parent" 200 0 0 0)
    as (Er & _ & _ & EoL & EoT & _).
  fold this in Er, EoL, EoT.
  split.
  - apply (updateOuter_quarters this
             (HSLPicker.mkEvent HSLPicker.mousedown 200 390));
      unfold HSLPicker.normalizePos; rewrite Er, EoL, EoT; cbn; lra.
  - apply (updateOuter_quarters this
             (HSLPicker.mkEvent HSLPicker.mousemove 200 10));
      unfold HSLPicker.normalizePos; rewrite Er, EoL, EoT; cbn; lra.
Defined.

(** X22. The indicator of the ring points at the pointer: for a pointer
    that is not at the centre, [updateOuter] puts [(ox, oy)] on the ray
    from the centre through the pointer, at the distance
    [radius - ringsize / 2] from the centre. *)
Theorem indicator_towards_pointer
    (this : HSLPicker.t) (evt : HSLPicker.event) :
  let pos := HSLPicker.normalizePos this evt in
  let dist := HSLPicker.distance this pos in
  let ringMiddle :=
    (HSLPicker.radius this - HSLPicker.ringsize this / 2)%R in
  let next := HSLPicker.updateOuter this evt in
  (0 < dist)%R ->
  HSLPicker.ox next
  = (HSLPicker.radius this
     + ringMiddle * ((fst pos - HSLPicker.radius this) / dist))%R
  /\ HSLPicker.oy next
     = (HSLPicker.radius this
        + ringMiddle * ((snd pos - HSLPicker.radius this) / dist))%R.
Proof.
  intros pos dist ringMiddle next Hd.
  unfold next, HSLPicker.updateOuter. fold pos.
  destruct (setHue_oxy this
              (Math.atan2 (snd pos - HSLPicker.radius this)
                          (fst pos - HSLPicker.radius this))) as [-> ->].
  unfold dist in *. rewrite distance_sym in *.
  destruct (atan2_cos_sin (snd pos - HSLPicker.radius this)
              (fst pos - HSLPicker.radius this) Hd) as [-> ->].
  unfold ringMiddle. split; ring.
Qed.

Lemma indicator_towards_pointer_witness :
  let this := HSLPicker.constructor "picker" "parent" 200 0 0 0 in
  let evt := HSLPicker.mkEvent HSLPicker.mousedown 320 360 in
  let next := HSLPicker.updateOuter this evt in
  (0 < HSLPicker.distance this (HSLPicker.normalizePos this evt))%R
  /\ HSLPicker.ox next = 308%R /\ HSLPicker.oy next = 344%R.
Proof.
  intros this evt next.
  assert (Ed : HSLPicker.distance this (HSLPicker.normalizePos this evt)
               = 200%R).
  { unfold this. rewrite constructor_distance.
    cbn [HSLPicker.pageX HSLPicker.pageY evt].
    replace ((200 - (320 - 0)) ^ 2 + (200 - (360 - 0)) ^ 2)%R
      with (200 * 200)%R by lra.
    apply sqrt_square. lra. }
  assert (Hd : (0 < HSLPicker.distance this (HSLPicker.normalizePos this evt))%R)
    by (rewrite Ed; lra).
  split; [exact Hd |].
  destruct (indicator_towards_pointer this evt Hd) as [Ex Ey].
  fold next in Ex, Ey. rewrite Ex, Ey, Ed.
  destruct (constructor_geometry "picker" "parent" 200 0 0 0)
    as (Er & Es & _ & EoL & EoT & _).
  fold this in Er, Es, EoL, EoT.
  unfold HSLPicker.normalizePos. rewrite Er, Es, EoL, EoT.
  cbn [fst snd HSLPicker.pageX HSLPicker.pageY evt].
  split; field.
Defined.

(** ** What is painted *)

Section Painting.

Import HSLPicker.
Local Open Scope R_scope.

Lemma round_integer (x : R) : exists z : Z, Math.round x = IZR z.
Proof. unfold Math.round. eauto. Qed.

(** Two integers less than 1 apart, in order. *)
Lemma IZR_le_half (a b : Z) : IZR a < IZR b + 1 -> IZR a <= IZR b.
Proof.
  intros H. apply IZR_le.
  assert (Hlt : IZR a < IZR (b + 1)) by (rewrite plus_IZR; exact H).
  apply lt_IZR in Hlt. lia.
Qed.

Lemma round_mono (x y : R) : x <= y -> Math.round x <= Math.round y.
Proof.
  intros Hxy.
  pose proof (round_bounds x) as Hx. pose proof (round_bounds y) as Hy.
  destruct (round_integer x) as [a Ea]. destruct (round_integer y) as [b Eb].
  rewrite Ea, Eb in *. apply IZR_le_half. lra.
Qed.

(** Cauchy's inequality in the plane, for a vector of length [m] and one of
    length at most [t]. *)
Lemma dot_bound (cx cy vx vy m t : R) :
  0 <= m -> 0 <= t ->
  cx * cx + cy * cy = m * m -> vx * vx + vy * vy <= t * t ->
  - (m * t) <= cx * vx + cy * vy <= m * t.
Proof.
  intros Hm Ht Hc Hv.
  assert (Hsq : (cx * vx + cy * vy) * (cx * vx + cy * vy) <= (m * t) * (m * t)).
  { assert (Hcs : (cx * vx + cy * vy) * (cx * vx + cy * vy)
                  <= (cx * cx + cy * cy) * (vx * vx + vy * vy)).
    { assert (E : (cx * cx + cy * cy) * (vx * vx + vy * vy)
                  - (cx * vx + cy * vy) * (cx * vx + cy * vy)
                  = (cx * vy - cy * vx) * (cx * vy - cy * vx)) by ring.
      pose proof (Rle_0_sqr (cx * vy - cy * vx)) as Hsq. unfold Rsqr in Hsq.
      lra. }
    rewrite Hc in Hcs.
    assert (m * m * (vx * vx + vy * vy) <= m * m * (t * t))
      by (apply Rmult_le_compat_l; nra).
    nra. }
  assert (Hmt : 0 <= m * t) by nra.
  split; nra.
Qed.

(** A disk of radius [rho] around a point at distance [m] from the origin
    lies between the distances [m - rho] and [m + rho]. *)
Lemma disk_in_annulus (cx cy px py m rho : R) :
  0 <= rho <= m ->
  cx * cx + cy * cy = m * m ->
  (px - cx) * (px - cx) + (py - cy) * (py - cy) <= rho * rho ->
  m - rho <= sqrt (px * px + py * py) <= m + rho.
Proof.
  intros [Hrho Hm] Hc Hv.
  destruct (dot_bound cx cy (px - cx) (py - cy) m rho) as [Hlo Hhi];
    try assumption; try lra.
  assert (Ep : px * px + py * py
               = m * m + 2 * (cx * (px - cx) + cy * (py - cy))
                 + ((px - cx) * (px - cx) + (py - cy) * (py - cy)))
    by (rewrite <- Hc; ring).
  assert (Hv0 : 0 <= (px - cx) * (px - cx) + (py - cy) * (py - cy)).
  { pose proof (Rle_0_sqr (px - cx)) as H1.
    pose proof (Rle_0_sqr (py - cy)) as H2. unfold Rsqr in H1, H2. lra. }
  split.
  - rewrite <- (sqrt_square (m - rho)) by lra.
    apply sqrt_le_1_alt.
    set (t := sqrt ((px - cx) * (px - cx) + (py - cy) * (py - cy))).
    assert (Ht0 : 0 <= t) by apply sqrt_pos.
    assert (Et : t * t = (px - cx) * (px - cx) + (py - cy) * (py - cy))
      by (apply sqrt_def; exact Hv0).
    assert (Htr : t <= rho) by nra.
    destruct (dot_bound cx cy (px - cx) (py - cy) m t) as [Hlo' _];
      try assumption; try lra.
    nra.
  - rewrite <- (sqrt_square (m + rho)) by lra.
    apply sqrt_le_1_alt. nra.
Qed.

End Painting.

Section Painted.

Import HSLPicker.

Lemma num_same_eq (x y : num) : num_same x y = true -> x = y.
Proof.
  destruct x as [[a b] | sg |], y as [[c d] | tg |]; cbn; try discriminate.
  - intros H. apply andb_prop in H. destruct H as [Hn Hd].
    apply Z.eqb_eq in Hn. apply Pos.eqb_eq in Hd. congruence.
  - intros H. apply Bool.eqb_prop in H. congruence.
  - reflexivity.
Qed.

(** The saturation and the lightness of [HSBToHSL] do not depend on the
    hue. *)
Lemma HSBToHSL_s_l (H H' S B : num) :
  Hsl.s (ColorConvert.HSBToHSL H S B) = Hsl.s (ColorConvert.HSBToHSL H' S B)
  /\ Hsl.l (ColorConvert.HSBToHSL H S B)
     = Hsl.l (ColorConvert.HSBToHSL H' S B).
Proof.
  unfold ColorConvert.HSBToHSL.
  destruct (_ && _); [split; reflexivity |].
  destruct (_ && _); split; reflexivity.
Qed.

Lemma stop_s_l (hue : num) (i j : Z) :
  Hsl.s (drawColorSquare_stop hue i j)
  = Hsl.s (drawColorSquare_stop (Fin 0) i j)
  /\ Hsl.l (drawColorSquare_stop hue i j)
     = Hsl.l (drawColorSquare_stop (Fin 0) i j).
Proof. apply HSBToHSL_s_l. Qed.

Lemma left_column :
  forallb
    (fun i =>
       num_same (Hsl.s (drawColorSquare_stop (Fin 0) i 0)) (Fin 0)
       && num_same (Hsl.l (drawColorSquare_stop (Fin 0) i 0))
            (Num.ofZ (if (i =? 99)%Z then 0 else 100 - i)))
    (below 100) = true.
Proof. vm_compute. reflexivity. Qed.

Lemma bottom_row :
  forallb
    (fun j =>
       num_same (Hsl.s (drawColorSquare_stop (Fin 0) 99 j)) (Fin 0)
       && num_same (Hsl.l (drawColorSquare_stop (Fin 0) 99 j)) (Fin 0))
    (below 15) = true.
Proof. vm_compute. reflexivity. Qed.

Lemma top_row :
  forallb
    (fun j =>
       (j =? 0)%Z
       || num_same (Hsl.s (drawColorSquare_stop (Fin 0) 0 j)) (Num.ofZ 100))
    (below 15) = true.
Proof. vm_compute. reflexivity. Qed.

End Painted.

(** X23. The rows of the square leave no gap: for a square of length 0 or
    more, each of the 100 rectangles that [drawColorSquare] fills starts
    at the same [x] as the next, no lower than the next starts, and reaches
    at least to where the next starts; and the last one ends below the
    bottom edge of the square, by 2 at most. *)
Theorem drawColorSquare_rows_tile (this : HSLPicker.t) (i : Z) :
  (0 <= HSLPicker.squareLength this)%R -> (0 <= i < 99)%Z ->
  let '(x, y, _, h) := HSLPicker.drawColorSquare_row this i in
  let '(x', y', _, _) := HSLPicker.drawColorSquare_row this (i + 1) in
  let '(_, yl, _, hl) := HSLPicker.drawColorSquare_row this 99 in
  let bottom :=
    (HSLPicker.radius this + HSLPicker.squareLength this / 2)%R in
  x' = x /\ (y <= y' <= y + h)%R /\ (bottom < yl + hl <= bottom + 2)%R.
Proof.
  intros Hsq Hi. unfold HSLPicker.drawColorSquare_row. cbv zeta.
  set (a := (HSLPicker.radius this - HSLPicker.squareLength this / 2)%R).
  set (u := (HSLPicker.squareLength this / 100)%R).
  assert (Hu : (0 <= u)%R) by (unfold u; lra).
  rewrite plus_IZR.
  set (k := if (i <? 96)%Z then 4%Z else (100 - i)%Z).
  assert (Hk : (1 <= IZR k)%R).
  { apply (IZR_le 1). unfold k. destruct (i <? 96)%Z; lia. }
  change (if (99 <? 96)%Z then 4%Z else (100 - 99)%Z) with 1%Z.
  pose proof (round_bounds (a + IZR i * u)) as By.
  pose proof (round_bounds (a + (IZR i + 1) * u)) as By'.
  pose proof (round_bounds u) as Bu.
  pose proof (round_bounds (a + 99 * u)) as Bl.
  split; [reflexivity |]. split; [split |].
  - apply round_mono. nra.
  - destruct (round_integer (a + IZR i * u)) as [zy Ey].
    destruct (round_integer (a + (IZR i + 1) * u)) as [zy' Ey'].
    destruct (round_integer u) as [zu Eu].
    rewrite Ey, Ey', Eu in *. rewrite <- !plus_IZR.
    apply IZR_le_half. rewrite !plus_IZR. lra.
  - unfold a, u in *. lra.
Qed.

Lemma drawColorSquare_rows_tile_witness :
  let this := HSLPicker.constructor "picker" "parent" 200 0 0 0 in
  (0 <= HSLPicker.squareLength this)%R /\ (0 <= 97 < 99)%Z
  /\ (snd (fst (fst (HSLPicker.drawColorSquare_row this 98)))
      <= snd (fst (fst (HSLPicker.drawColorSquare_row this 97)))
         + snd (HSLPicker.drawColorSquare_row this 97))%R.
Proof.
  intros this.
  assert (Hsq : (0 <= HSLPicker.squareLength this)%R).
  { pose proof (square_of_radius_3 "picker" "parent" 200 0 0 0).
    fold this in H. lra. }
  split; [exact Hsq |]. split; [lia |].
  pose proof (drawColorSquare_rows_tile this 97 Hsq ltac:(lia)) as H.
  change (97 + 1)%Z with 98%Z in H.
  destruct (HSLPicker.drawColorSquare_row this 97) as [[[x y] w] h].
  destruct (HSLPicker.drawColorSquare_row this 98) as [[[x' y'] w'] h'].
  destruct (HSLPicker.drawColorSquare_row this 99) as [[[xl yl] wl] hl].
  cbn [fst snd]. apply H.
Defined.

(** X24. The edges of the square, whatever the hue: the first stop of each
    row is a grey, with saturation 0 and the lightness going from 100 in
    the first row down by one a row, and 0 in the last; every stop of the
    last row is black; and in the first row every stop but the first has
    saturation 100. *)
Theorem drawColorSquare_edges (hue : num) (i j : Z) :
  (0 <= i < 100)%Z -> (0 <= j < 15)%Z ->
  (Hsl.s (HSLPicker.drawColorSquare_stop hue i 0) = Fin 0
   /\ Hsl.l (HSLPicker.drawColorSquare_stop hue i 0)
      = Num.ofZ (if (i =? 99)%Z then 0 else 100 - i))
  /\ (Hsl.s (HSLPicker.drawColorSquare_stop hue 99 j) = Fin 0
      /\ Hsl.l (HSLPicker.drawColorSquare_stop hue 99 j) = Fin 0)
  /\ (j <> 0%Z ->
      Hsl.s (HSLPicker.drawColorSquare_stop hue 0 j) = Num.ofZ 100).
Proof.
  intros Hi Hj.
  pose proof (below_all 100 _ i left_column Hi) as Hleft.
  pose proof (below_all 15 _ j bottom_row Hj) as Hbottom.
  pose proof (below_all 15 _ j top_row Hj) as Htop.
  cbv beta in Hleft, Hbottom, Htop.
  apply andb_prop in Hleft, Hbottom.
  destruct Hleft as [Hls Hll], Hbottom as [Hbs Hbl].
  apply num_same_eq in Hls, Hll, Hbs, Hbl.
  destruct (stop_s_l hue i 0) as [-> ->].
  destruct (stop_s_l hue 99 j) as [-> ->].
  destruct (stop_s_l hue 0 j) as [-> _].
  repeat split; try assumption.
  intros Hne. apply orb_prop in Htop. destruct Htop as [H0 | Hs].
  - apply Z.eqb_eq in H0. contradiction.
  - apply num_same_eq, Hs.
Qed.

Lemma drawColorSquare_edges_witness :
  (0 <= 40 < 100)%Z /\ (0 <= 14 < 15)%Z
  /\ Hsl.l (HSLPicker.drawColorSquare_stop (Fin 210) 40 0) = Num.ofZ 60
  /\ Hsl.l (HSLPicker.drawColorSquare_stop (Fin 210) 99 14) = Fin 0
  /\ Hsl.s (HSLPicker.drawColorSquare_stop (Fin 210) 0 14) = Num.ofZ 100.
Proof.
  split; [lia |]. split; [lia |].
  destruct (drawColorSquare_edges (Fin 210) 40 14 ltac:(lia) ltac:(lia))
    as ((_ & Hl) & (_ & Hb) & Ht).
  split; [exact Hl |]. split; [exact Hb |]. apply Ht. discriminate.
Defined.

(** X25. The wedges of the hue wheel: wedge [i] spans the four degrees that
    end at [i] degrees.  For an angle of [d] degrees, [0 <= d < 356], the
    wedge [floor(d) + 4] covers it and no wedge that the loop paints later
    does; its colour has a hue more than 3 and at most 4 degrees beyond
    [d]. *)
Theorem drawHueWheel_last_wedge (d : R) :
  (0 <= d < 356)%R ->
  let theta := (d * (PI / 180))%R in
  let i := (Int_part d + 4)%Z in
  (0 <= i < 360)%Z
  /\ wedge_covers i theta
  /\ (forall k : Z, (i < k < 360)%Z -> ~ wedge_covers k theta)
  /\ (d + 3 < IZR i <= d + 4)%R.
Proof.
  intros [Hlo Hhi] theta i.
  pose proof PI_RGT_0 as Hpi.
  destruct (base_Int_part d) as [Hle Hgt].
  assert (Hi : (d + 3 < IZR i <= d + 4)%R)
    by (unfold i; rewrite plus_IZR; lra).
  assert (Hrange : (0 <= i < 360)%Z).
  { split.
    - apply le_IZR. lra.
    - apply lt_IZR. lra. }
  split; [exact Hrange |]. unfold wedge_covers, HSLPicker.drawHueWheel_wedge.
  cbn [fst snd]. unfold theta.
  split; [split; nra |]. split; [| exact Hi].
  intros k [Hk _] [Hcover _].
  assert (Hk' : (IZR i + 1 <= IZR k)%R).
  { rewrite <- (plus_IZR i 1). apply IZR_le. lia. }
  nra.
Qed.

Lemma drawHueWheel_last_wedge_witness :
  (0 <= 90 < 356)%R
  /\ wedge_covers (Int_part 90 + 4) (90 * (PI / 180))
  /\ (90 + 3 < IZR (Int_part 90 + 4))%R.
Proof.
  assert (H : (0 <= 90 < 356)%R) by lra.
  split; [exact H |].
  destruct (drawHueWheel_last_wedge 90 H) as (_ & Hc & _ & Hi & _).
  split; [exact Hc | exact Hi].
Defined.

(** X26. The wedges of the hue wheel cover the whole turn: every angle from
    0 to [2 PI] is within one of the 360 wedges, taken as it is or a turn
    back. *)
Theorem drawHueWheel_covers (theta : R) :
  (0 <= theta < 2 * PI)%R ->
  exists i : Z,
    (0 <= i < 360)%Z
    /\ (wedge_covers i theta \/ wedge_covers i (theta - 2 * PI)).
Proof.
  intros [Hlo Hhi]. pose proof PI_RGT_0 as Hpi.
  set (d := (theta * (180 / PI))%R).
  assert (Etheta : theta = (d * (PI / 180))%R) by (unfold d; field; lra).
  assert (Hd : (0 <= d < 360)%R).
  { unfold d. split.
    - apply Rmult_le_pos; [exact Hlo |].
      apply Rlt_le, Rdiv_lt_0_compat; lra.
    - assert (E360 : (2 * PI * (180 / PI) = 360)%R) by (field; lra).
      rewrite <- E360.
      apply Rmult_lt_compat_r; [apply Rdiv_lt_0_compat; lra | exact Hhi]. }
  unfold wedge_covers, HSLPicker.drawHueWheel_wedge. cbn [fst snd].
  destruct (Rlt_le_dec d 359) as [Hsmall | Hbig].
  - destruct (base_Int_part d) as [Hle Hgt].
    exists (Int_part d + 1)%Z. split.
    + split; [apply le_IZR | apply lt_IZR]; rewrite plus_IZR; lra.
    + left. rewrite plus_IZR, Etheta. split; nra.
  - exists 0%Z. split; [lia |]. right. rewrite Etheta. split; nra.
Qed.

Lemma drawHueWheel_covers_witness :
  (0 <= 1 < 2 * PI)%R
  /\ exists i : Z,
      (0 <= i < 360)%Z
      /\ (wedge_covers i 1 \/ wedge_covers i (1 - 2 * PI)).
Proof.
  assert (H : (0 <= 1 < 2 * PI)%R) by (pose proof PI2_1; split; lra).
  split; [exact H | exact (drawHueWheel_covers 1 H)].
Defined.

(** X27. The indicator of the ring is drawn within the ring: in every state
    reached from the construction of a picker of radius 0 or more by
    pointer events, the second circle of [redraw], of radius
    [ringsize / 2] around [(ox, oy)], has no point nearer to the centre
    than the inner edge of the ring or farther than the outer edge. *)
Theorem ring_indicator_within_ring
    (id parentId : string) (radius hue offsetLeft offsetTop : R)
    (evts : list HSLPicker.event) (px py : R) :
  (0 <= radius)%R ->
  let this :=
    HSLPicker.run
      (HSLPicker.constructor id parentId radius hue offsetLeft offsetTop)
      evts in
  let '(cx, cy, rho) := nth 1 (HSLPicker.redraw_circles this) (0, 0, 0)%R in
  ((px - cx) ^ 2 + (py - cy) ^ 2 <= rho ^ 2)%R ->
  (HSLPicker.radius this - HSLPicker.ringsize this
   <= HSLPicker.distance this (px, py)
   <= HSLPicker.radius this)%R.
Proof.
  intros Hr this. cbn [nth HSLPicker.redraw_circles]. intros Hin.
  set (new := HSLPicker.constructor id parentId radius hue offsetLeft
                offsetTop) in *.
  assert (Hind : indicator_at_hue this)
    by (apply run_indicator, constructor_indicator).
  pose proof (indicator_on_circle this Hind) as Hc.
  destruct (constructor_geometry id parentId radius hue offsetLeft offsetTop)
    as (Er & Es & _).
  fold new in Er, Es.
  assert (Egeo : HSLPicker.radius this = radius
                 /\ HSLPicker.ringsize this = (radius / 5)%R).
  { unfold this. clear Hind Hc Hin. revert Er Es. generalize new.
    induction evts as [| evt rest IH]; intros q Er Es; [auto |].
    cbn [HSLPicker.run fold_left].
    destruct (dispatch_geometry q evt) as (Er' & Es' & _).
    apply IH; congruence. }
  destruct Egeo as [Er' Es']. rewrite Er', Es' in *.
  set (m := (radius - radius / 5 / 2)%R) in *.
  set (rho := (radius / 5 / 2)%R) in *.
  destruct (disk_in_annulus (HSLPicker.ox this - radius)
              (HSLPicker.oy this - radius) (px - radius) (py - radius) m rho)
    as [Hlo Hhi].
  - unfold m, rho. lra.
  - replace (m * m)%R with (m ^ 2)%R by ring. rewrite <- Hc. ring.
  - replace (rho * rho)%R with (rho ^ 2)%R by ring.
    apply Rle_trans with (2 := Hin). apply Req_le. ring.
  - unfold HSLPicker.distance. cbn [fst snd]. rewrite Er'.
    replace ((radius - px) ^ 2 + (radius - py) ^ 2)%R
      with ((px - radius) * (px - radius) + (py - radius) * (py - radius))%R
      by ring.
    unfold m, rho in *. lra.
Qed.

Lemma ring_indicator_within_ring_witness :
  let this :=
    HSLPicker.run (HSLPicker.constructor "picker" "parent" 200 0 0 0)
      [HSLPicker.mkEvent HSLPicker.mousedown 390 200] in
  (0 <= 200)%R
  /\ (HSLPicker.radius this - HSLPicker.ringsize this
      <= HSLPicker.distance this (HSLPicker.ox this, HSLPicker.oy this)
      <= HSLPicker.radius this)%R.
Proof.
  intros this. split; [lra |].
  pose proof (ring_indicator_within_ring "picker" "parent" 200 0 0 0
                [HSLPicker.mkEvent HSLPicker.mousedown 390 200]
                (HSLPicker.ox this) (HSLPicker.oy this) ltac:(lra)) as H.
  cbn [nth HSLPicker.redraw_circles] in H. fold this in H. apply H.
  match goal with
  | |- (?a <= _)%R => replace a with 0%R by ring
  end.
  apply pow2_ge_0.
Defined.

(** ** The hue through the conversions *)

Section Binary64Hues.

Import PrimFloat Binary64.
Local Open Scope float_scope.

(** On whole percentages the brightness that [HSLToHSB] computes is zero
    at lightness 0 and nowhere else. *)
Lemma brightness_zero_of_percentages :
  forallb (fun s => forallb (fun x =>
      let S := ofZ s / 100 in
      let L := ofZ x / 100 in
      Bool.eqb ((2 * L + S * (1 - abs (2 * L - 1))) / 2 =? 0) (x =? 0)%Z)
    (below 101)) (below 101) = true.
Proof. vm_compute. reflexivity. Qed.

(** A hue of whole degrees from -60 to 360, divided by 60 and multiplied
    by 60, one by one. *)
Lemma whole_degrees_kept :
  forallb (fun k =>
      let h := (k - 60)%Z in
      let H := ofZ h / 60 in
      (round (H * 60) =? ofZ h)
      && (round (round (H * 60)) =? ofZ h)
      && near (H * 60) (ofZ h)
      && near (round (H * 60)) (ofZ h))
    (below 421) = true.
Proof. vm_compute. reflexivity. Qed.

(** X28. The conversions between HSL and HSB keep a hue of whole degrees,
    in binary64: for a hue [h] from -60 to 360 and a saturation and a
    lightness (or brightness) of whole percentages, [HSLToHSB] returns [h]
    itself, but 0 at lightness 0; [HSBToHSL] returns a hue that rounds to
    [h] and is within 2^-44 of it, and not always [h] itself: at
    brightness 0 the hue 31 comes back unrounded, as
    31.000000000000004. *)
Theorem conversions_keep_hue (h s x : Z) :
  (-60 <= h <= 360)%Z -> (0 <= s <= 100)%Z -> (0 <= x <= 100)%Z ->
  let H := ofZ h / 60 in
  let S := ofZ s / 100 in
  let X := ofZ x / 100 in
  (Hsb.h (HSLToHSB H S X) =? ofZ (if (x =? 0)%Z then 0 else h)) = true
  /\ (round (Hsl.h (HSBToHSL H S X)) =? ofZ h) = true
  /\ near (Hsl.h (HSBToHSL H S X)) (ofZ h) = true
  /\ Hsl.h (HSBToHSL (ofZ 31 / 60) 0 0) = 0x1.f000000000001p+4.
Proof.
  intros Hh Hs Hx H S X.
  pose proof (below_all 421 _ (h + 60) whole_degrees_kept ltac:(lia)) as Hk.
  cbv beta zeta in Hk. replace (h + 60 - 60)%Z with h in Hk by lia.
  fold H in Hk.
  apply andb_prop in Hk as [Hk Hnear'].
  apply andb_prop in Hk as [Hk Hnear].
  apply andb_prop in Hk as [Hround Hround2].
  pose proof (below_all 101 _ s brightness_zero_of_percentages ltac:(lia))
    as Hrow.
  cbv beta in Hrow.
  pose proof (below_all 101 _ x Hrow ltac:(lia)) as Hb.
  cbv beta zeta in Hb. fold S X in Hb. apply Bool.eqb_prop in Hb.
  split.
  { rewrite Binary64_HSLToHSB_h, Hb.
    destruct (x =? 0)%Z; [reflexivity | exact Hround]. }
  split; [| split; [| vm_compute; reflexivity]].
  - destruct (Binary64_HSBToHSL_h H S X) as [-> | ->]; assumption.
  - destruct (Binary64_HSBToHSL_h H S X) as [-> | ->]; assumption.
Qed.

Lemma conversions_keep_hue_witness :
  (-60 <= 300 <= 360)%Z /\ (0 <= 40 <= 100)%Z /\ (0 <= 70 <= 100)%Z
  /\ (Hsb.h (HSLToHSB (ofZ 300 / 60) (ofZ 40 / 100) (ofZ 70 / 100))
      =? ofZ 300) = true.
Proof.
  repeat (split; [lia |]).
  exact (proj1 (conversions_keep_hue 300 40 70
                  ltac:(lia) ltac:(lia) ltac:(lia))).
Defined.

End Binary64Hues.

(** ** Outside the square *)

(** X29. Outside the square the selection stops at the edge: for a square
    of length 0 or more, a pointer to the right of the square, however
    far, stores the right edge less one pixel, rounded, and a pointer to
    the left of it the left edge and one pixel; the same holds below and
    above. *)
Theorem updateInner_outside (this : HSLPicker.t) (evt : HSLPicker.event) :
  (0 <= HSLPicker.squareLength this)%R ->
  let pos := HSLPicker.normalizePos this evt in
  let half := (HSLPicker.squareLength this / 2)%R in
  let next := HSLPicker.updateInner this evt in
  ((HSLPicker.radius this < fst pos)%R ->
   (HSLPicker.radius this + half <= fst pos)%R ->
   HSLPicker.ix next = Math.round (HSLPicker.radius this + half - 1))
  /\ ((fst pos <= HSLPicker.radius this - half)%R ->
      HSLPicker.ix next = Math.round (HSLPicker.radius this - half + 1))
  /\ ((HSLPicker.radius this < snd pos)%R ->
      (HSLPicker.radius this + half <= snd pos)%R ->
      HSLPicker.iy next = Math.round (HSLPicker.radius this + half - 1))
  /\ ((snd pos <= HSLPicker.radius this - half)%R ->
      HSLPicker.iy next = Math.round (HSLPicker.radius this - half + 1)).
Proof.
  intros Hsq pos half next.
  unfold next, HSLPicker.updateInner, HSLPicker.redraw, HSLPicker._setIXY.
  cbn [HSLPicker.ix HSLPicker.iy HSLPicker.set_ixy]. fold pos. fold half.
  assert (Hhalf : (0 <= half)%R) by (unfold half; lra).
  unfold Math.min, Math.max.
  repeat split; intros.
  - destruct (Rlt_dec 0 (fst pos - HSLPicker.radius this)); [| lra].
    rewrite Rmin_right by lra. reflexivity.
  - destruct (Rlt_dec 0 (fst pos - HSLPicker.radius this)); [lra |].
    rewrite Rmax_right by lra. reflexivity.
  - destruct (Rlt_dec 0 (snd pos - HSLPicker.radius this)); [| lra].
    rewrite Rmin_right by lra. reflexivity.
  - destruct (Rlt_dec 0 (snd pos - HSLPicker.radius this)); [lra |].
    rewrite Rmax_right by lra. reflexivity.
Qed.

Lemma updateInner_outside_witness :
  let this := HSLPicker.constructor "picker" "parent" 200 0 0 0 in
  let evt := HSLPicker.mkEvent HSLPicker.mousemove 9000 (-50) in
  (0 <= HSLPicker.squareLength this)%R
  /\ HSLPicker.ix (HSLPicker.updateInner this evt)
     = Math.round (HSLPicker.radius this + HSLPicker.squareLength this / 2
                   - 1)%R
  /\ HSLPicker.iy (HSLPicker.updateInner this evt)
     = Math.round (HSLPicker.radius this - HSLPicker.squareLength this / 2
                   + 1)%R.
Proof.
  intros this evt.
  pose proof sqrt2_bounds as Hs.
  destruct (constructor_geometry "picker" "parent" 200 0 0 0)
    as (Er & _ & El & EoL & EoT & _).
  fold this in Er, El, EoL, EoT.
  assert (Hsq : (0 <= HSLPicker.squareLength this)%R) by (rewrite El; lra).
  assert (Epos : HSLPicker.normalizePos this evt = (9000 - 0, -50 - 0)%R)
    by (unfold HSLPicker.normalizePos; rewrite EoL, EoT; reflexivity).
  destruct (updateInner_outside this evt Hsq) as (Hright & _ & _ & Habove).
  split; [exact Hsq |]. split.
  - apply Hright; rewrite Epos, Er, ?El; cbn [fst]; lra.
  - apply Habove; rewrite Epos, Er, El; cbn [snd]; lra.
Defined.

(** ** Brightness and lightness *)

(** X30. The brightness of a colour is never below its lightness: for an
    integer hue and integer percentages, [HSLToHSB] returns a brightness
    from the lightness given up to 100, and [HSBToHSL] a lightness from 0
    up to the brightness given. *)
Theorem brightness_above_lightness (h s x : Z) :
  (0 <= s <= 100)%Z -> (0 <= x <= 100)%Z ->
  exists b l : Z,
    Hsb.b (ColorConvert.HSLToHSB (Num.ofZ h / Fin 60)%num
             (Num.ofZ s / Fin 100)%num (Num.ofZ x / Fin 100)%num)
    = Num.ofZ b
    /\ (x <= b <= 100)%Z
    /\ Hsl.l (ColorConvert.HSBToHSL (Num.ofZ h / Fin 60)%num
                (Num.ofZ s / Fin 100)%num (Num.ofZ x / Fin 100)%num)
       = Num.ofZ l
    /\ (0 <= l <= x)%Z.
Proof.
  intros Hs Hx.
  pose proof (HSLToHSB_ofZ h s x Hs Hx) as Eb.
  pose proof (HSLToHSB_Z_range h s x Hs Hx) as Rb.
  pose proof (HSBToHSL_ofZ h s x Hs Hx) as El.
  pose proof (HSBToHSL_Z_range h s x Hs Hx) as Rl.
  assert (Hb : (x <= snd (HSLToHSB_Z h s x))%Z).
  { unfold HSLToHSB_Z.
    set (N := (100 * x + s * (50 - Z.abs (x - 50)))%Z).
    assert (HN : (100 * x <= N)%Z).
    { assert (0 <= s * (50 - Z.abs (x - 50)))%Z
        by (apply Z.mul_nonneg_nonneg; lia).
      unfold N. lia. }
    destruct (Z.eqb_spec N 0); cbn [snd]; [lia |].
    apply Z.div_le_lower_bound; lia. }
  assert (Hl : (snd (HSBToHSL_Z h s x) <= x)%Z).
  { unfold HSBToHSL_Z.
    set (P := (x * (200 - s))%Z).
    assert (HP : (P <= 200 * x)%Z) by (unfold P; nia).
    destruct (_ =? 0)%Z; [destruct (Z.eqb_spec x 100); cbn [snd]; lia |].
    cbn [snd]. apply Z.lt_succ_r, Z.div_lt_upper_bound; lia. }
  destruct (HSLToHSB_Z h s x) as [[h' s'] b].
  destruct (HSBToHSL_Z h s x) as [[h'' s''] l].
  destruct El as (hq & _ & El). cbn [snd] in Hb, Hl.
  exists b, l. rewrite Eb, El. cbn [Hsb.b Hsl.l].
  repeat split; try reflexivity; lia.
Qed.

Lemma brightness_above_lightness_witness :
  (0 <= 80 <= 100)%Z /\ (0 <= 30 <= 100)%Z
  /\ exists b l : Z,
      Hsb.b (ColorConvert.HSLToHSB (Num.ofZ 200 / Fin 60)%num
               (Num.ofZ 80 / Fin 100)%num (Num.ofZ 30 / Fin 100)%num)
      = Num.ofZ b
      /\ (30 <= b <= 100)%Z
      /\ Hsl.l (ColorConvert.HSBToHSL (Num.ofZ 200 / Fin 60)%num
                  (Num.ofZ 80 / Fin 100)%num (Num.ofZ 30 / Fin 100)%num)
         = Num.ofZ l
      /\ (0 <= l <= 30)%Z.
Proof.
  split; [lia |]. split; [lia |].
  exact (brightness_above_lightness 200 80 30 ltac:(lia) ltac:(lia)).
Defined.
